(** * Stretch Video: the control-point mesh warp engine

    A shallow embedding of the two renderers of the repository and of the
    control point store that feeds them:

    - [Shader]    the built-ins the two shading languages share;
    - [Metal]     the iOS shader [ios/StretchVideo/WarpShader.metal]:
                  [applyWarp];
    - [WebGL]     the web renderer, class [VideoProcessor]: the GLSL
                  [applyWarp] it compiles, [createMesh] with the typed
                  arrays it uploads, [render];
    - [MetalMesh] the compute kernel [generateMesh] of WarpShader.metal;
    - [Store]     the Swift control point store
                  ([VideoEditorView.addControlPoint],
                  [VideoProcessor.addControlPoint], [updateControlPoint],
                  [removeControlPoint]) and the sliders of
                  [ControlPointRow] that write to it through [onUpdate];
    - [MetalStages] the other stages of WarpShader.metal:
                  [warpVertexShader], [warpFragmentShader],
                  [advancedWarpCompute];
    - [MetalMeshOrder] dispatches of [generateMesh] in any thread order;
    - [WebStages] the rest of class [VideoProcessor]: the fragment shader,
                  the constructor, [initializeWebGL], [compileShader],
                  [destroy];
    - [WebEditor] the pointer and keyboard handlers of the component
                  [VideoEditor] and its canvas layout;
    - [SwiftModel] the [CGPoint] and [Array] extensions of the Swift model
                  and the drag gesture of [ControlPointView];
    - [Spec]      the kernels, the per-point rules and the triangle order as
                  the specification words them, for comparison.

    Shader [float]s, JavaScript [number]s and Swift [Float]/[CGFloat]s that
    take part in the warp arithmetic are idealised as real numbers: rounding,
    infinities and NaN are outside the model, except in
    [advancedWarpCompute], where the rounding of the two coordinate
    conversions is a parameter.  Loop counters, array indices and mesh
    resolutions are integers, as in the source, and the 16-bit index buffer
    of the web renderer wraps; mesh coordinates, quotients of two integers,
    are rationals. *)

From Stdlib Require Import Reals Lra Lia ZArith List Bool String QArith Permutation.
Import ListNotations.

Open Scope R_scope.

(** ** Shading-language built-ins

    [float2] / [vec2] arithmetic and the built-in functions both shading
    languages define the same way ([length], [normalize], [clamp],
    [smoothstep]). *)
Module Shader.

Record float2 : Type := mkFloat2 { vx : R; vy : R }.

Definition vadd (a b : float2) : float2 := mkFloat2 (vx a + vx b) (vy a + vy b).
Definition vsub (a b : float2) : float2 := mkFloat2 (vx a - vx b) (vy a - vy b).
(** [v * s] for a scalar [s] *)
Definition vscale (v : float2) (s : R) : float2 := mkFloat2 (vx v * s) (vy v * s).
(** [a / b], componentwise *)
Definition vdiv (a b : float2) : float2 := mkFloat2 (vx a / vx b) (vy a / vy b).

Definition dot (a b : float2) : R := vx a * vx b + vy a * vy b.
Definition length (v : float2) : R := sqrt (dot v v).
Definition normalize (v : float2) : float2 := vscale v (/ length v).

(** [clamp(x, lo, hi) = min(max(x, lo), hi)] *)
Definition clamp (x lo hi : R) : R := Rmin (Rmax x lo) hi.
Definition clamp2 (v lo hi : float2) : float2 :=
  mkFloat2 (clamp (vx v) (vx lo) (vx hi)) (clamp (vy v) (vy lo) (vy hi)).

(** [smoothstep(e0, e1, x)]: Hermite interpolation of the clamped ratio *)
Definition smoothstep (edge0 edge1 x : R) : R :=
  let t := clamp ((x - edge0) / (edge1 - edge0)) 0 1 in
  t * t * (3 - 2 * t).

(** [float2(s)]: both components equal to [s] *)
Definition splat (s : R) : float2 := mkFloat2 s s.

(** the unit square [0,1] x [0,1] *)
Definition inUnitSquare (v : float2) : Prop :=
  0 <= vx v <= 1 /\ 0 <= vy v <= 1.

End Shader.

(** ** The Metal shader (WarpShader.metal) *)
Module Metal.
Import Shader.

(** [struct ControlPoint]; [type]: 0 = stretch, 1 = anchor *)
Record ControlPoint : Type := mkControlPoint {
  position : float2;
  strength : R;
  radius : R;
  type : Z
}.

(** [struct WarpUniforms]; [interpolationType]: 0 = linear, 1 = smooth,
    2 = elastic *)
Record WarpUniforms : Type := mkWarpUniforms {
  videoSize : float2;
  globalStrength : R;
  numControlPoints : Z;
  time : R;
  interpolationType : Z
}.

(** The [switch (uniforms.interpolationType)] of [applyWarp]; it has no
    [default], so any other value leaves the linear influence as it is. *)
Definition applyInterpolation (interpolationType : Z) (influence : R) : R :=
  match interpolationType with
  | 0%Z => influence
  | 1%Z => smoothstep 0.0 1.0 influence
  | 2%Z => influence * influence * (3.0 - 2.0 * influence)
  | _ => influence
  end.

(** One iteration of the loop of [applyWarp] for the control point [point]:
    the new value of [warpedPosition]. *)
Definition warpIteration (uniforms : WarpUniforms) (position : float2)
    (warpedPosition : float2) (point : ControlPoint) : float2 :=
  let offset := vsub position (Metal.position point) in
  let distance := length offset in
  if Rge_dec distance (radius point) then warpedPosition
  else if Rlt_dec distance 0.001 then warpedPosition
  else
    let influence := 1.0 - (distance / radius point) in
    let influence := applyInterpolation (interpolationType uniforms) influence in
    if (type point =? 0)%Z then
      let warpDirection := normalize offset in
      let warpMagnitude := strength point * influence * globalStrength uniforms in
      vadd warpedPosition (vscale (vscale warpDirection warpMagnitude) 0.1)
    else
      let anchorStrength := strength point * influence * globalStrength uniforms in
      vsub warpedPosition (vscale (vscale offset anchorStrength) 0.05).

(** [for (int i = 0; i < uniforms.numControlPoints && i < 16; i++)]: the
    loop test is evaluated before every iteration; [fuel] bounds the number
    of iterations the model runs.  The buffer [controlPoints] is a device
    pointer, indexed by [i]. *)
Fixpoint warpLoop (uniforms : WarpUniforms) (controlPoints : nat -> ControlPoint)
    (position : float2) (fuel : nat) (i : nat) (warpedPosition : float2) : float2 :=
  match fuel with
  | O => warpedPosition
  | S fuel' =>
      if ((Z.of_nat i <? numControlPoints uniforms) && (Z.of_nat i <? 16))%Z then
        warpLoop uniforms controlPoints position fuel' (S i)
          (warpIteration uniforms position warpedPosition (controlPoints i))
      else warpedPosition
  end.

(** The accumulated position before the final clamp. *)
Definition warpAccumulate (position : float2) (controlPoints : nat -> ControlPoint)
    (uniforms : WarpUniforms) : float2 :=
  warpLoop uniforms controlPoints position 16 0 position.

Definition applyWarp (position : float2) (controlPoints : nat -> ControlPoint)
    (uniforms : WarpUniforms) : float2 :=
  let warpedPosition := warpAccumulate position controlPoints uniforms in
  clamp2 warpedPosition (splat 0.0) (splat 1.0).

(** A control point list laid out in a buffer: entry [i] of the list at
    index [i]; the memory behind the list reads as zeroes. *)
Definition zeroPoint : ControlPoint := mkControlPoint (splat 0) 0 0 0.
Definition bufferOf (points : list ControlPoint) : nat -> ControlPoint :=
  fun i => nth i points zeroPoint.

End Metal.

(** ** The web renderer (class [VideoProcessor] and its GLSL vertex shader) *)
Module WebGL.
Import Shader.

(** *** Types ([types/index.ts]) *)
Inductive PointType : Type := anchor | stretch.
Inductive Interpolation : Type := linear | smooth | elastic.
Inductive Quality : Type := draft | preview | final.

Record ControlPoint : Type := mkControlPoint {
  id : string;
  x : R;
  y : R;
  type : PointType;
  strength : R;
  radius : R;
  locked : bool
}.

Record WarpSettings : Type := mkWarpSettings {
  settings_strength : R;
  interpolation : Interpolation;
  preserveAspectRatio : bool;
  realTimePreview : bool;
  quality : Quality
}.

(** *** The vertex shader *)

(** The uniforms the shader declares.  The three arrays have 16 entries;
    the shader reads entry [i] only for [i < 16]. *)
Record Uniforms : Type := mkUniforms {
  u_resolution : float2;
  u_time : R;
  u_controlPoints : nat -> float2;
  u_controlStrengths : nat -> R;
  u_controlRadii : nat -> R;
  u_numControlPoints : Z;
  u_globalStrength : R
}.

(** The body of the loop of the GLSL [applyWarp] at index [i]. *)
Definition warpIteration (u : Uniforms) (position : float2)
    (warpedPos : float2) (i : nat) : float2 :=
  let controlPoint := u_controlPoints u i in
  let strength := u_controlStrengths u i in
  let radius := u_controlRadii u i in
  let offset := vsub position controlPoint in
  let distance := length offset in
  if Rlt_dec distance radius then
    if Rgt_dec distance 0.0 then
      let influence := 1.0 - (distance / radius) in
      let influence := smoothstep 0.0 1.0 influence in
      let warpDirection := normalize offset in
      let warpAmount := strength * influence * u_globalStrength u in
      vadd warpedPos (vscale (vscale warpDirection warpAmount) 0.1)
    else warpedPos
  else warpedPos.

(** [for (int i = 0; i < u_numControlPoints && i < 16; i++)] *)
Fixpoint warpLoop (u : Uniforms) (position : float2) (fuel : nat) (i : nat)
    (warpedPos : float2) : float2 :=
  match fuel with
  | O => warpedPos
  | S fuel' =>
      if ((Z.of_nat i <? u_numControlPoints u) && (Z.of_nat i <? 16))%Z then
        warpLoop u position fuel' (S i) (warpIteration u position warpedPos i)
      else warpedPos
  end.

Definition applyWarp (u : Uniforms) (position : float2) : float2 :=
  warpLoop u position 16 0 position.

(** The position part of the shader's [main]: [gl_Position.xy]. *)
Definition mainPosition (u : Uniforms) (a_position : float2) : float2 :=
  let normalizedPos := vdiv a_position (u_resolution u) in
  let warpedPos := applyWarp u normalizedPos in
  let clipSpace :=
    vsub (vscale (mkFloat2 (vx warpedPos * vx (u_resolution u) / vx (u_resolution u))
                           (vy warpedPos * vy (u_resolution u) / vy (u_resolution u)))
                 2.0)
         (splat 1.0) in
  mkFloat2 (vx clipSpace) (vy clipSpace * -1.0).

(** *** Typed arrays and array helpers of the host code *)

(** [new Float32Array(n)]: [n] zeroes *)
Definition Float32Array (n : nat) : list R := repeat 0 n.

(** [a[i] = v] on a typed array; a write past the end is dropped *)
Fixpoint store (a : list R) (i : nat) (v : R) : list R :=
  match a, i with
  | [], _ => []
  | _ :: rest, O => v :: rest
  | h :: rest, S j => h :: store rest j v
  end.

(** [a[i]] on a typed array the shader receives *)
Definition load (a : list R) (i : nat) : R := nth i a 0.

(** [l.slice(0, n)] *)
Definition slice0 {A : Type} (n : nat) (l : list A) : list A := firstn n l.

(** [l.forEach((e, i) => ...)] threading the state the callback mutates;
    [i] is the index of the first element of [l]. *)
Fixpoint forEach {A St : Type} (f : St -> A -> nat -> St) (l : list A) (i : nat)
    (s : St) : St :=
  match l with
  | [] => s
  | e :: rest => forEach f rest (S i) (f s e i)
  end.

(** *** Mesh generation ([createMesh])

    Grid coordinates are quotients of small integers; they are kept as
    exact rationals. *)

(** [new Uint16Array(indices)]: every entry reduced modulo 2^16 *)
Definition Uint16Array (l : list nat) : list Z :=
  map (fun n => (Z.of_nat n mod 65536)%Z) l.

(** The three arrays [createMesh] builds, and the data it hands to the two
    [bufferData] calls: [vertexData] is
    [new Float32Array([...vertices, ...texCoords])] (the coordinates; their
    rounding to single precision is outside the model), [indexData] is
    [new Uint16Array(indices)]. *)
Record Mesh : Type := mkMesh {
  vertices : list Q;
  texCoords : list Q;
  indices : list nat;
  vertexData : list Q;
  indexData : list Z
}.

Definition gridCoord (k meshResolution : nat) : Q :=
  (inject_Z (Z.of_nat k) / inject_Z (Z.of_nat meshResolution))%Q.

Definition createMesh (meshResolution : nat) : Mesh :=
  let uv :=
    flat_map (fun y =>
      flat_map (fun x =>
        let u := gridCoord x meshResolution in
        let v := gridCoord y meshResolution in
        [u; v])
      (seq 0 (meshResolution + 1)))
    (seq 0 (meshResolution + 1)) in
  let indices :=
    flat_map (fun y =>
      flat_map (fun x =>
        let topLeft := (y * (meshResolution + 1) + x)%nat in
        let topRight := (topLeft + 1)%nat in
        let bottomLeft := ((y + 1) * (meshResolution + 1) + x)%nat in
        let bottomRight := (bottomLeft + 1)%nat in
        [topLeft; bottomLeft; topRight; topRight; bottomLeft; bottomRight])
      (seq 0 meshResolution))
    (seq 0 meshResolution) in
  mkMesh uv uv indices (uv ++ uv) (Uint16Array indices).



(** *** The host object and the GL commands it issues *)

(** How a method ends: it returns, or an [Error] is thrown. *)
Inductive completion (A : Type) : Type :=
| Normal (a : A)
| Throw (message : string).
Arguments Normal {A} a.
Arguments Throw {A} message.

(** The video element: its [readyState] and the frame it currently shows. *)
Record HTMLVideoElement : Type := mkVideo {
  readyState : nat;
  currentFrame : nat
}.
Definition HAVE_CURRENT_DATA : nat := 2.

(** The calls [render] makes on the GL context, in program order.
    Attribute and uniform locations are named by the string they were
    looked up with; GL objects are named by their handle. *)
Inductive GLCall : Type :=
| bindTexture (texture : option nat)
| texImage2D (frame : nat)
| viewport (vpx vpy w h : Z)
| clearColor (r g b a : R)
| clear
| useProgram (program : nat)
| bindArrayBuffer (buffer : option nat)
| enableVertexAttribArray (attribute : string)
| vertexAttribPointer (attribute : string) (size : nat) (offset : nat)
| uniform2f (name : string) (v0 v1 : R)
| uniform1f (name : string) (v0 : R)
| uniform1i (name : string) (v0 : Z)
| uniform2fv (name : string) (data : list R)
| uniform1fv (name : string) (data : list R)
| activeTexture (unit : nat)
| bindElementArrayBuffer (buffer : option nat)
| drawElements (count : nat).

(** The calls that write the texture, and the calls that write the canvas. *)
Definition uploadsFrame (c : GLCall) : bool :=
  match c with texImage2D _ => true | _ => false end.
Definition writesCanvas (c : GLCall) : bool :=
  match c with clear | drawElements _ => true | _ => false end.

Record VideoProcessor : Type := mkVideoProcessor {
  canvas_width : Z;
  canvas_height : Z;
  video : option HTMLVideoElement;
  shaderProgram : option nat;
  texture : option nat;
  vertexBuffer : option nat;
  indexBuffer : option nat;
  controlPoints : list ControlPoint;
  warpSettings : WarpSettings;
  meshResolution : nat;
  isInitialized : bool
}.

(** The three typed arrays [render] fills from the control points. *)
Record PointArrays : Type := mkPointArrays {
  points : list R;
  strengths : list R;
  radii : list R
}.

Definition fillPointArrays (controlPoints : list ControlPoint) : PointArrays :=
  forEach
    (fun arrays point i =>
       mkPointArrays
         (store (store (points arrays) (i * 2) (x point)) (i * 2 + 1) (y point))
         (store (strengths arrays) i (strength point))
         (store (radii arrays) i (radius point)))
    (slice0 16 controlPoints) 0%nat
    (mkPointArrays (Float32Array 32) (Float32Array 16) (Float32Array 16)).

(** [currentTime || 0] *)
Definition orZero (currentTime : option R) : R :=
  match currentTime with Some t => t | None => 0 end.

(** The values of the vertex shader's uniforms after the uniform calls of
    [render]: [uniform2fv] pairs up consecutive entries of [points]. *)
Definition renderUniforms (this : VideoProcessor) (currentTime : option R) : Uniforms :=
  let arrays := fillPointArrays (controlPoints this) in
  mkUniforms
    (mkFloat2 (IZR (canvas_width this)) (IZR (canvas_height this)))
    (orZero currentTime)
    (fun i => mkFloat2 (load (points arrays) (2 * i)) (load (points arrays) (2 * i + 1)))
    (load (strengths arrays))
    (load (radii arrays))
    (Z.of_nat (Nat.min (List.length (controlPoints this)) 16))
    (settings_strength (warpSettings this)).

Definition qualityValue (q : Quality) : R :=
  match q with final => 1.0 | preview => 0.8 | draft => 0.5 end.

(** [!x] for an object reference: true exactly for [null]. *)
Definition isNull {A : Type} (x : option A) : bool :=
  match x with Some _ => false | None => true end.

(** What reading a property of [null], or handing [null] to a GL call
    that takes a program, raises. *)
Definition TypeError {A : Type} : completion A := Throw "TypeError".

(** The body of [render] below its guard.  [this.video.readyState] throws
    when there is no video; [getAttribLocation] and [getUniformLocation]
    throw when there is no program.  The other calls take [null] or
    report errors through [getError]; [loadVideo] creates the element with
    [crossOrigin = 'anonymous'], so its frames are origin-clean for
    [texImage2D]. *)
Definition renderBody (this : VideoProcessor) (currentTime : option R)
    : completion (list GLCall) :=
  match video this with
  | None => TypeError
  | Some video =>
      let upload :=
        if (HAVE_CURRENT_DATA <=? readyState video)%nat
        then [bindTexture (texture this); texImage2D (currentFrame video)]
        else [] in
      match shaderProgram this with
      | None => TypeError
      | Some program =>
          let vertexCount :=
            ((meshResolution this + 1) * (meshResolution this + 1))%nat in
          let arrays := fillPointArrays (controlPoints this) in
          let indexCount := (meshResolution this * meshResolution this * 6)%nat in
          Normal
            (upload ++
             [ viewport 0 0 (canvas_width this) (canvas_height this);
               clearColor 0 0 0 1;
               clear;
               useProgram program;
               bindArrayBuffer (vertexBuffer this);
               enableVertexAttribArray "a_position";
               vertexAttribPointer "a_position" 2 0;
               enableVertexAttribArray "a_texCoord";
               vertexAttribPointer "a_texCoord" 2 (vertexCount * 2 * 4);
               uniform2f "u_resolution" (IZR (canvas_width this))
                 (IZR (canvas_height this));
               uniform1f "u_time" (orZero currentTime);
               uniform1f "u_globalStrength" (settings_strength (warpSettings this));
               uniform1f "u_quality" (qualityValue (quality (warpSettings this)));
               uniform1i "u_numControlPoints"
                 (Z.of_nat (Nat.min (List.length (controlPoints this)) 16));
               uniform2fv "u_controlPoints" (points arrays);
               uniform1fv "u_controlStrengths" (strengths arrays);
               uniform1fv "u_controlRadii" (radii arrays);
               activeTexture 0;
               bindTexture (texture this);
               uniform1i "u_texture" 0;
               bindElementArrayBuffer (indexBuffer this);
               drawElements indexCount ])
      end
  end.

(** [render]: the guard
    [if (!this.isInitialized || !this.video || !this.shaderProgram) return],
    then the body. *)
Definition render (this : VideoProcessor) (currentTime : option R)
    : completion (list GLCall) :=
  if negb (isInitialized this) || isNull (video this) || isNull (shaderProgram this)
  then Normal []
  else renderBody this currentTime.

(** The GL calls of a completed method; none if it threw. *)
Definition callsOf (c : completion (list GLCall)) : list GLCall :=
  match c with Normal calls => calls | Throw _ => [] end.

(** [updateWarpPoints] replaces the point list. *)
Definition updateWarpPoints (this : VideoProcessor) (points : list ControlPoint)
    : VideoProcessor :=
  mkVideoProcessor (canvas_width this) (canvas_height this) (video this)
    (shaderProgram this) (texture this) (vertexBuffer this) (indexBuffer this)
    points (warpSettings this) (meshResolution this) (isInitialized this).

(** The displacement the web renderer applies on a tick to a vertex at
    the normalised position [p]. *)
Definition displace (this : VideoProcessor) (currentTime : option R) (p : float2) : float2 :=
  applyWarp (renderUniforms this currentTime) p.

(** [exportVideo] ends in a [throw] on every path. *)
Definition exportVideo (this : VideoProcessor) : completion unit :=
  match video this with
  | None => Throw "No video loaded"
  | Some _ => Throw "Video export not yet implemented - requires backend processing"
  end.

End WebGL.

(** ** Mesh generation on the GPU ([generateMesh] of WarpShader.metal) *)
Module MetalMesh.

Definition MESH_RESOLUTION : nat := 32.

Record MeshVertex : Type := mkMeshVertex {
  position : Q * Q;
  texCoords : Q * Q
}.

(** The two device buffers of the kernel; a location no thread has written
    reads [None]. *)
Record MeshBuffers : Type := mkMeshBuffers {
  vertices : nat -> option MeshVertex;
  indices : nat -> option nat
}.

Definition noBuffers : MeshBuffers := mkMeshBuffers (fun _ => None) (fun _ => None).

(** [buffer[i] = v] *)
Definition write {A : Type} (buffer : nat -> option A) (i : nat) (v : A)
    : nat -> option A :=
  fun j => if (j =? i)%nat then Some v else buffer j.

(** One thread of the kernel, for the grid resolution [resolution] (the
    shader fixes it to [MESH_RESOLUTION]) and the thread position [index].
    The kernel computes in 32-bit [int] and [uint]; for the resolutions
    considered below (up to 255) no value comes near [2^31], and the
    integers are taken unbounded. *)
Definition generateMeshAt (resolution : nat) (index : nat) (mem : MeshBuffers)
    : MeshBuffers :=
  if ((resolution + 1) * (resolution + 1) <=? index)%nat then mem
  else
    let x := (index mod (resolution + 1))%nat in
    let y := (index / (resolution + 1))%nat in
    let u := WebGL.gridCoord x resolution in
    let v := WebGL.gridCoord y resolution in
    let vertices' := write (vertices mem) index (mkMeshVertex (u, v) (u, v)) in
    if ((x <? resolution) && (y <? resolution))%nat then
      let quadIndex := (y * resolution + x)%nat in
      let indexBase := (quadIndex * 6)%nat in
      let topLeft := (y * (resolution + 1) + x)%nat in
      let topRight := (topLeft + 1)%nat in
      let bottomLeft := ((y + 1) * (resolution + 1) + x)%nat in
      let bottomRight := (bottomLeft + 1)%nat in
      let i0 := write (indices mem) (indexBase + 0) topLeft in
      let i1 := write i0 (indexBase + 1) bottomLeft in
      let i2 := write i1 (indexBase + 2) topRight in
      let i3 := write i2 (indexBase + 3) topRight in
      let i4 := write i3 (indexBase + 4) bottomLeft in
      let i5 := write i4 (indexBase + 5) bottomRight in
      mkMeshBuffers vertices' i5
    else mkMeshBuffers vertices' (indices mem).

Definition generateMesh : nat -> MeshBuffers -> MeshBuffers :=
  generateMeshAt MESH_RESOLUTION.

(** A dispatch of [threads] threads, positions [0 .. threads-1].  Threads
    write disjoint locations, so the order they run in is immaterial; the
    model runs them in increasing order. *)
Definition dispatch (resolution threads : nat) (mem : MeshBuffers) : MeshBuffers :=
  fold_left (fun m index => generateMeshAt resolution index m) (seq 0 threads) mem.

(** The vertex thread [index] writes, and whether it writes location [j]
    of the index buffer. *)
Definition threadVertex (resolution index : nat) : MeshVertex :=
  let u := WebGL.gridCoord (index mod (resolution + 1)) resolution in
  let v := WebGL.gridCoord (index / (resolution + 1)) resolution in
  mkMeshVertex (u, v) (u, v).

Definition threadWrites (resolution index j : nat) : bool :=
  let x := (index mod (resolution + 1))%nat in
  let y := (index / (resolution + 1))%nat in
  ((index <? (resolution + 1) * (resolution + 1))
   && (x <? resolution) && (y <? resolution)
   && (6 * (y * resolution + x) <=? j) && (j <? 6 * (y * resolution + x) + 6))%nat.

End MetalMesh.

(** ** The control point store (Swift) *)
Module Store.

Record CGPoint : Type := mkCGPoint { x : R; y : R }.
Record CGSize : Type := mkCGSize { width : R; height : R }.

Inductive PointType : Type := stretch | anchor.

(** [struct ControlPoint]; [id] stands for the [UUID] drawn at creation. *)
Record ControlPoint : Type := mkControlPoint {
  id : nat;
  position : CGPoint;
  type : PointType;
  strength : R;
  radius : R;
  isLocked : bool
}.

(** [ControlPoint(position:)] with the defaults of [init]. *)
Definition ControlPoint_init (uuid : nat) (position : CGPoint) : ControlPoint :=
  mkControlPoint uuid position stretch 1.0 0.1 false.

(** [size.equalTo(.zero)] *)
Definition equalToZero (size : CGSize) : bool :=
  if Req_dec_T (width size) 0 then
    if Req_dec_T (height size) 0 then true else false
  else false.

(** [CGPoint.fromViewCoordinates(_:in:)] *)
Definition fromViewCoordinates (point : CGPoint) (size : CGSize) : CGPoint :=
  mkCGPoint (x point / width size) (y point / height size).

(** [VideoEditorView.addControlPoint(at:)]: the new contents of
    [videoProcessor.controlPoints] and of [selectedPointId].  [uuid] is the
    identifier the new point draws. *)
Definition addControlPoint (videoViewSize : CGSize) (uuid : nat)
    (controlPoints : list ControlPoint) (selectedPointId : option nat)
    (location : CGPoint) : list ControlPoint * option nat :=
  if negb (equalToZero videoViewSize) then
    let relativeLocation :=
      mkCGPoint (Rmax 0 (Rmin 1 (x location / width videoViewSize)))
                (Rmax 0 (Rmin 1 (y location / height videoViewSize))) in
    let newPoint := ControlPoint_init uuid relativeLocation in
    (controlPoints ++ [newPoint], Some (id newPoint))
  else (controlPoints, selectedPointId).

(** [VideoProcessor.addControlPoint(at:)]: the new [controlPoints]. *)
Definition VideoProcessor_addControlPoint (videoSize : CGSize) (uuid : nat)
    (controlPoints : list ControlPoint) (position : CGPoint) : list ControlPoint :=
  let normalizedPosition := fromViewCoordinates position videoSize in
  let newPoint := ControlPoint_init uuid normalizedPosition in
  controlPoints ++ [newPoint].

(** [controlPoints.firstIndex(where: { $0.id == pointId })] *)
Fixpoint firstIndex (controlPoints : list ControlPoint) (pointId : nat) : option nat :=
  match controlPoints with
  | [] => None
  | c :: rest =>
      if (id c =? pointId)%nat then Some 0%nat
      else option_map S (firstIndex rest pointId)
  end.

(** [controlPoints[index] = f(controlPoints[index])] *)
Fixpoint modifyAt (controlPoints : list ControlPoint) (index : nat)
    (f : ControlPoint -> ControlPoint) : list ControlPoint :=
  match controlPoints, index with
  | [], _ => []
  | c :: rest, O => f c :: rest
  | c :: rest, S k => c :: modifyAt rest k f
  end.

Definition setPosition (p : CGPoint) (c : ControlPoint) : ControlPoint :=
  mkControlPoint (id c) p (type c) (strength c) (radius c) (isLocked c).
Definition setStrength (s : R) (c : ControlPoint) : ControlPoint :=
  mkControlPoint (id c) (position c) (type c) s (radius c) (isLocked c).
Definition setRadius (r : R) (c : ControlPoint) : ControlPoint :=
  mkControlPoint (id c) (position c) (type c) (strength c) r (isLocked c).

(** [VideoProcessor.updateControlPoint(_:position:strength:radius:)]: the
    new [controlPoints]. *)
Definition updateControlPoint (videoSize : CGSize) (controlPoints : list ControlPoint)
    (pointId : nat) (position : option CGPoint) (strength radius : option R)
    : list ControlPoint :=
  match firstIndex controlPoints pointId with
  | None => controlPoints
  | Some index =>
      let cps1 :=
        match position with
        | Some position =>
            modifyAt controlPoints index
              (setPosition (fromViewCoordinates position videoSize))
        | None => controlPoints
        end in
      let cps2 :=
        match strength with
        | Some strength => modifyAt cps1 index (setStrength strength)
        | None => cps1
        end in
      match radius with
      | Some radius => modifyAt cps2 index (setRadius radius)
      | None => cps2
      end
  end.

(** [VideoProcessor.removeControlPoint(_:)] *)
Definition removeControlPoint (controlPoints : list ControlPoint) (pointId : nat)
    : list ControlPoint :=
  filter (fun c => negb (id c =? pointId)%nat) controlPoints.

(** The ranges the data model states for a stored control point. *)
Definition inRange (c : ControlPoint) : Prop :=
  (0 <= x (position c) <= 1 /\ 0 <= y (position c) <= 1) /\
  0 <= strength c <= 2 /\
  0 < radius c <= 1.

Definition rangeInvariant (controlPoints : list ControlPoint) : Prop :=
  Forall inRange controlPoints.

(** [ClosedRange<Float>] and [range.contains(value)] *)
Record ClosedRange : Type := mkClosedRange { lowerBound : R; upperBound : R }.
Definition contains (range : ClosedRange) (value : R) : Prop :=
  lowerBound range <= value <= upperBound range.

(** The ranges [ControlPointRow] gives its two sliders: [0...2] for the
    strength, [0.05...0.5] for the radius. *)
Definition strengthRange : ClosedRange := mkClosedRange 0 2.
Definition radiusRange : ClosedRange := mkClosedRange 0.05 0.5.

(** [onUpdate] as [controlPointsSection] passes it to the row of [point]:
    the new [controlPoints]. *)
Definition onUpdate (controlPoints : list ControlPoint) (point updatedPoint : ControlPoint)
    : list ControlPoint :=
  match firstIndex controlPoints (id point) with
  | Some index => modifyAt controlPoints index (fun _ => updatedPoint)
  | None => controlPoints
  end.

(** The setters of the bindings the two sliders of the row of [point]
    write through; [newValue] is the value the slider delivers. *)
Definition strengthSliderSet (controlPoints : list ControlPoint) (point : ControlPoint)
    (newValue : R) : list ControlPoint :=
  onUpdate controlPoints point (setStrength newValue point).
Definition radiusSliderSet (controlPoints : list ControlPoint) (point : ControlPoint)
    (newValue : R) : list ControlPoint :=
  onUpdate controlPoints point (setRadius newValue point).

End Store.

(** ** Feeding the Metal shader

    The shader takes the control points through a buffer and their number
    through [uniforms.numControlPoints]. *)
Module MetalHost.
Import Metal.

Definition withCount (uniforms : WarpUniforms) (n : Z) : WarpUniforms :=
  mkWarpUniforms (videoSize uniforms) (globalStrength uniforms) n
    (time uniforms) (interpolationType uniforms).

Definition withInterpolation (uniforms : WarpUniforms) (interpolationType : Z)
    : WarpUniforms :=
  mkWarpUniforms (videoSize uniforms) (globalStrength uniforms)
    (numControlPoints uniforms) (time uniforms) interpolationType.

(** Modelled from the spec: the host code that fills the control point
    buffer of the Metal pipeline is not part of the repository
    ([setupMetalPipeline] is empty).  Following section 4.2, the point list
    is laid out in store order and [numControlPoints] is its length. *)
Definition displace (p : Shader.float2) (points : list ControlPoint)
    (params : WarpUniforms) : Shader.float2 :=
  applyWarp p (bufferOf points) (withCount params (Z.of_nat (List.length points))).

End MetalHost.

(** ** Settings of the web renderer *)
Module WebHost.
Import WebGL.

(** [updateSettings] with only [interpolation] changed *)
Definition withInterpolation (this : VideoProcessor) (i : Interpolation)
    : VideoProcessor :=
  mkVideoProcessor (canvas_width this) (canvas_height this) (video this)
    (shaderProgram this) (texture this) (vertexBuffer this) (indexBuffer this)
    (controlPoints this)
    (mkWarpSettings (settings_strength (warpSettings this)) i
       (preserveAspectRatio (warpSettings this))
       (realTimePreview (warpSettings this)) (quality (warpSettings this)))
    (meshResolution this) (isInitialized this).

(** The processor when its video element has become [video] (the element
    decodes frames between ticks). *)
Definition withVideo (this : VideoProcessor) (video : HTMLVideoElement)
    : VideoProcessor :=
  mkVideoProcessor (canvas_width this) (canvas_height this) (Some video)
    (shaderProgram this) (texture this) (vertexBuffer this) (indexBuffer this)
    (controlPoints this) (warpSettings this) (meshResolution this)
    (isInitialized this).

(** The settings the constructor installs. *)
Definition defaultSettings : WarpSettings :=
  mkWarpSettings 1.0 smooth false true preview.

(** An initialised processor with a loaded video, the default mesh
    resolution and the given canvas size, points and settings. *)
Definition processor (w h : Z) (v : HTMLVideoElement) (points : list ControlPoint)
    (settings : WarpSettings) : VideoProcessor :=
  mkVideoProcessor w h (Some v) (Some 1%nat) (Some 2%nat) (Some 3%nat) (Some 4%nat)
    points settings 32 true.

End WebHost.

(** ** The falloff kernels as the specification words them

    Written after the specification (section 4.2, "Apply kernel"), to be
    compared with the switch of the Metal shader and with the GLSL code. *)
Module Spec.

Inductive Kernel : Type := linear | smooth | elastic.

Definition kernel (k : Kernel) (t : R) : R :=
  match k with
  | linear => t
  | smooth => Shader.smoothstep 0 1 t
  | elastic => t * t * (3 - 2 * t)
  end.

(** The value of [interpolationType] that selects a kernel
    ([// 0 = linear, 1 = smooth, 2 = elastic]). *)
Definition interpolationTypeOf (k : Kernel) : Z :=
  match k with linear => 0 | smooth => 1 | elastic => 2 end.

(** The web setting that selects a kernel. *)
Definition interpolationOf (k : Kernel) : WebGL.Interpolation :=
  match k with
  | linear => WebGL.linear
  | smooth => WebGL.smooth
  | elastic => WebGL.elastic
  end.

(** Section 4.1: "row-major vertex indexing [index = y.(R+1) + x]", and
    for the cell [(x,y)] the triangles "([topLeft], [bottomLeft],
    [topRight]) and ([topRight], [bottomLeft], [bottomRight])", the corners
    of the cell being the grid vertices (x,y), (x+1,y), (x,y+1), (x+1,y+1). *)
Definition vertexIndex (R x y : nat) : nat := (y * (R + 1) + x)%nat.

Definition cellTriangles (R x y : nat) : list nat :=
  let topLeft := vertexIndex R x y in
  let topRight := vertexIndex R (x + 1) y in
  let bottomLeft := vertexIndex R x (y + 1) in
  let bottomRight := vertexIndex R (x + 1) (y + 1) in
  [topLeft; bottomLeft; topRight; topRight; bottomLeft; bottomRight].

(** The tuning constants of section 4.2. *)
Definition K_stretch : R := 0.1.
Definition K_anchor : R := 0.05.
Definition epsilon : R := 0.001.

(** "[t = 1 - d / c.radius] (raw linear influence)", then "apply kernel". *)
Definition influence (k : Kernel) (d radius : R) : R :=
  kernel k (1 - d / radius).

(** "[warped += normalize(offset) . c.strength . influence .
    params.globalStrength . K_stretch]" *)
Definition stretched (k : Kernel) (globalStrength : R) (warped offset : Shader.float2)
    (strength radius : R) : Shader.float2 :=
  Shader.vadd warped
    (Shader.vscale (Shader.normalize offset)
       (strength * influence k (Shader.length offset) radius * globalStrength * K_stretch)).

(** "[warped -= offset . c.strength . influence . params.globalStrength .
    K_anchor]" *)
Definition anchored (k : Kernel) (globalStrength : R) (warped offset : Shader.float2)
    (strength radius : R) : Shader.float2 :=
  Shader.vsub warped
    (Shader.vscale offset
       (strength * influence k (Shader.length offset) radius * globalStrength * K_anchor)).

End Spec.

(** ** Concrete inputs used below *)
Module Inputs.
Import Shader.

Definition origin : float2 := mkFloat2 0 0.

(** a video element that has decoded its current frame (frame 7), and one
    that has not yet *)
Definition readyVideo : WebGL.HTMLVideoElement := WebGL.mkVideo 4 7.
Definition pendingVideo : WebGL.HTMLVideoElement := WebGL.mkVideo 1 7.

Definition linearSettings : WebGL.WarpSettings :=
  WebGL.mkWarpSettings 1.0 WebGL.linear false true WebGL.preview.

(** a stretch point of radius 0.1 at (0.05, 0) *)
Definition edgePoint : WebGL.ControlPoint :=
  WebGL.mkControlPoint "point_1" 0.05 0 WebGL.stretch 1.0 0.1 false.

(** a stretch point and an anchor point of radius 0.4 at (0.1, 0) *)
Definition widePoint : WebGL.ControlPoint :=
  WebGL.mkControlPoint "point_1" 0.1 0 WebGL.stretch 1.0 0.4 false.
Definition anchorPoint : WebGL.ControlPoint :=
  WebGL.mkControlPoint "point_1" 0.1 0 WebGL.anchor 1.0 0.4 false.

(** a stored point with the defaults of [init], and a video size *)
Definition storedPoint : Store.ControlPoint :=
  Store.ControlPoint_init 1 (Store.mkCGPoint 0.5 0.5).
Definition hdSize : Store.CGSize := Store.mkCGSize 1920 1080.

(** the scenario of section 8: a Metal stretch point at (0.5, 0.5) with
    strength 1, radius 0.2, under global strength 1 and the linear kernel *)
Definition centerPoint : Metal.ControlPoint :=
  Metal.mkControlPoint (mkFloat2 0.5 0.5) 1.0 0.2 0.
Definition linearParams : Metal.WarpUniforms :=
  Metal.mkWarpUniforms (mkFloat2 1920 1080) 1.0 1 0 0.

(** a strong stretch point near the right edge, under global strength 2 *)
Definition rightPoint : Metal.ControlPoint :=
  Metal.mkControlPoint (mkFloat2 0.9 0.5) 2.0 0.5 0.
Definition strongParams : Metal.WarpUniforms :=
  Metal.mkWarpUniforms (mkFloat2 1920 1080) 2.0 1 0 0.

End Inputs.

(** ** The other stages of WarpShader.metal *)
Module MetalStages.
Import Shader.

Record float4 : Type := mkFloat4 { cx : R; cy : R; cz : R; cw : R }.

(** [struct VertexIn], [struct VertexOut] *)
Record VertexIn : Type := mkVertexIn {
  position : float2;
  texCoords : float2
}.
Record VertexOut : Type := mkVertexOut {
  out_position : float4;
  out_texCoords : float2
}.

(** [warpVertexShader] *)
Definition warpVertexShader (vin : VertexIn) (controlPoints : nat -> Metal.ControlPoint)
    (uniforms : Metal.WarpUniforms) : VertexOut :=
  let warpedPos := Metal.applyWarp (position vin) controlPoints uniforms in
  let clipSpace := vsub (vscale warpedPos 2.0) (splat 1.0) in
  let clipSpace := mkFloat2 (vx clipSpace) (vy clipSpace * -1.0) in
  mkVertexOut (mkFloat4 (vx clipSpace) (vy clipSpace) 0.0 1.0) (texCoords vin).

(** [floor] *)
Definition floor (x : R) : R := IZR (Int_part x).

(** [mix(x, y, a)] *)
Definition mix (x y a : R) : R := x + (y - x) * a.

(** [warpFragmentShader]; [sample] is the video texture seen through the
    sampler. *)
Definition warpFragmentShader (vin : VertexOut) (sample : float2 -> float4)
    (uniforms : Metal.WarpUniforms) : float4 :=
  let color := sample (out_texCoords vin) in
  if Rgt_dec (Metal.time uniforms) 0.0 then
    mkFloat4 (mix (cx color) (floor (cx color * 64.0) / 64.0) 0.1)
             (mix (cy color) (floor (cy color * 64.0) / 64.0) 0.1)
             (mix (cz color) (floor (cz color * 64.0) / 64.0) 0.1)
             (cw color)
  else color.

(** A 2-D texture: its size and its texels. *)
Record texture2d : Type := mkTexture {
  get_width : nat;
  get_height : nat;
  read : nat -> nat -> float4
}.

(** [uint(x)] of a non-negative [float]: the integer part *)
Definition to_uint (x : R) : nat := Z.to_nat (Int_part x).

(** A rounding of relative error at most [eps] on the numbers of
    magnitude at least [tiny] (below, the format underflows), that keeps
    zero. *)
Definition roundsWithin (fl : R -> R) (eps tiny : R) : Prop :=
  0 <= eps /\ fl 0 = 0
  /\ forall x, tiny <= Rabs x -> Rabs (fl x - x) <= eps * Rabs x.

(** [advancedWarpCompute] for the thread [gid = (gx, gy)]: the colour it
    writes at [gid] of the output texture, [None] when it writes nothing.
    [outWidth], [outHeight] are the dimensions of the output texture.
    The two coordinate conversions decide which texel is read, and there
    rounding matters: [fl] is the rounding of the device, what a [float]
    operation returns for the exact result, applied to the quotient and
    to the product.  [float2(gid)] and the texture sizes are integers the
    format holds exactly. *)
Definition advancedWarpCompute (fl : R -> R) (inputTexture : texture2d)
    (outWidth outHeight : nat)
    (controlPoints : nat -> Metal.ControlPoint) (uniforms : Metal.WarpUniforms)
    (gx gy : nat) : option float4 :=
  if ((outWidth <=? gx) || (outHeight <=? gy))%nat then None
  else
    let normalizedPos := mkFloat2 (fl (INR gx / INR outWidth))
                                  (fl (INR gy / INR outHeight)) in
    let sourcePos := Metal.applyWarp normalizedPos controlPoints uniforms in
    let sx := to_uint (fl (vx sourcePos * INR (get_width inputTexture))) in
    let sy := to_uint (fl (vy sourcePos * INR (get_height inputTexture))) in
    let color :=
      if ((sx <? get_width inputTexture) && (sy <? get_height inputTexture))%nat
      then read inputTexture sx sy
      else mkFloat4 0.0 0.0 0.0 0.0 in
    Some color.

(** The displacement one control point adds to the accumulator: the
    iteration started from the zero vector. *)
Definition contribution (uniforms : Metal.WarpUniforms) (position : float2)
    (point : Metal.ControlPoint) : float2 :=
  Metal.warpIteration uniforms position (splat 0) point.

Definition withGlobalStrength (uniforms : Metal.WarpUniforms) (g : R)
    : Metal.WarpUniforms :=
  Metal.mkWarpUniforms (Metal.videoSize uniforms) g (Metal.numControlPoints uniforms)
    (Metal.time uniforms) (Metal.interpolationType uniforms).

(** The sum of a list of vectors. *)
Definition vsum (l : list float2) : float2 := fold_right vadd (splat 0) l.

(** Whether the vertex [position] lies in the influence range of [point]:
    the negation of the [continue] test of [applyWarp]. *)
Definition reaches (position : float2) (point : Metal.ControlPoint) : bool :=
  let distance := length (vsub position (Metal.position point)) in
  if Rge_dec distance (Metal.radius point) then false
  else if Rlt_dec distance 0.001 then false else true.

End MetalStages.

Module MetalMeshOrder.
Import MetalMesh.

(** Two states of the buffers that read the same at every location. *)
Definition sameBuffers (m m' : MeshBuffers) : Prop :=
  forall k, vertices m k = vertices m' k /\ indices m k = indices m' k.

(** The threads of a dispatch run in the order [order]. *)
Definition dispatchIn (resolution : nat) (order : list nat) (mem : MeshBuffers)
    : MeshBuffers :=
  fold_left (fun m index => generateMeshAt resolution index m) order mem.

End MetalMeshOrder.

(** ** The rest of the web renderer: fragment shader, construction and
    teardown of [VideoProcessor] *)
Module WebStages.
Import Shader WebGL MetalStages.

(** [main] of the fragment shader: [outColor] *)
Definition fragmentMain (sample : float2 -> float4) (v_texCoord : float2)
    (u_quality : R) : float4 :=
  let color := sample v_texCoord in
  if Rlt_dec u_quality 1.0 then
    mkFloat4 (floor (cx color * 32.0) / 32.0)
             (floor (cy color * 32.0) / 32.0)
             (floor (cz color * 32.0) / 32.0)
             (cw color)
  else color.

(** What the driver answers during construction: whether the canvas has a
    WebGL 2 context, the objects the [create*] calls return ([None] for
    [null]), the compile and link status flags and the info logs. *)
Record Driver : Type := mkDriver {
  webgl2 : bool;
  vertexShader : option nat;
  vertexCompiles : bool;
  vertexLog : string;
  fragmentShader : option nat;
  fragmentCompiles : bool;
  fragmentLog : string;
  program : option nat;
  links : bool;
  programLog : string;
  newVertexBuffer : option nat;
  newIndexBuffer : option nat;
  newTexture : option nat
}.

(** [compileShader] *)
Definition compileShader (shader : option nat) (status : bool) (log : string)
    : completion nat :=
  match shader with
  | None => Throw "Failed to create shader"
  | Some shader =>
      if negb status then Throw ("Shader compilation failed: " ++ log)
      else Normal shader
  end.

(** [initializeWebGL], on the processor the constructor has set up so far *)
Definition initializeWebGL (driver : Driver) (this : VideoProcessor)
    : completion VideoProcessor :=
  match compileShader (vertexShader driver) (vertexCompiles driver) (vertexLog driver) with
  | Throw message => Throw message
  | Normal _ =>
      match compileShader (fragmentShader driver) (fragmentCompiles driver)
              (fragmentLog driver) with
      | Throw message => Throw message
      | Normal _ =>
          match program driver with
          | None => Throw "Failed to create shader program"
          | Some shaderProgram =>
              if negb (links driver)
              then Throw ("Shader program linking failed: " ++ programLog driver)
              else
                Normal
                  (mkVideoProcessor (canvas_width this) (canvas_height this)
                     (video this) (Some shaderProgram) (newTexture driver)
                     (newVertexBuffer driver) (newIndexBuffer driver)
                     (controlPoints this) (warpSettings this)
                     (meshResolution this) true)
          end
      end
  end.

(** [new VideoProcessor(canvas)] for a canvas of the given size *)
Definition construct (width height : Z) (driver : Driver) : completion VideoProcessor :=
  if negb (webgl2 driver) then Throw "WebGL 2.0 is not supported"
  else
    initializeWebGL driver
      (mkVideoProcessor width height None None None None None []
         (mkWarpSettings 1.0 smooth false true preview) 32 false).

(** The calls [destroy] makes. *)
Inductive TeardownCall : Type :=
| pauseVideo
| deleteTexture (texture : nat)
| deleteBuffer (buffer : nat)
| deleteProgram (program : nat).

(** [destroy]: the processor afterwards and the calls made *)
Definition destroy (this : VideoProcessor) : VideoProcessor * list TeardownCall :=
  let calls :=
    (match video this with Some _ => [pauseVideo] | None => [] end)
    ++ (match texture this with Some t => [deleteTexture t] | None => [] end)
    ++ (match WebGL.vertexBuffer this with Some b => [deleteBuffer b] | None => [] end)
    ++ (match WebGL.indexBuffer this with Some b => [deleteBuffer b] | None => [] end)
    ++ (match shaderProgram this with Some p => [deleteProgram p] | None => [] end) in
  (mkVideoProcessor (canvas_width this) (canvas_height this) None None None None None
     (controlPoints this) (warpSettings this) (meshResolution this) false,
   calls).

(** The callback [render] passes to [forEach]. *)
Definition fill (arrays : PointArrays) (point : ControlPoint) (i : nat) : PointArrays :=
  mkPointArrays
    (store (store (points arrays) (i * 2) (x point)) (i * 2 + 1) (y point))
    (store (strengths arrays) i (strength point))
    (store (radii arrays) i (radius point)).

(** The data [createMesh] puts in the vertex buffer:
    [new Float32Array([...vertices, ...texCoords])] *)
Definition vertexBufferData (m : Mesh) : list Q :=
  WebGL.vertices m ++ WebGL.texCoords m.

End WebStages.

(** ** The web editor (component [VideoEditor]): the pointer and keyboard
    handlers that edit the control point list *)
Module WebEditor.
Import WebGL.

(** [getBoundingClientRect()] of the canvas *)
Record DOMRect : Type := mkDOMRect {
  left : R;
  top : R;
  width : R;
  height : R
}.

Record Size : Type := mkSize { size_width : R; size_height : R }.

(** The state the handlers read and write: the [controlPoints] prop (which
    [onControlPointsChange] replaces), the component state, and the
    rectangle of the canvas, [None] while [canvasRef.current] is null. *)
Record Editor : Type := mkEditor {
  controlPoints : list ControlPoint;
  selectedPointId : option string;
  isDragging : bool;
  canvasSize : Size;
  canvasRect : option DOMRect
}.

(** [screenToVideoCoords].  For a rectangle with a side of zero the
    quotients are not numbers in JavaScript; the properties below assume
    [measured]. *)
Definition screenToVideoCoords (e : Editor) (clientX clientY : R) : R * R :=
  match canvasRect e with
  | None => (0, 0)
  | Some rect =>
      let x := (clientX - left rect) / width rect in
      let y := (clientY - top rect) / height rect in
      (Rmax 0 (Rmin 1 x), Rmax 0 (Rmin 1 y))
  end.

(** The canvas, when it is mounted, has a rectangle of positive sides. *)
Definition measured (e : Editor) : Prop :=
  forall rect, canvasRect e = Some rect -> 0 < width rect /\ 0 < height rect.

(** [videoToScreenCoords] *)
Definition videoToScreenCoords (e : Editor) (x y : R) : R * R :=
  (x * size_width (canvasSize e), y * size_height (canvasSize e)).

(** The test of the two [find] calls: the point lies closer to [coords]
    than [clickRadius = 20 / Math.min(width, height)].  For a canvas side
    of zero the radius is infinite and every point passes. *)
Definition nearby (e : Editor) (coords : R * R) (point : ControlPoint) : bool :=
  let side := Rmin (size_width (canvasSize e)) (size_height (canvasSize e)) in
  let distance := sqrt ((x point - fst coords) * (x point - fst coords)
                        + (y point - snd coords) * (y point - snd coords)) in
  if Req_dec_T side 0 then true
  else if Rlt_dec distance (20 / side) then true else false.

(** [!selectedPointId]: [null] and the empty string are falsy *)
Definition noSelection (s : option string) : bool :=
  match s with
  | None => true
  | Some id => String.eqb id EmptyString
  end.

Definition withPoints (e : Editor) (points : list ControlPoint) : Editor :=
  mkEditor points (selectedPointId e) (isDragging e) (canvasSize e) (canvasRect e).
Definition withSelection (e : Editor) (s : option string) : Editor :=
  mkEditor (controlPoints e) s (isDragging e) (canvasSize e) (canvasRect e).
Definition withDragging (e : Editor) (d : bool) : Editor :=
  mkEditor (controlPoints e) (selectedPointId e) d (canvasSize e) (canvasRect e).

(** [handleCanvasClick]; [now] stands for the string [`point_${Date.now()}`] *)
Definition handleCanvasClick (e : Editor) (now : string) (clientX clientY : R) : Editor :=
  if isDragging e then e
  else
    let coords := screenToVideoCoords e clientX clientY in
    match find (nearby e coords) (controlPoints e) with
    | Some nearbyPoint => withSelection e (Some (id nearbyPoint))
    | None =>
        let newPoint :=
          mkControlPoint now (fst coords) (snd coords) stretch 1.0 0.1 false in
        withSelection (withPoints e (controlPoints e ++ [newPoint])) (Some (id newPoint))
    end.

(** [handleMouseMove] *)
Definition handleMouseMove (e : Editor) (clientX clientY : R) : Editor :=
  if negb (isDragging e) || noSelection (selectedPointId e) then e
  else
    let coords := screenToVideoCoords e clientX clientY in
    let selected := match selectedPointId e with Some s => s | None => EmptyString end in
    withPoints e
      (map (fun point =>
              if String.eqb (id point) selected && negb (locked point)
              then mkControlPoint (id point) (fst coords) (snd coords) (type point)
                     (strength point) (radius point) (locked point)
              else point)
           (controlPoints e)).

(** [handleMouseDown] *)
Definition handleMouseDown (e : Editor) (clientX clientY : R) : Editor :=
  let coords := screenToVideoCoords e clientX clientY in
  match find (nearby e coords) (controlPoints e) with
  | Some clickedPoint =>
      if negb (locked clickedPoint)
      then withDragging (withSelection e (Some (id clickedPoint))) true
      else e
  | None => e
  end.

(** [handleMouseUp] *)
Definition handleMouseUp (e : Editor) : Editor := withDragging e false.

(** The key handler, for [Delete] and [Backspace] *)
Definition handleDeleteKey (e : Editor) : Editor :=
  if noSelection (selectedPointId e) then e
  else
    let selected := match selectedPointId e with Some s => s | None => EmptyString end in
    withSelection
      (withPoints e (filter (fun point => negb (String.eqb (id point) selected))
                       (controlPoints e)))
      None.

(** The key handler, for [Escape] *)
Definition handleEscapeKey (e : Editor) : Editor := withSelection e None.


(** The ranges [types/index.ts] documents for a control point. *)
Definition inRange (c : ControlPoint) : Prop :=
  (0 <= x c <= 1 /\ 0 <= y c <= 1) /\ 0 <= strength c <= 2 /\ 0 <= radius c <= 1.

End WebEditor.

(** ** The rest of the Swift model: the [CGPoint] and [Array] extensions
    and the drag gesture of [ControlPointView] *)
Module SwiftModel.
Import Store.

(** [CGPoint.toViewCoordinates(in:)] *)
Definition toViewCoordinates (point : CGPoint) (size : CGSize) : CGPoint :=
  mkCGPoint (x point * width size) (y point * height size).

(** [CGPoint.distance(to:)] *)
Definition distance (point other : CGPoint) : R :=
  let dx := x point - x other in
  let dy := y point - y other in
  sqrt (dx * dx + dy * dy).

(** [Sequence.min(by:)]: the first element no later element is smaller
    than *)
Fixpoint minBy {A : Type} (less : A -> A -> bool) (result : A) (rest : list A) : A :=
  match rest with
  | [] => result
  | e :: rest' => minBy less (if less e result then e else result) rest'
  end.

Definition min_by {A : Type} (less : A -> A -> bool) (l : list A) : option A :=
  match l with
  | [] => None
  | first :: rest => Some (minBy less first rest)
  end.

Definition Rleb (a b : R) : bool := if Rle_dec a b then true else false.
Definition Rltb (a b : R) : bool := if Rlt_dec a b then true else false.

(** [Array<ControlPoint>.nearest(to:within:)] *)
Definition nearest (points : list ControlPoint) (position : CGPoint) (threshold : R)
    : option ControlPoint :=
  min_by (fun a b => Rltb (distance (Store.position a) position)
                          (distance (Store.position b) position))
    (filter (fun c => Rleb (distance (Store.position c) position) threshold) points).

(** [removeUnlocked()]: the new contents of the array *)
Definition removeUnlocked (points : list ControlPoint) : list ControlPoint :=
  filter (fun c => negb (isLocked c)) points.

Definition isStretch (c : ControlPoint) : bool :=
  match type c with stretch => true | anchor => false end.
Definition isAnchor (c : ControlPoint) : bool :=
  match type c with anchor => true | stretch => false end.

(** [stretchPoints], [anchorPoints] *)
Definition stretchPoints (points : list ControlPoint) : list ControlPoint :=
  filter isStretch points.
Definition anchorPoints (points : list ControlPoint) : list ControlPoint :=
  filter isAnchor points.

(** The end of the drag gesture of [ControlPointView]: the position handed
    to [onPositionChange].  [videoSize] is the size the view was given;
    [translation] is [value.translation], of which the handler reads [x]
    and [y]. *)
Definition dragEnded (videoSize : CGSize) (point : ControlPoint) (translation : CGPoint)
    : CGPoint :=
  let screenPosition := toViewCoordinates (position point) videoSize in
  let newPosition := mkCGPoint (x screenPosition + x translation)
                               (y screenPosition + y translation) in
  mkCGPoint (Rmax 0 (Rmin (width videoSize) (x newPosition)))
            (Rmax 0 (Rmin (height videoSize) (y newPosition))).

(** [onPositionChange] as [VideoEditorView] passes it:
    [videoProcessor.updateControlPoint(point.id, position: newPosition)] *)
Definition onPositionChange (processorVideoSize : CGSize)
    (controlPoints : list ControlPoint) (point : ControlPoint) (newPosition : CGPoint)
    : list ControlPoint :=
  updateControlPoint processorVideoSize controlPoints (id point) (Some newPosition)
    None None.

End SwiftModel.

(** * Properties *)

(** ** Built-ins *)
Section ShaderFacts.
Import Shader.

Lemma clamp_bounds (v lo hi : R) : lo <= hi -> lo <= clamp v lo hi <= hi.
Proof.
  intros Hle. unfold clamp, Rmin, Rmax.
  destruct (Rle_dec v lo); destruct (Rle_dec _ hi); lra.
Qed.

Lemma clamp_inside (v lo hi : R) : lo <= v <= hi -> clamp v lo hi = v.
Proof.
  intros [Hlo Hhi]. unfold clamp, Rmin, Rmax.
  destruct (Rle_dec v lo); destruct (Rle_dec _ hi); lra.
Qed.

Lemma clamp_above (v lo hi : R) : lo <= hi -> hi <= v -> clamp v lo hi = hi.
Proof.
  intros Hle Hv. unfold clamp, Rmin, Rmax.
  destruct (Rle_dec v lo); destruct (Rle_dec _ hi); lra.
Qed.

Lemma clamp2_in_unit_square (v : float2) :
  inUnitSquare (clamp2 v (splat 0.0) (splat 1.0)).
Proof.
  unfold inUnitSquare, clamp2, splat; simpl.
  pose proof (clamp_bounds (vx v) 0.0 1.0 ltac:(lra)).
  pose proof (clamp_bounds (vy v) 0.0 1.0 ltac:(lra)).
  lra.
Qed.

Lemma clamp2_inside (v : float2) :
  inUnitSquare v -> clamp2 v (splat 0.0) (splat 1.0) = v.
Proof.
  intros [Hx Hy]. destruct v as [a b]; simpl in *.
  unfold clamp2, splat; simpl.
  rewrite !clamp_inside by lra. reflexivity.
Qed.

Lemma float2_eq (a b : float2) : vx a = vx b -> vy a = vy b -> a = b.
Proof. destruct a, b; simpl; intros -> ->; reflexivity. Qed.

Lemma dot_self_nonneg (v : float2) : 0 <= dot v v.
Proof. unfold dot. nra. Qed.

Lemma length_nonneg (v : float2) : 0 <= length v.
Proof. apply sqrt_pos. Qed.

Lemma length_sqr (v : float2) : length v * length v = dot v v.
Proof. unfold length. apply sqrt_sqrt, dot_self_nonneg. Qed.

Lemma length_vscale (v : float2) (s : R) : length (vscale v s) = Rabs s * length v.
Proof.
  unfold length.
  replace (dot (vscale v s) (vscale v s)) with (Rsqr s * dot v v)
    by (unfold dot, vscale, Rsqr; simpl; ring).
  rewrite sqrt_mult_alt by apply Rle_0_sqr.
  rewrite sqrt_Rsqr_abs. reflexivity.
Qed.

Lemma length_normalize (v : float2) : 0 < length v -> length (normalize v) = 1.
Proof.
  intros Hpos. unfold normalize. rewrite length_vscale.
  rewrite Rabs_right.
  - field. lra.
  - left. apply Rinv_0_lt_compat, Hpos.
Qed.

(** [length] of a vector along the first axis *)
Lemma length_axis (a : R) : length (mkFloat2 a 0) = Rabs a.
Proof.
  unfold length, dot; simpl.
  replace (a * a + 0 * 0) with (Rsqr a) by (unfold Rsqr; ring).
  apply sqrt_Rsqr_abs.
Qed.

(** On [0,1] the built-in [smoothstep(0,1,.)] is the cubic [t*t*(3-2t)]. *)
Lemma smoothstep_unit (t : R) :
  0 <= t <= 1 -> smoothstep 0.0 1.0 t = t * t * (3.0 - 2.0 * t).
Proof.
  intros Ht. unfold smoothstep.
  replace ((t - 0.0) / (1.0 - 0.0)) with t.
  - rewrite clamp_inside by lra. lra.
  - unfold Rdiv. replace (1.0 - 0.0) with 1 by lra. rewrite Rinv_1. lra.
Qed.

Lemma smoothstep_unit' (t : R) :
  0 <= t <= 1 -> smoothstep 0 1 t = t * t * (3 - 2 * t).
Proof.
  intros Ht. unfold smoothstep.
  replace ((t - 0) / (1 - 0)) with t.
  - rewrite clamp_inside by lra. reflexivity.
  - unfold Rdiv. replace (1 - 0) with 1 by lra. rewrite Rinv_1. lra.
Qed.

(** The cubic is monotone on [0,1]. *)
Lemma cubic_monotone (a b : R) :
  0 <= a -> a <= b -> b <= 1 -> a * a * (3 - 2 * a) <= b * b * (3 - 2 * b).
Proof.
  intros Ha Hab Hb.
  assert (Haa : a * a <= a) by nra.
  assert (Hbb : b * b <= b) by nra.
  assert (Hab1 : a * b <= a) by nra.
  assert (Hab2 : a * b <= b) by nra.
  assert (Hq : 0 <= 3 * (a + b) - 2 * (a * a + a * b + b * b)) by nra.
  assert (Hd : 0 <= b - a) by lra.
  pose proof (Rmult_le_pos _ _ Hd Hq) as Hprod.
  replace (b * b * (3 - 2 * b)) with
    (a * a * (3 - 2 * a) + (b - a) * (3 * (a + b) - 2 * (a * a + a * b + b * b)))
    by ring.
  lra.
Qed.

Lemma cubic_nonneg (a : R) : 0 <= a <= 1 -> 0 <= a * a * (3 - 2 * a).
Proof. intros [H0 H1]. apply Rmult_le_pos; nra. Qed.

End ShaderFacts.

(** ** The Metal evaluator *)
Section MetalFacts.
Import Shader Metal MetalHost.

(** The loop test fails from index 16 on, so 16 iterations are all the
    loop ever runs: more fuel changes nothing. *)
Lemma warpLoop_fuel u buf p (fuel k i : nat) (w : float2) :
  (16 <= fuel + i)%nat ->
  warpLoop u buf p (fuel + k) i w = warpLoop u buf p fuel i w.
Proof.
  revert i w. induction fuel as [|fuel IH]; intros i w Hle.
  - simpl in *. destruct k as [|k]; [reflexivity|].
    simpl. replace (Z.of_nat i <? 16)%Z with false.
    + rewrite andb_false_r. reflexivity.
    + symmetry. apply Z.ltb_ge. lia.
  - simpl. destruct ((Z.of_nat i <? numControlPoints u) && (Z.of_nat i <? 16))%Z.
    + apply IH. lia.
    + reflexivity.
Qed.

Lemma warpAccumulate_fuel p buf u (k : nat) :
  warpLoop u buf p (16 + k) 0 p = warpAccumulate p buf u.
Proof. unfold warpAccumulate. apply warpLoop_fuel. lia. Qed.

(** An iteration reads the uniforms only through [globalStrength] and
    [interpolationType]. *)
Lemma warpIteration_uniforms u u' p w c :
  globalStrength u = globalStrength u' ->
  interpolationType u = interpolationType u' ->
  warpIteration u p w c = warpIteration u' p w c.
Proof. intros Hg Hi. unfold warpIteration. rewrite Hg, Hi. reflexivity. Qed.

(** The loop reads the buffer below index 16 only, and the count only up
    to 16. *)
Lemma warpLoop_cap u u' buf buf' p (fuel i : nat) (w : float2) :
  globalStrength u = globalStrength u' ->
  interpolationType u = interpolationType u' ->
  Z.min (numControlPoints u) 16 = Z.min (numControlPoints u') 16 ->
  (forall j, (j < 16)%nat -> buf j = buf' j) ->
  warpLoop u buf p fuel i w = warpLoop u' buf' p fuel i w.
Proof.
  intros Hg Hi Hn Hbuf. revert i w.
  induction fuel as [|fuel IH]; intros i w; simpl; [reflexivity|].
  assert (Htest : ((Z.of_nat i <? numControlPoints u) && (Z.of_nat i <? 16))%Z
                = ((Z.of_nat i <? numControlPoints u') && (Z.of_nat i <? 16))%Z).
  { destruct (Z.ltb_spec (Z.of_nat i) 16) as [H16|H16];
      [|rewrite !andb_false_r; reflexivity].
    rewrite !andb_true_r.
    destruct (Z.ltb_spec (Z.of_nat i) (numControlPoints u));
      destruct (Z.ltb_spec (Z.of_nat i) (numControlPoints u')); try reflexivity; lia. }
  rewrite <- Htest.
  destruct ((Z.of_nat i <? numControlPoints u) && (Z.of_nat i <? 16))%Z eqn:Hrun;
    [|reflexivity].
  apply andb_prop in Hrun as [_ H16]. apply Z.ltb_lt in H16.
  rewrite (Hbuf i) by lia.
  rewrite (warpIteration_uniforms u u') by assumption.
  apply IH.
Qed.

Lemma applyWarp_cap u u' buf buf' p :
  globalStrength u = globalStrength u' ->
  interpolationType u = interpolationType u' ->
  Z.min (numControlPoints u) 16 = Z.min (numControlPoints u') 16 ->
  (forall j, (j < 16)%nat -> buf j = buf' j) ->
  applyWarp p buf u = applyWarp p buf' u'.
Proof.
  intros. unfold applyWarp, warpAccumulate.
  rewrite (warpLoop_cap u u' buf buf') by assumption. reflexivity.
Qed.

Lemma bufferOf_firstn (l l' : list ControlPoint) (n j : nat) :
  firstn n l = firstn n l' -> (j < n)%nat -> bufferOf l j = bufferOf l' j.
Proof.
  intros Heq Hj. unfold bufferOf.
  rewrite <- (firstn_skipn n l) at 1. rewrite <- (firstn_skipn n l') at 1.
  rewrite Heq.
  destruct (Nat.lt_ge_cases j (List.length (firstn n l'))) as [Hin|Hout].
  - rewrite !app_nth1 by assumption. reflexivity.
  - assert (Hl' : List.length l' = List.length (firstn n l')).
    { rewrite length_firstn in *. lia. }
    assert (Hl : List.length l = List.length (firstn n l)).
    { pose proof (f_equal (@List.length _) Heq) as Hlen.
      rewrite !length_firstn in *. lia. }
    rewrite (nth_overflow (firstn n l' ++ skipn n l)).
    + rewrite nth_overflow; [reflexivity|].
      rewrite firstn_skipn. lia.
    + rewrite <- Heq, firstn_skipn. rewrite Heq in Hl. lia.
Qed.

Lemma displace_cap p (l l' : list ControlPoint) u :
  firstn 16 l = firstn 16 l' -> displace p l u = displace p l' u.
Proof.
  intros Heq. unfold displace. apply applyWarp_cap; try reflexivity.
  - simpl. pose proof (f_equal (@List.length _) Heq) as Hlen.
    rewrite !length_firstn in Hlen. lia.
  - intros j Hj. apply (bufferOf_firstn l l' 16); assumption.
Qed.

(** No iteration runs when the count is not positive. *)
Lemma warpAccumulate_no_points p buf u :
  (numControlPoints u <= 0)%Z -> warpAccumulate p buf u = p.
Proof.
  intros Hn. unfold warpAccumulate. simpl.
  replace (0 <? numControlPoints u)%Z with false; [reflexivity|].
  symmetry. apply Z.ltb_ge. exact Hn.
Qed.

Lemma applyWarp_in_unit_square p buf u : inUnitSquare (applyWarp p buf u).
Proof. unfold applyWarp. apply clamp2_in_unit_square. Qed.

End MetalFacts.

(** *** One iteration, case by case *)
Section MetalIteration.
Import Shader Metal MetalHost.

Variables (uniforms : WarpUniforms) (p w : float2) (c : ControlPoint).

Let offset : float2 := vsub p (position c).
Let distance : R := length offset.

Lemma warpIteration_skip :
  distance >= radius c \/ distance < 0.001 -> warpIteration uniforms p w c = w.
Proof.
  intros Hskip. unfold warpIteration. fold offset. fold distance.
  destruct (Rge_dec distance (radius c)); [reflexivity|].
  destruct (Rlt_dec distance 0.001); [reflexivity|]. lra.
Qed.

Lemma warpIteration_stretch :
  type c = 0%Z -> 0.001 <= distance -> distance < radius c ->
  warpIteration uniforms p w c =
  vadd w (vscale (vscale (normalize offset)
                    (strength c
                     * applyInterpolation (interpolationType uniforms)
                         (1.0 - distance / radius c)
                     * globalStrength uniforms))
            0.1).
Proof.
  intros Hty Hlo Hhi. unfold warpIteration. fold offset. fold distance.
  destruct (Rge_dec distance (radius c)); [lra|].
  destruct (Rlt_dec distance 0.001); [lra|].
  rewrite Hty. reflexivity.
Qed.

Lemma warpIteration_anchor :
  type c <> 0%Z -> 0.001 <= distance -> distance < radius c ->
  warpIteration uniforms p w c =
  vsub w (vscale (vscale offset
                    (strength c
                     * applyInterpolation (interpolationType uniforms)
                         (1.0 - distance / radius c)
                     * globalStrength uniforms))
            0.05).
Proof.
  intros Hty Hlo Hhi. unfold warpIteration. fold offset. fold distance.
  destruct (Rge_dec distance (radius c)); [lra|].
  destruct (Rlt_dec distance 0.001); [lra|].
  apply Z.eqb_neq in Hty. rewrite Hty. reflexivity.
Qed.

(** Inside the influence range the raw linear influence lies strictly
    between 0 and 1. *)
Lemma influence_range :
  0.001 <= distance -> distance < radius c ->
  0 < 1.0 - distance / radius c < 1.
Proof.
  intros Hlo Hhi.
  assert (Hr : 0 < radius c) by lra.
  assert (Hd : 0 < distance) by lra.
  assert (Hq : 0 < distance / radius c) by (apply Rdiv_lt_0_compat; assumption).
  assert (Hq1 : distance / radius c < 1).
  { apply (Rmult_lt_reg_r (radius c)); [assumption|].
    unfold Rdiv. rewrite Rmult_assoc, Rinv_l by lra. lra. }
  lra.
Qed.

End MetalIteration.

(** *** The interpolation switch *)
Section MetalKernels.
Import Shader Metal MetalHost.

Lemma applyInterpolation_smooth_elastic (t : R) :
  0 <= t <= 1 -> applyInterpolation 1 t = applyInterpolation 2 t.
Proof. intros Ht. simpl. apply smoothstep_unit, Ht. Qed.

Lemma applyInterpolation_cases (k : Z) (t : R) :
  0 <= t <= 1 ->
  applyInterpolation k t = t \/ applyInterpolation k t = t * t * (3 - 2 * t).
Proof.
  intros Ht.
  destruct k as [|q|q]; simpl; auto.
  destruct q as [q|q|]; simpl; auto.
  - destruct q as [q|q|]; simpl; auto. right. lra.
  - right. rewrite smoothstep_unit by assumption. lra.
Qed.

Lemma applyInterpolation_monotone (k : Z) (a b : R) :
  0 <= a -> a <= b -> b <= 1 ->
  applyInterpolation k a <= applyInterpolation k b.
Proof.
  intros Ha Hab Hb.
  pose proof (cubic_monotone a b Ha Hab Hb) as Hcubic.
  destruct k as [|q|q]; simpl; try lra.
  destruct q as [q|q|]; simpl; try lra.
  - destruct q as [q|q|]; simpl; lra.
  - rewrite !smoothstep_unit by lra. lra.
Qed.

Lemma applyInterpolation_nonneg (k : Z) (a : R) :
  0 <= a <= 1 -> 0 <= applyInterpolation k a.
Proof.
  intros Ha. pose proof (cubic_nonneg a Ha) as Hcubic.
  destruct (applyInterpolation_cases k a Ha) as [-> | ->]; lra.
Qed.

Lemma warpIteration_smooth_elastic u p w c :
  warpIteration (withInterpolation u 1) p w c
  = warpIteration (withInterpolation u 2) p w c.
Proof.
  unfold warpIteration.
  destruct (Rge_dec _ _) as [|Hhi]; [reflexivity|].
  destruct (Rlt_dec _ _) as [|Hlo]; [reflexivity|].
  cbn [interpolationType globalStrength withInterpolation].
  rewrite applyInterpolation_smooth_elastic; [reflexivity|].
  pose proof (influence_range p c) as Hrange. cbv zeta in Hrange.
  lra.
Qed.

(** Two settings under which every iteration agrees run the same loop. *)
Lemma warpLoop_iteration_ext u u' buf p (fuel i : nat) (w : float2) :
  numControlPoints u = numControlPoints u' ->
  (forall w' c', warpIteration u p w' c' = warpIteration u' p w' c') ->
  warpLoop u buf p fuel i w = warpLoop u' buf p fuel i w.
Proof.
  intros Hn Hit. revert i w.
  induction fuel as [|fuel IH]; intros i w; simpl; [reflexivity|].
  rewrite <- Hn. destruct (_ && _)%bool; [|reflexivity].
  rewrite Hit. apply IH.
Qed.

Lemma applyWarp_smooth_elastic p buf u :
  applyWarp p buf (withInterpolation u 1) = applyWarp p buf (withInterpolation u 2).
Proof.
  unfold applyWarp, warpAccumulate.
  rewrite (warpLoop_iteration_ext (withInterpolation u 1) (withInterpolation u 2));
    [reflexivity | reflexivity |].
  intros w' c'. apply warpIteration_smooth_elastic.
Qed.

End MetalKernels.

(** ** The web evaluator *)
Section WebFacts.
Import Shader WebGL WebHost.

(** [render] hands the shader the first 16 points and nothing else. *)
Lemma renderUniforms_cap this t (pts pts' : list ControlPoint) :
  firstn 16 pts = firstn 16 pts' ->
  renderUniforms (updateWarpPoints this pts) t
  = renderUniforms (updateWarpPoints this pts') t.
Proof.
  intros Heq. unfold renderUniforms, fillPointArrays, slice0.
  cbn [controlPoints updateWarpPoints canvas_width canvas_height warpSettings].
  rewrite Heq.
  replace (Nat.min (List.length pts) 16) with (Nat.min (List.length pts') 16);
    [reflexivity|].
  pose proof (f_equal (@List.length _) Heq) as Hlen.
  rewrite !length_firstn in Hlen. lia.
Qed.

(** The interpolation setting never reaches the shader. *)
Lemma renderUniforms_interpolation this t (i : Interpolation) :
  renderUniforms (withInterpolation this i) t = renderUniforms this t.
Proof. reflexivity. Qed.

Lemma web_warpLoop_fuel u p (fuel k i : nat) (w : float2) :
  (16 <= fuel + i)%nat ->
  WebGL.warpLoop u p (fuel + k) i w = WebGL.warpLoop u p fuel i w.
Proof.
  revert i w. induction fuel as [|fuel IH]; intros i w Hle.
  - simpl in *. destruct k as [|k]; [reflexivity|].
    simpl. replace (Z.of_nat i <? 16)%Z with false.
    + rewrite andb_false_r. reflexivity.
    + symmetry. apply Z.ltb_ge. lia.
  - simpl. destruct ((Z.of_nat i <? u_numControlPoints u) && (Z.of_nat i <? 16))%Z.
    + apply IH. lia.
    + reflexivity.
Qed.

Lemma web_displace_no_points this t p :
  WebGL.displace (updateWarpPoints this []) t p = p.
Proof. reflexivity. Qed.

End WebFacts.

(** *** One iteration of the web shader *)
Section WebIteration.
Import Shader WebGL WebHost.

Lemma length_eval (a b d : R) :
  0 <= d -> a * a + b * b = d * d -> length (mkFloat2 a b) = d.
Proof.
  intros Hd Heq. unfold length, dot; simpl. rewrite Heq. apply sqrt_square, Hd.
Qed.

Lemma web_warpIteration_in_range u p w (i : nat) :
  0 < length (vsub p (u_controlPoints u i)) ->
  length (vsub p (u_controlPoints u i)) < u_controlRadii u i ->
  WebGL.warpIteration u p w i =
  vadd w (vscale (vscale (normalize (vsub p (u_controlPoints u i)))
                    (u_controlStrengths u i
                     * smoothstep 0.0 1.0
                         (1.0 - length (vsub p (u_controlPoints u i)) / u_controlRadii u i)
                     * u_globalStrength u))
            0.1).
Proof.
  intros Hlo Hhi. unfold WebGL.warpIteration.
  destruct (Rlt_dec _ _); [|lra].
  destruct (Rgt_dec _ _) as [|Hn]; [reflexivity|].
  exfalso. apply Hn. unfold Rgt. lra.
Qed.

Lemma web_warpIteration_skip u p w (i : nat) :
  length (vsub p (u_controlPoints u i)) >= u_controlRadii u i
  \/ length (vsub p (u_controlPoints u i)) <= 0 ->
  WebGL.warpIteration u p w i = w.
Proof.
  intros Hskip. unfold WebGL.warpIteration.
  destruct (Rlt_dec _ _); [|reflexivity].
  destruct (Rgt_dec _ _) as [Hgt|]; [|reflexivity].
  unfold Rgt in Hgt. lra.
Qed.

(** With one stored point the loop runs its body once, at index 0, on the
    uniforms [render] derives from that point. *)
Lemma web_displace_single this t (c : ControlPoint) p :
  WebGL.displace (updateWarpPoints this [c]) t p
  = WebGL.warpIteration (renderUniforms (updateWarpPoints this [c]) t) p p 0.
Proof. reflexivity. Qed.

Lemma renderUniforms_single this t (c : ControlPoint) :
  let u := renderUniforms (updateWarpPoints this [c]) t in
  u_controlPoints u 0%nat = mkFloat2 (x c) (y c)
  /\ u_controlStrengths u 0%nat = strength c
  /\ u_controlRadii u 0%nat = radius c
  /\ u_globalStrength u = settings_strength (warpSettings this).
Proof. repeat split. Qed.

End WebIteration.

(** *** A single point seen by the web shader *)
Section WebSinglePoint.
Import Shader WebGL WebHost Inputs.

Lemma web_displace_single_in_range this t (c : ControlPoint) p :
  0 < length (vsub p (mkFloat2 (x c) (y c))) ->
  length (vsub p (mkFloat2 (x c) (y c))) < radius c ->
  WebGL.displace (updateWarpPoints this [c]) t p =
  vadd p (vscale (vscale (normalize (vsub p (mkFloat2 (x c) (y c))))
                    (strength c
                     * smoothstep 0.0 1.0
                         (1.0 - length (vsub p (mkFloat2 (x c) (y c))) / radius c)
                     * settings_strength (warpSettings this)))
            0.1).
Proof.
  intros Hlo Hhi. rewrite web_displace_single.
  exact (web_warpIteration_in_range
           (renderUniforms (updateWarpPoints this [c]) t) p p 0 Hlo Hhi).
Qed.

Lemma web_displace_single_skip this t (c : ControlPoint) p :
  length (vsub p (mkFloat2 (x c) (y c))) >= radius c
  \/ length (vsub p (mkFloat2 (x c) (y c))) <= 0 ->
  WebGL.displace (updateWarpPoints this [c]) t p = p.
Proof.
  intros Hskip. rewrite web_displace_single.
  exact (web_warpIteration_skip
           (renderUniforms (updateWarpPoints this [c]) t) p p 0 Hskip).
Qed.

(** The point of radius 0.4 at distance 0.1: the shader moves the origin
    to (-0.084375, 0), whatever the point's type and the interpolation
    setting. *)
Lemma web_displace_wide_point (c : ControlPoint) (settings : WarpSettings) :
  x c = 0.1 -> y c = 0 -> strength c = 1.0 -> radius c = 0.4 ->
  settings_strength settings = 1.0 ->
  WebGL.displace (processor 300 150 readyVideo [c] settings) None origin
  = mkFloat2 (-0.084375) 0.
Proof.
  intros Hx Hy Hs Hr Hg.
  change (processor 300 150 readyVideo [c] settings)
    with (updateWarpPoints (processor 300 150 readyVideo [] settings) [c]).
  assert (Hlen : length (vsub origin (mkFloat2 (x c) (y c))) = 0.1).
  { rewrite Hx, Hy. apply length_eval; simpl; lra. }
  rewrite web_displace_single_in_range.
  2: { rewrite Hlen. lra. }
  2: { rewrite Hlen, Hr. lra. }
  unfold normalize. rewrite Hlen, Hs, Hr, Hx, Hy.
  cbn [settings_strength warpSettings processor]. rewrite Hg.
  rewrite smoothstep_unit by lra.
  apply float2_eq; simpl; lra.
Qed.

(** The mesh vertex (0, 0) reaches [applyWarp] as the position (0, 0),
    whatever the size of the canvas. *)
Lemma first_vertex_normalized this t :
  vdiv origin (u_resolution (renderUniforms this t)) = origin.
Proof. apply float2_eq; simpl; unfold Rdiv; ring. Qed.

End WebSinglePoint.

(** *** The Metal switch and the kernels of the specification *)
Section MetalRefinesSpec.
Import Shader Metal MetalHost.

Lemma smoothstep_literals (t : R) : smoothstep 0.0 1.0 t = smoothstep 0 1 t.
Proof.
  replace 0.0 with 0 by lra. replace 1.0 with 1 by lra. reflexivity.
Qed.

Lemma applyInterpolation_kernel (k : Spec.Kernel) (t : R) :
  applyInterpolation (Spec.interpolationTypeOf k) t = Spec.kernel k t.
Proof.
  destruct k; simpl.
  - reflexivity.
  - apply smoothstep_literals.
  - lra.
Qed.

(** On the Metal shader, inside the influence range, the weight
    the iteration applies is the kernel the specification names, for a
    stretch point and for an anchor point. *)
Lemma metal_stretch_refines_spec (k : Spec.Kernel) u p w c :
  interpolationType u = Spec.interpolationTypeOf k ->
  type c = 0%Z ->
  0.001 <= length (vsub p (position c)) ->
  length (vsub p (position c)) < radius c ->
  warpIteration u p w c
  = Spec.stretched k (globalStrength u) w (vsub p (position c)) (strength c) (radius c).
Proof.
  intros Hk Hty Hlo Hhi.
  rewrite (warpIteration_stretch u p w c Hty Hlo Hhi).
  rewrite Hk, applyInterpolation_kernel.
  unfold Spec.stretched, Spec.influence, Spec.K_stretch.
  replace 1.0 with 1 by lra.
  apply float2_eq; simpl; ring.
Qed.

Lemma metal_anchor_refines_spec (k : Spec.Kernel) u p w c :
  interpolationType u = Spec.interpolationTypeOf k ->
  type c <> 0%Z ->
  0.001 <= length (vsub p (position c)) ->
  length (vsub p (position c)) < radius c ->
  warpIteration u p w c
  = Spec.anchored k (globalStrength u) w (vsub p (position c)) (strength c) (radius c).
Proof.
  intros Hk Hty Hlo Hhi.
  rewrite (warpIteration_anchor u p w c Hty Hlo Hhi).
  rewrite Hk, applyInterpolation_kernel.
  unfold Spec.anchored, Spec.influence, Spec.K_anchor.
  replace 1.0 with 1 by lra.
  apply float2_eq; simpl; ring.
Qed.

Lemma applyInterpolation_le_1 (k : Z) (t : R) :
  0 <= t <= 1 -> applyInterpolation k t <= 1.
Proof.
  intros [H0 H1].
  pose proof (applyInterpolation_monotone k t 1 H0 H1 ltac:(lra)) as Hmono.
  destruct (applyInterpolation_cases k 1 ltac:(lra)) as [Heq|Heq];
    rewrite Heq in Hmono; lra.
Qed.

(** With strengths in their ranges an anchor contracts the offset: the
    vertex ends on the segment toward the anchor, at most a fifth of the
    way. *)
Lemma metal_anchor_contracts u p c :
  type c <> 0%Z ->
  0.001 <= length (vsub p (position c)) ->
  length (vsub p (position c)) < radius c ->
  0 <= strength c <= 2 -> 0 <= globalStrength u <= 2 ->
  exists pull : R,
    0 <= pull <= 0.2
    /\ vsub (warpIteration u p p c) (position c)
       = vscale (vsub p (position c)) (1 - pull).
Proof.
  intros Hty Hlo Hhi Hs Hg.
  exists (strength c
          * applyInterpolation (interpolationType u)
              (1.0 - length (vsub p (position c)) / radius c)
          * globalStrength u * 0.05).
  pose proof (influence_range p c Hlo Hhi) as Ht. cbv zeta in Ht.
  assert (Ht' : 0 <= 1.0 - length (vsub p (position c)) / radius c <= 1) by lra.
  pose proof (applyInterpolation_nonneg (interpolationType u) _ Ht') as Hk0.
  pose proof (applyInterpolation_le_1 (interpolationType u) _ Ht') as Hk1.
  split.
  - set (k := applyInterpolation _ _) in *.
    assert (0 <= strength c * k <= 2) by nra.
    assert (0 <= strength c * k * globalStrength u <= 4) by nra.
    lra.
  - rewrite (warpIteration_anchor u p p c Hty Hlo Hhi).
    apply float2_eq; simpl; ring.
Qed.

End MetalRefinesSpec.

(** ** The evaluator: capacity, identity, kernels, clamping *)
Section EvaluatorClaims.
Import Shader Inputs.

(** C1.  The displacement of a tick depends only on the first 16 control
    points in store order: two point lists with the same first 16 entries
    give every vertex the same displaced position, in the web renderer
    ([render] uploads [slice(0, 16)] and the shader loop stops at 16) and
    in the Metal shader (the loop stops at 16).  In particular a 21st point
    appended to 20 changes nothing. *)
Theorem first_sixteen_points_decide_the_field :
  forall (this : WebGL.VideoProcessor) (t : option R) (params : Metal.WarpUniforms)
         (web web' : list WebGL.ControlPoint)
         (pts pts' : list Metal.ControlPoint) (p : float2),
    firstn 16 web = firstn 16 web' ->
    firstn 16 pts = firstn 16 pts' ->
    WebGL.displace (WebGL.updateWarpPoints this web) t p
    = WebGL.displace (WebGL.updateWarpPoints this web') t p
    /\ MetalHost.displace p pts params = MetalHost.displace p pts' params.
Proof.
  intros this t params web web' pts pts' p Hweb Hpts. split.
  - unfold WebGL.displace. rewrite (renderUniforms_cap this t web web' Hweb).
    reflexivity.
  - apply displace_cap, Hpts.
Qed.

Lemma first_sixteen_points_decide_the_field_witness :
  WebGL.displace
    (WebGL.updateWarpPoints
       (WebHost.processor 300 150 readyVideo [] WebHost.defaultSettings)
       (repeat widePoint 20 ++ [edgePoint])) None (mkFloat2 0.5 0.25)
  = WebGL.displace
      (WebGL.updateWarpPoints
         (WebHost.processor 300 150 readyVideo [] WebHost.defaultSettings)
         (repeat widePoint 20)) None (mkFloat2 0.5 0.25)
  /\ MetalHost.displace (mkFloat2 0.5 0.25)
       (repeat (Metal.mkControlPoint origin 1 0.4 0) 20
        ++ [Metal.mkControlPoint origin 2 0.1 1])
       (Metal.mkWarpUniforms origin 1 0 0 1)
     = MetalHost.displace (mkFloat2 0.5 0.25)
         (repeat (Metal.mkControlPoint origin 1 0.4 0) 20)
         (Metal.mkWarpUniforms origin 1 0 0 1).
Proof.
  apply (first_sixteen_points_decide_the_field
           (WebHost.processor 300 150 readyVideo [] WebHost.defaultSettings) None
           (Metal.mkWarpUniforms origin 1 0 0 1)
           (repeat widePoint 20 ++ [edgePoint]) (repeat widePoint 20)
           (repeat (Metal.mkControlPoint origin 1 0.4 0) 20
            ++ [Metal.mkControlPoint origin 2 0.1 1])
           (repeat (Metal.mkControlPoint origin 1 0.4 0) 20) (mkFloat2 0.5 0.25));
    reflexivity.
Defined.

(** C5.  With the empty control point list [displace] is the identity on
    every vertex of the unit square, under every parameter setting: the
    Metal loop runs no iteration and the final clamp leaves a position of
    the unit square alone; the web shader runs no iteration. *)
Theorem displace_no_points_is_identity :
  forall (p : float2) (params : Metal.WarpUniforms)
         (this : WebGL.VideoProcessor) (t : option R),
    inUnitSquare p ->
    MetalHost.displace p [] params = p
    /\ WebGL.displace (WebGL.updateWarpPoints this []) t p = p.
Proof.
  intros p params this t Hp. split.
  - unfold MetalHost.displace, Metal.applyWarp.
    rewrite warpAccumulate_no_points by (simpl; lia).
    apply clamp2_inside, Hp.
  - apply web_displace_no_points.
Qed.

Lemma displace_no_points_is_identity_witness :
  MetalHost.displace (mkFloat2 0.5 0.25) [] (Metal.mkWarpUniforms origin 2 0 0 2)
  = mkFloat2 0.5 0.25
  /\ WebGL.displace
       (WebGL.updateWarpPoints
          (WebHost.processor 300 150 readyVideo [edgePoint] linearSettings) [])
       None (mkFloat2 0.5 0.25)
     = mkFloat2 0.5 0.25.
Proof.
  apply (displace_no_points_is_identity (mkFloat2 0.5 0.25)).
  unfold inUnitSquare; simpl; lra.
Defined.

(** C8.  The smooth and the elastic kernel are one curve: on [0,1] the
    two arms of the Metal switch agree ([smoothstep(0,1,t) = t*t*(3-2t)]),
    so [applyWarp] returns the same position under [interpolationType = 1]
    and [= 2] for every vertex, buffer and remaining setting; the web
    renderer never reads the interpolation setting. *)
Theorem smooth_and_elastic_agree :
  (forall t : R, 0 <= t <= 1 ->
     smoothstep 0 1 t = t * t * (3 - 2 * t)
     /\ Metal.applyInterpolation 1 t = Metal.applyInterpolation 2 t)
  /\ (forall p buf params,
        Metal.applyWarp p buf (MetalHost.withInterpolation params 1)
        = Metal.applyWarp p buf (MetalHost.withInterpolation params 2))
  /\ (forall this t p,
        WebGL.displace (WebHost.withInterpolation this WebGL.smooth) t p
        = WebGL.displace (WebHost.withInterpolation this WebGL.elastic) t p).
Proof.
  split; [|split].
  - intros t Ht. split.
    + apply smoothstep_unit', Ht.
    + apply applyInterpolation_smooth_elastic, Ht.
  - apply applyWarp_smooth_elastic.
  - intros this t p. reflexivity.
Qed.

Lemma smooth_and_elastic_agree_witness :
  smoothstep 0 1 0.75 = 0.75 * 0.75 * (3 - 2 * 0.75)
  /\ Metal.applyInterpolation 1 0.75 = Metal.applyInterpolation 2 0.75.
Proof. apply (proj1 smooth_and_elastic_agree 0.75). lra. Defined.

(** C3.  The web shader returns the accumulated position without the
    final clamp: with one stretch point at (0.05, 0) of radius 0.1 the
    vertex at the origin is moved to (-0.05, 0), outside the unit square.
    (The Metal shader clamps: [applyWarp_in_unit_square].) *)
Theorem web_shader_leaves_unit_square :
  WebGL.displace
    (WebHost.processor 300 150 readyVideo [edgePoint] WebHost.defaultSettings)
    None origin
  = mkFloat2 (-0.05) 0
  /\ ~ inUnitSquare
       (WebGL.displace
          (WebHost.processor 300 150 readyVideo [edgePoint] WebHost.defaultSettings)
          None origin).
Proof.
  assert (Heval : WebGL.displace
            (WebHost.processor 300 150 readyVideo [edgePoint] WebHost.defaultSettings)
            None origin = mkFloat2 (-0.05) 0).
  { change (WebHost.processor 300 150 readyVideo [edgePoint] WebHost.defaultSettings)
      with (WebGL.updateWarpPoints
              (WebHost.processor 300 150 readyVideo [] WebHost.defaultSettings)
              [edgePoint]).
    assert (Hlen : length (vsub origin (mkFloat2 (WebGL.x edgePoint) (WebGL.y edgePoint)))
                   = 0.05).
    { apply length_eval; simpl; lra. }
    rewrite web_displace_single_in_range.
    2: { rewrite Hlen. lra. }
    2: { rewrite Hlen. simpl. lra. }
    unfold normalize. rewrite Hlen. simpl.
    rewrite smoothstep_unit by lra.
    apply float2_eq; simpl; lra. }
  split; [exact Heval|].
  rewrite Heval. unfold inUnitSquare; simpl. lra.
Qed.

(** C2.  The web shader applies [smoothstep] whatever kernel is selected:
    with the interpolation set to linear, a stretch point of radius 0.4 at
    distance 0.1 (raw influence 0.75) moves the origin to (-0.084375, 0),
    the weight being smoothstep(0.75) = 0.84375, whereas the linear kernel
    of the specification moves it to (-0.075, 0). *)
Theorem web_shader_ignores_kernel :
  WebGL.displace (WebHost.processor 300 150 readyVideo [widePoint] linearSettings)
    None origin
  = mkFloat2 (-0.084375) 0
  /\ Spec.stretched Spec.linear 1.0 origin (vsub origin (mkFloat2 0.1 0)) 1.0 0.4
     = mkFloat2 (-0.075) 0
  /\ WebGL.displace (WebHost.processor 300 150 readyVideo [widePoint] linearSettings)
       None origin
     <> Spec.stretched Spec.linear 1.0 origin (vsub origin (mkFloat2 0.1 0)) 1.0 0.4.
Proof.
  assert (Hcode : WebGL.displace
            (WebHost.processor 300 150 readyVideo [widePoint] linearSettings) None origin
            = mkFloat2 (-0.084375) 0)
    by (apply web_displace_wide_point; reflexivity).
  assert (Hspec : Spec.stretched Spec.linear 1.0 origin (vsub origin (mkFloat2 0.1 0))
                    1.0 0.4 = mkFloat2 (-0.075) 0).
  { assert (Hlen : length (vsub origin (mkFloat2 0.1 0)) = 0.1).
    { apply length_eval; simpl; lra. }
    unfold Spec.stretched, Spec.influence, Spec.K_stretch, normalize.
    rewrite Hlen. apply float2_eq; simpl; lra. }
  split; [exact Hcode|]. split; [exact Hspec|].
  rewrite Hcode, Hspec. intros Heq.
  apply (f_equal vx) in Heq. simpl in Heq. lra.
Qed.

(** C4.  The web shader treats every point as a stretch point: an anchor
    point of radius 0.4 at (0.1, 0) pushes the origin away from it, to
    (-0.084375, 0), whereas the anchor rule of the specification pulls it
    toward the anchor, to (0.00421875, 0). *)
Theorem web_shader_ignores_point_type :
  WebGL.displace
    (WebHost.processor 300 150 readyVideo [anchorPoint] WebHost.defaultSettings)
    None origin
  = mkFloat2 (-0.084375) 0
  /\ Spec.anchored Spec.smooth 1.0 origin (vsub origin (mkFloat2 0.1 0)) 1.0 0.4
     = mkFloat2 0.00421875 0
  /\ WebGL.displace
       (WebHost.processor 300 150 readyVideo [anchorPoint] WebHost.defaultSettings)
       None origin
     <> Spec.anchored Spec.smooth 1.0 origin (vsub origin (mkFloat2 0.1 0)) 1.0 0.4.
Proof.
  assert (Hcode : WebGL.displace
            (WebHost.processor 300 150 readyVideo [anchorPoint] WebHost.defaultSettings)
            None origin = mkFloat2 (-0.084375) 0)
    by (apply web_displace_wide_point; reflexivity).
  assert (Hspec : Spec.anchored Spec.smooth 1.0 origin (vsub origin (mkFloat2 0.1 0))
                    1.0 0.4 = mkFloat2 0.00421875 0).
  { assert (Hlen : length (vsub origin (mkFloat2 0.1 0)) = 0.1).
    { apply length_eval; simpl; lra. }
    unfold Spec.anchored, Spec.influence, Spec.K_anchor.
    rewrite Hlen. simpl Spec.kernel.
    rewrite smoothstep_unit' by lra.
    apply float2_eq; simpl; lra. }
  split; [exact Hcode|]. split; [exact Hspec|].
  rewrite Hcode, Hspec. intros Heq.
  apply (f_equal vx) in Heq. simpl in Heq. lra.
Qed.

End EvaluatorClaims.

(** ** Falloff of a single stretch point *)
Section Falloff.
Import Shader.

(** The length of one stretch step is the absolute value of its amount
    times the constant 0.1. *)
Lemma length_of_push (p offset : float2) (a : R) :
  0 < length offset ->
  length (vsub (vadd p (vscale (vscale (normalize offset) a) 0.1)) p) = Rabs a * 0.1.
Proof.
  intros Hpos.
  replace (vsub (vadd p (vscale (vscale (normalize offset) a) 0.1)) p)
    with (vscale (normalize offset) (a * 0.1))
    by (apply float2_eq; simpl; ring).
  rewrite length_vscale, length_normalize by assumption.
  rewrite Rabs_mult, (Rabs_right 0.1) by lra. ring.
Qed.

Lemma length_of_rest (p : float2) : length (vsub p p) = 0.
Proof.
  replace (vsub p p) with (mkFloat2 0 0) by (apply float2_eq; simpl; ring).
  apply length_eval; lra.
Qed.

Lemma Rabs_weight_monotone (s g k1 k2 : R) :
  0 <= k2 -> k2 <= k1 -> Rabs (s * k2 * g) <= Rabs (s * k1 * g).
Proof.
  intros H0 Hle. rewrite !Rabs_mult.
  rewrite (Rabs_right k2), (Rabs_right k1) by lra.
  pose proof (Rabs_pos s). pose proof (Rabs_pos g).
  apply Rmult_le_compat_r; [assumption|].
  apply Rmult_le_compat_l; assumption.
Qed.

(** The raw linear influence decreases with the distance. *)
Lemma raw_influence_antitone (d1 d2 r : R) :
  0 < d1 -> d1 <= d2 -> d2 < r ->
  0 <= 1.0 - d2 / r /\ 1.0 - d2 / r <= 1.0 - d1 / r /\ 1.0 - d1 / r <= 1.
Proof.
  intros H1 H12 H2.
  assert (Hr : 0 < r) by lra.
  assert (Hinv : 0 < / r) by (apply Rinv_0_lt_compat; assumption).
  assert (Hq2 : d2 / r < 1).
  { apply (Rmult_lt_reg_r r); [assumption|].
    unfold Rdiv. rewrite Rmult_assoc, Rinv_l by lra. lra. }
  assert (Hq12 : d1 / r <= d2 / r).
  { unfold Rdiv. apply Rmult_le_compat_r; lra. }
  assert (Hq1 : 0 < d1 / r) by (apply Rdiv_lt_0_compat; assumption).
  lra.
Qed.

Lemma metal_displace_single p (c : Metal.ControlPoint) params :
  Metal.warpAccumulate p (Metal.bufferOf [c]) (MetalHost.withCount params 1)
  = Metal.warpIteration (MetalHost.withCount params 1) p p c.
Proof. reflexivity. Qed.

(** The displacement a single Metal stretch point produces before the
    clamp: zero out of range, a push of known length in range. *)
Lemma metal_single_stretch_length p (c : Metal.ControlPoint) params :
  Metal.type c = 0%Z ->
  0.001 <= length (vsub p (Metal.position c)) ->
  length (vsub p (Metal.position c)) < Metal.radius c ->
  length (vsub (Metal.warpAccumulate p (Metal.bufferOf [c])
                  (MetalHost.withCount params 1)) p)
  = Rabs (Metal.strength c
          * Metal.applyInterpolation (Metal.interpolationType params)
              (1.0 - length (vsub p (Metal.position c)) / Metal.radius c)
          * Metal.globalStrength params) * 0.1.
Proof.
  intros Hty Hlo Hhi. rewrite metal_displace_single.
  rewrite (warpIteration_stretch _ p p c Hty Hlo Hhi).
  rewrite length_of_push by lra. reflexivity.
Qed.

Lemma metal_single_out_of_range p (c : Metal.ControlPoint) params :
  length (vsub p (Metal.position c)) >= Metal.radius c
  \/ length (vsub p (Metal.position c)) < 0.001 ->
  Metal.warpAccumulate p (Metal.bufferOf [c]) (MetalHost.withCount params 1) = p.
Proof.
  intros Hskip. rewrite metal_displace_single.
  apply warpIteration_skip, Hskip.
Qed.

Lemma metal_falloff_unclamped (c : Metal.ControlPoint) params (p1 p2 : float2) :
  Metal.type c = 0%Z ->
  0.001 <= length (vsub p1 (Metal.position c)) ->
  length (vsub p1 (Metal.position c)) <= length (vsub p2 (Metal.position c)) ->
  length (vsub (Metal.warpAccumulate p2 (Metal.bufferOf [c])
                  (MetalHost.withCount params 1)) p2)
  <= length (vsub (Metal.warpAccumulate p1 (Metal.bufferOf [c])
                     (MetalHost.withCount params 1)) p1).
Proof.
  intros Hty H1 H12.
  destruct (Rge_dec (length (vsub p2 (Metal.position c))) (Metal.radius c)) as [Hout|Hin].
  - rewrite (metal_single_out_of_range p2) by (left; exact Hout).
    rewrite length_of_rest. apply length_nonneg.
  - assert (H2 : length (vsub p2 (Metal.position c)) < Metal.radius c) by lra.
    rewrite !metal_single_stretch_length by (assumption || lra).
    assert (Hpos : 0 < length (vsub p1 (Metal.position c))) by lra.
    pose proof (raw_influence_antitone _ _ _ Hpos H12 H2) as (Ha & Hb & Hc).
    apply Rmult_le_compat_r; [lra|].
    apply Rabs_weight_monotone.
    + apply applyInterpolation_nonneg. lra.
    + apply applyInterpolation_monotone; lra.
Qed.

Lemma web_falloff this t (c : WebGL.ControlPoint) (p1 p2 : float2) :
  0 < length (vsub p1 (mkFloat2 (WebGL.x c) (WebGL.y c))) ->
  length (vsub p1 (mkFloat2 (WebGL.x c) (WebGL.y c)))
  <= length (vsub p2 (mkFloat2 (WebGL.x c) (WebGL.y c))) ->
  length (vsub (WebGL.displace (WebGL.updateWarpPoints this [c]) t p2) p2)
  <= length (vsub (WebGL.displace (WebGL.updateWarpPoints this [c]) t p1) p1).
Proof.
  intros H1 H12.
  destruct (Rge_dec (length (vsub p2 (mkFloat2 (WebGL.x c) (WebGL.y c)))) (WebGL.radius c))
    as [Hout|Hin].
  - rewrite (web_displace_single_skip this t c p2) by (left; exact Hout).
    rewrite length_of_rest. apply length_nonneg.
  - assert (H2 : length (vsub p2 (mkFloat2 (WebGL.x c) (WebGL.y c))) < WebGL.radius c)
      by lra.
    rewrite !web_displace_single_in_range by lra.
    rewrite !length_of_push by lra.
    pose proof (raw_influence_antitone _ _ _ H1 H12 H2) as (Ha & Hb & Hc).
    apply Rmult_le_compat_r; [lra|].
    apply Rabs_weight_monotone.
    + rewrite smoothstep_unit by lra.
      pose proof (cubic_nonneg (1.0 - length (vsub p2 (mkFloat2 (WebGL.x c) (WebGL.y c)))
                                      / WebGL.radius c) ltac:(lra)).
      lra.
    + rewrite !smoothstep_unit by lra.
      pose proof (cubic_monotone _ _ Ha Hb Hc). lra.
Qed.

End Falloff.

Section FalloffClaim.
Import Shader Inputs.

Lemma metal_displace_unclamped p (pts : list Metal.ControlPoint) params :
  inUnitSquare (Metal.warpAccumulate p (Metal.bufferOf pts)
                  (MetalHost.withCount params (Z.of_nat (List.length pts)))) ->
  MetalHost.displace p pts params
  = Metal.warpAccumulate p (Metal.bufferOf pts)
      (MetalHost.withCount params (Z.of_nat (List.length pts))).
Proof. intros Hin. unfold MetalHost.displace, Metal.applyWarp. apply clamp2_inside, Hin. Qed.

(** The section 8 scenario: the vertex at distance 0.1 (half the radius)
    moves from (0.6, 0.5) to (0.65, 0.5). *)
Lemma center_point_half_radius :
  Metal.warpAccumulate (mkFloat2 0.6 0.5) (Metal.bufferOf [centerPoint])
    (MetalHost.withCount linearParams 1)
  = mkFloat2 0.65 0.5.
Proof.
  rewrite metal_displace_single.
  assert (Hlen : length (vsub (mkFloat2 0.6 0.5) (Metal.position centerPoint)) = 0.1).
  { apply length_eval; simpl; lra. }
  rewrite warpIteration_stretch.
  2: reflexivity.
  2: { rewrite Hlen. lra. }
  2: { rewrite Hlen. simpl. lra. }
  unfold normalize. rewrite Hlen. simpl.
  apply float2_eq; simpl; lra.
Qed.

(** A vertex closer than 0.001 to the point stays where it is. *)
Lemma center_point_below_epsilon :
  Metal.warpAccumulate (mkFloat2 0.5005 0.5) (Metal.bufferOf [centerPoint])
    (MetalHost.withCount linearParams 1)
  = mkFloat2 0.5005 0.5.
Proof.
  apply metal_single_out_of_range. right.
  replace (length (vsub (mkFloat2 0.5005 0.5) (Metal.position centerPoint)))
    with 0.0005; [lra|].
  symmetry. apply length_eval; simpl; lra.
Qed.

(** A vertex at the radius boundary stays where it is. *)
Lemma center_point_at_radius :
  Metal.warpAccumulate (mkFloat2 0.7 0.5) (Metal.bufferOf [centerPoint])
    (MetalHost.withCount linearParams 1)
  = mkFloat2 0.7 0.5.
Proof.
  apply metal_single_out_of_range. left.
  replace (length (vsub (mkFloat2 0.7 0.5) (Metal.position centerPoint)))
    with 0.2; [simpl; lra|].
  symmetry. apply length_eval; simpl; lra.
Qed.

(** C7, as amended.  For a single stretch point and every kernel the
    displacement magnitude does not increase with the distance from the
    point once the distance has reached the coincidence guard: in the Metal
    shader for vertices at distance at least 0.001 whose accumulated
    positions lie in the unit square (where the final clamp changes
    nothing), in the web shader for vertices at any positive distance. *)
Theorem stretch_falloff_monotone_beyond_guard :
  (forall (c : Metal.ControlPoint) (params : Metal.WarpUniforms) (p1 p2 : float2),
     Metal.type c = 0%Z ->
     0.001 <= length (vsub p1 (Metal.position c)) ->
     length (vsub p1 (Metal.position c)) <= length (vsub p2 (Metal.position c)) ->
     inUnitSquare (Metal.warpAccumulate p1 (Metal.bufferOf [c])
                     (MetalHost.withCount params 1)) ->
     inUnitSquare (Metal.warpAccumulate p2 (Metal.bufferOf [c])
                     (MetalHost.withCount params 1)) ->
     length (vsub (MetalHost.displace p2 [c] params) p2)
     <= length (vsub (MetalHost.displace p1 [c] params) p1))
  /\ (forall (this : WebGL.VideoProcessor) (t : option R) (c : WebGL.ControlPoint)
             (p1 p2 : float2),
        0 < length (vsub p1 (mkFloat2 (WebGL.x c) (WebGL.y c))) ->
        length (vsub p1 (mkFloat2 (WebGL.x c) (WebGL.y c)))
        <= length (vsub p2 (mkFloat2 (WebGL.x c) (WebGL.y c))) ->
        length (vsub (WebGL.displace (WebGL.updateWarpPoints this [c]) t p2) p2)
        <= length (vsub (WebGL.displace (WebGL.updateWarpPoints this [c]) t p1) p1)).
Proof.
  split.
  - intros c params p1 p2 Hty H1 H12 Hin1 Hin2.
    rewrite (metal_displace_unclamped p1 [c]) by exact Hin1.
    rewrite (metal_displace_unclamped p2 [c]) by exact Hin2.
    apply metal_falloff_unclamped; assumption.
  - intros this t c p1 p2 H1 H12. apply web_falloff; assumption.
Qed.

Lemma stretch_falloff_monotone_beyond_guard_witness :
  length (vsub (MetalHost.displace (mkFloat2 0.7 0.5) [centerPoint] linearParams)
            (mkFloat2 0.7 0.5))
  <= length (vsub (MetalHost.displace (mkFloat2 0.6 0.5) [centerPoint] linearParams)
               (mkFloat2 0.6 0.5)).
Proof.
  apply (proj1 stretch_falloff_monotone_beyond_guard centerPoint linearParams
           (mkFloat2 0.6 0.5) (mkFloat2 0.7 0.5)).
  - reflexivity.
  - replace (length (vsub (mkFloat2 0.6 0.5) (Metal.position centerPoint))) with 0.1;
      [lra|].
    symmetry. apply length_eval; simpl; lra.
  - replace (length (vsub (mkFloat2 0.6 0.5) (Metal.position centerPoint))) with 0.1.
    + replace (length (vsub (mkFloat2 0.7 0.5) (Metal.position centerPoint))) with 0.2;
        [lra|].
      symmetry. apply length_eval; simpl; lra.
    + symmetry. apply length_eval; simpl; lra.
  - rewrite center_point_half_radius. unfold inUnitSquare; simpl; lra.
  - rewrite center_point_at_radius. unfold inUnitSquare; simpl; lra.
Defined.

(** C7 as stated fails across the coincidence guard: for the section 8
    stretch point the vertex at distance 0.0005 is not displaced at all,
    while the vertex farther away, at distance 0.1, is displaced by 0.05. *)
Lemma falloff_not_monotone_across_guard :
  length (vsub (mkFloat2 0.5005 0.5) (Metal.position centerPoint))
  < length (vsub (mkFloat2 0.6 0.5) (Metal.position centerPoint))
  /\ length (vsub (mkFloat2 0.6 0.5) (Metal.position centerPoint))
     < Metal.radius centerPoint
  /\ length (vsub (MetalHost.displace (mkFloat2 0.5005 0.5) [centerPoint] linearParams)
               (mkFloat2 0.5005 0.5))
     < length (vsub (MetalHost.displace (mkFloat2 0.6 0.5) [centerPoint] linearParams)
                 (mkFloat2 0.6 0.5)).
Proof.
  assert (H1 : length (vsub (mkFloat2 0.5005 0.5) (Metal.position centerPoint)) = 0.0005).
  { apply length_eval; simpl; lra. }
  assert (H2 : length (vsub (mkFloat2 0.6 0.5) (Metal.position centerPoint)) = 0.1).
  { apply length_eval; simpl; lra. }
  rewrite H1, H2. split; [lra|]. split; [simpl; lra|].
  rewrite (metal_displace_unclamped (mkFloat2 0.5005 0.5) [centerPoint]).
  2: { simpl List.length. simpl Z.of_nat. rewrite center_point_below_epsilon.
       unfold inUnitSquare; simpl; lra. }
  rewrite (metal_displace_unclamped (mkFloat2 0.6 0.5) [centerPoint]).
  2: { simpl List.length. simpl Z.of_nat. rewrite center_point_half_radius.
       unfold inUnitSquare; simpl; lra. }
  simpl List.length. simpl Z.of_nat.
  rewrite center_point_below_epsilon, center_point_half_radius.
  rewrite length_of_rest.
  replace (length (vsub (mkFloat2 0.65 0.5) (mkFloat2 0.6 0.5))) with 0.05; [lra|].
  symmetry. apply length_eval; simpl; lra.
Qed.

(** The final clamp can shorten the displacement of the nearer vertex: a
    vertex at distance 0.09 is pushed against the right edge and ends 0.01
    away from where it was, one at distance 0.2 moves by 0.24.  Hence the
    condition on the accumulated positions above. *)
Lemma falloff_not_monotone_under_clamp :
  0.001 <= length (vsub (mkFloat2 0.99 0.5) (Metal.position rightPoint))
  /\ length (vsub (mkFloat2 0.99 0.5) (Metal.position rightPoint))
     <= length (vsub (mkFloat2 0.7 0.5) (Metal.position rightPoint))
  /\ length (vsub (MetalHost.displace (mkFloat2 0.99 0.5) [rightPoint] strongParams)
               (mkFloat2 0.99 0.5))
     < length (vsub (MetalHost.displace (mkFloat2 0.7 0.5) [rightPoint] strongParams)
                 (mkFloat2 0.7 0.5)).
Proof.
  assert (H1 : length (vsub (mkFloat2 0.99 0.5) (Metal.position rightPoint)) = 0.09).
  { apply length_eval; simpl; lra. }
  assert (H2 : length (vsub (mkFloat2 0.7 0.5) (Metal.position rightPoint)) = 0.2).
  { apply length_eval; simpl; lra. }
  assert (Hacc1 : Metal.warpAccumulate (mkFloat2 0.99 0.5) (Metal.bufferOf [rightPoint])
                    (MetalHost.withCount strongParams 1) = mkFloat2 1.318 0.5).
  { rewrite metal_displace_single, warpIteration_stretch.
    2: reflexivity.
    2: { rewrite H1. lra. }
    2: { rewrite H1. simpl. lra. }
    unfold normalize. rewrite H1. simpl. apply float2_eq; simpl; lra. }
  assert (Hacc2 : Metal.warpAccumulate (mkFloat2 0.7 0.5) (Metal.bufferOf [rightPoint])
                    (MetalHost.withCount strongParams 1) = mkFloat2 0.46 0.5).
  { rewrite metal_displace_single, warpIteration_stretch.
    2: reflexivity.
    2: { rewrite H2. lra. }
    2: { rewrite H2. simpl. lra. }
    unfold normalize. rewrite H2. simpl. apply float2_eq; simpl; lra. }
  rewrite H1, H2. split; [lra|]. split; [lra|].
  assert (Hd1 : MetalHost.displace (mkFloat2 0.99 0.5) [rightPoint] strongParams
                = mkFloat2 1 0.5).
  { unfold MetalHost.displace, Metal.applyWarp.
    simpl List.length. simpl Z.of_nat. rewrite Hacc1.
    unfold clamp2, splat; cbn [vx vy].
    rewrite clamp_above by lra. rewrite clamp_inside by lra.
    apply float2_eq; simpl; lra. }
  rewrite Hd1.
  rewrite (metal_displace_unclamped (mkFloat2 0.7 0.5) [rightPoint]).
  2: { simpl List.length. simpl Z.of_nat. rewrite Hacc2.
       unfold inUnitSquare; simpl; lra. }
  simpl List.length. simpl Z.of_nat. rewrite Hacc2.
  replace (length (vsub (mkFloat2 1 0.5) (mkFloat2 0.99 0.5))) with 0.01.
  - replace (length (vsub (mkFloat2 0.46 0.5) (mkFloat2 0.7 0.5))) with 0.24; [lra|].
    symmetry. apply length_eval; simpl; lra.
  - symmetry. apply length_eval; simpl; lra.
Qed.

End FalloffClaim.

(** ** Mesh generation *)
Section MeshFacts.
Local Open Scope nat_scope.

(** Entry [i*k + j] of a concatenation of chunks of length [k] is entry
    [j] of chunk [i]. *)
Lemma nth_error_flat_map_seq {A : Type} (f : nat -> list A) (k : nat) :
  (forall i, List.length (f i) = k) ->
  forall n s i j, i < n -> j < k ->
    nth_error (flat_map f (seq s n)) (i * k + j) = nth_error (f (s + i)) j.
Proof.
  intros Hlen n. induction n as [|n IH]; intros s i j Hi Hj; [lia|].
  simpl. destruct i as [|i].
  - simpl. rewrite nth_error_app1 by (rewrite Hlen; lia).
    rewrite Nat.add_0_r. reflexivity.
  - rewrite nth_error_app2 by (rewrite Hlen; simpl; lia).
    rewrite Hlen. replace (S i * k + j - k) with (i * k + j) by (simpl; lia).
    rewrite IH by lia. f_equal. f_equal. lia.
Qed.

Lemma length_flat_map_seq {A : Type} (f : nat -> list A) (k : nat) :
  (forall i, List.length (f i) = k) ->
  forall n s, List.length (flat_map f (seq s n)) = n * k.
Proof.
  intros Hlen n s. rewrite flat_map_constant_length with (c := k).
  - rewrite length_seq. reflexivity.
  - intros x _. apply Hlen.
Qed.

Lemma createMesh_vertices_length (R : nat) :
  List.length (WebGL.vertices (WebGL.createMesh R)) = 2 * ((R + 1) * (R + 1)).
Proof.
  unfold WebGL.createMesh; simpl.
  rewrite (length_flat_map_seq _ ((R + 1) * 2)).
  - lia.
  - intros y. rewrite (length_flat_map_seq _ 2); [reflexivity|]. reflexivity.
Qed.


Lemma createMesh_indices_length (R : nat) :
  List.length (WebGL.indices (WebGL.createMesh R)) = 6 * (R * R).
Proof.
  unfold WebGL.createMesh; simpl.
  rewrite (length_flat_map_seq _ (R * 6)).
  - lia.
  - intros y. rewrite (length_flat_map_seq _ 6); [reflexivity|]. reflexivity.
Qed.

Lemma createMesh_cell (R x y k : nat) :
  x < R -> y < R -> k < 6 ->
  nth_error (WebGL.indices (WebGL.createMesh R)) (6 * (y * R + x) + k)
  = nth_error (Spec.cellTriangles R x y) k.
Proof.
  intros Hx Hy Hk. unfold WebGL.createMesh; simpl WebGL.indices.
  replace (6 * (y * R + x) + k) with (y * (R * 6) + (x * 6 + k)) by lia.
  rewrite (nth_error_flat_map_seq _ (R * 6)).
  - rewrite (nth_error_flat_map_seq _ 6) by (reflexivity || lia).
    unfold Spec.cellTriangles, Spec.vertexIndex.
    do 6 (destruct k as [|k]; [cbn [nth_error]; f_equal; nia|]). lia.
  - intros y0. apply (length_flat_map_seq _ 6). reflexivity.
  - lia.
  - nia.
Qed.

Lemma cellTriangles_bound (R x y i : nat) :
  x < R -> y < R -> In i (Spec.cellTriangles R x y) -> i < (R + 1) * (R + 1).
Proof.
  intros Hx Hy Hin. unfold Spec.cellTriangles, Spec.vertexIndex in Hin. simpl in Hin.
  repeat (destruct Hin as [<-|Hin]; [nia|]). contradiction.
Qed.

Lemma createMesh_indices_bound (R : nat) :
  Forall (fun i => i < (R + 1) * (R + 1)) (WebGL.indices (WebGL.createMesh R)).
Proof.
  apply Forall_forall. intros i Hin.
  unfold WebGL.createMesh in Hin; simpl in Hin.
  apply in_flat_map in Hin as (y & Hy & Hin).
  apply in_flat_map in Hin as (x & Hx & Hin).
  apply in_seq in Hy. apply in_seq in Hx.
  simpl in Hin.
  repeat (destruct Hin as [<-|Hin]; [nia|]). contradiction.
Qed.

End MeshFacts.

Section MetalMeshFacts.
Import MetalMesh.
Local Open Scope nat_scope.




Lemma thread_cell (R index : nat) :
  index < (R + 1) * (R + 1) ->
  index mod (R + 1) <= R /\ index / (R + 1) <= R
  /\ index = Spec.vertexIndex R (index mod (R + 1)) (index / (R + 1)).
Proof.
  intros Hlt.
  pose proof (Nat.mod_upper_bound index (R + 1) ltac:(lia)) as Hm.
  pose proof (Nat.Div0.div_lt_upper_bound index (R + 1) (R + 1) Hlt) as Hd.
  pose proof (Nat.div_mod_eq index (R + 1)) as Heq.
  unfold Spec.vertexIndex. repeat split; lia.
Qed.

Lemma generateMeshAt_vertices (R index : nat) (mem : MeshBuffers) (k : nat) :
  vertices (generateMeshAt R index mem) k
  = if (index <? (R + 1) * (R + 1)) && (k =? index)
    then Some (threadVertex R index) else vertices mem k.
Proof.
  unfold generateMeshAt.
  destruct (Nat.leb_spec ((R + 1) * (R + 1)) index) as [Hout|Hin].
  - replace (index <? (R + 1) * (R + 1)) with false
      by (symmetry; apply Nat.ltb_ge; lia).
    reflexivity.
  - replace (index <? (R + 1) * (R + 1)) with true
      by (symmetry; apply Nat.ltb_lt; lia).
    destruct (_ && _); reflexivity.
Qed.


Lemma generateMeshAt_indices (R index : nat) (mem : MeshBuffers) (j : nat) :
  indices (generateMeshAt R index mem) j
  = if threadWrites R index j
    then nth_error (Spec.cellTriangles R (index mod (R + 1)) (index / (R + 1)))
           (j - 6 * ((index / (R + 1)) * R + index mod (R + 1)))
    else indices mem j.
Proof.
  unfold generateMeshAt, threadWrites.
  set (x := index mod (R + 1)). set (y := index / (R + 1)).
  destruct (Nat.leb_spec ((R + 1) * (R + 1)) index) as [Hout|Hin].
  { replace (index <? (R + 1) * (R + 1)) with false
      by (symmetry; apply Nat.ltb_ge; lia).
    reflexivity. }
  replace (index <? (R + 1) * (R + 1)) with true
    by (symmetry; apply Nat.ltb_lt; lia).
  destruct (Nat.ltb_spec x R) as [Hx|Hx]; [|reflexivity].
  destruct (Nat.ltb_spec y R) as [Hy|Hy]; [|reflexivity].
  cbn [andb indices].
  destruct (Nat.leb_spec (6 * (y * R + x)) j) as [Hlo|Hlo].
  - destruct (Nat.ltb_spec j (6 * (y * R + x) + 6)) as [Hhi|Hhi].
    + cbn [andb].
      assert (Hk : exists k, k < 6 /\ j = 6 * (y * R + x) + k)
        by (exists (j - 6 * (y * R + x)); lia).
      destruct Hk as (k & Hk & ->).
      replace (6 * (y * R + x) + k - 6 * (y * R + x)) with k by lia.
      unfold write, Spec.cellTriangles, Spec.vertexIndex.
      do 6 (destruct k as [|k];
            [repeat (match goal with
                     | |- context [Nat.eqb ?a ?b] =>
                         destruct (Nat.eqb_spec a b); try lia
                     end);
             cbn [nth_error]; f_equal; lia|]).
      lia.
    + cbn [andb]. unfold write.
      repeat (match goal with
              | |- context [Nat.eqb ?a ?b] => destruct (Nat.eqb_spec a b); try lia
              end).
      reflexivity.
  - cbn [andb]. unfold write.
    repeat (match goal with
            | |- context [Nat.eqb ?a ?b] => destruct (Nat.eqb_spec a b); try lia
            end).
    reflexivity.
Qed.


Lemma cell_index_injective (R x y x' y' : nat) :
  x < R -> x' < R -> y * R + x = y' * R + x' -> x = x' /\ y = y'.
Proof.
  intros Hx Hx' Heq.
  assert (Hy : y = y').
  { rewrite (Nat.div_unique (y * R + x) R y x Hx ltac:(lia)).
    rewrite (Nat.div_unique (y' * R + x') R y' x' Hx' ltac:(lia)).
    rewrite Heq. reflexivity. }
  subst y'. split; lia.
Qed.

Lemma threadWrites_true (R index j : nat) :
  threadWrites R index j = true ->
  index < (R + 1) * (R + 1) /\ index mod (R + 1) < R /\ index / (R + 1) < R
  /\ 6 * ((index / (R + 1)) * R + index mod (R + 1)) <= j
     < 6 * ((index / (R + 1)) * R + index mod (R + 1)) + 6.
Proof.
  unfold threadWrites. intros H.
  repeat (apply andb_prop in H as [H ?]).
  repeat match goal with
         | H : (_ <? _) = true |- _ => apply Nat.ltb_lt in H
         | H : (_ <=? _) = true |- _ => apply Nat.leb_le in H
         end.
  lia.
Qed.




End MetalMeshFacts.

Section MeshClaim.
Import MetalMesh.
Local Open Scope nat_scope.









(** The mesh of resolution 2, as [createMesh] builds it. *)
Example createMesh_2_indices :
  WebGL.indices (WebGL.createMesh 2)
  = [0; 3; 1; 1; 3; 4;  1; 4; 2; 2; 4; 5;  3; 6; 4; 4; 6; 7;  4; 7; 5; 5; 7; 8].
Proof. reflexivity. Qed.

(** The shader's fixed resolution fits 16-bit indices: the [Uint16Array]
    upload of the web renderer at resolution 32 keeps every entry. *)
Example Uint16Array_keeps_indices_32 :
  WebGL.Uint16Array (WebGL.indices (WebGL.createMesh 32))
  = map Z.of_nat (WebGL.indices (WebGL.createMesh 32)).
Proof. vm_compute. reflexivity. Qed.

End MeshClaim.

(** ** The render tick of the web renderer *)
Section RenderTick.
Import WebGL WebHost Inputs.

(** The guard of [render] lets the body run only on a processor that has
    a video and a program, where the body does not throw. *)
Lemma render_returns this t : exists calls, render this t = Normal calls.
Proof.
  unfold render, renderBody.
  destruct (negb (isInitialized this)); [eexists; reflexivity|].
  destruct (video this) as [v|]; [|eexists; reflexivity].
  destruct (shaderProgram this) as [program|]; eexists; reflexivity.
Qed.

(** Without the guard the body would throw. *)
Lemma renderBody_throws this t :
  video this = None \/ shaderProgram this = None ->
  renderBody this t = TypeError.
Proof.
  unfold renderBody. intros [H|H]; rewrite H; [reflexivity|].
  destruct (video this); reflexivity.
Qed.

Lemma render_not_ready this t :
  isInitialized this = false \/ video this = None \/ shaderProgram this = None ->
  render this t = Normal [].
Proof.
  intros Hnot. unfold render.
  destruct (isInitialized this); [|reflexivity]. simpl.
  destruct (video this) as [v|]; [|reflexivity].
  destruct (shaderProgram this) as [program|]; [|reflexivity].
  destruct Hnot as [H|[H|H]]; discriminate H.
Qed.

(** C9, as amended.  [render] never throws: its guard lets the body run
    only on a processor with a video and a program, and without either
    the body would throw.  When the processor is not initialised, has no
    video or has no shader program, the tick issues no GL call at all.
    When a video is loaded but its current frame is not decoded yet
    ([readyState < HAVE_CURRENT_DATA]) only the texture upload is skipped:
    the tick sets the viewport, clears the canvas, selects the program,
    sets up the two attributes, uploads the resolution, the time, the
    global strength and the quality of the current settings and the
    arrays of the current control points, binds the texture of the last
    upload and draws the mesh, in this order; and the tick of the same
    processor with a decoded frame issues the same calls after the two
    calls of the upload. *)
Theorem render_tick_without_frame :
  forall (this : VideoProcessor) (t : option R),
    (exists calls, render this t = Normal calls)
    /\ (video this = None \/ shaderProgram this = None ->
        renderBody this t = TypeError)
    /\ (isInitialized this = false \/ video this = None \/ shaderProgram this = None ->
        render this t = Normal [])
    /\ (forall v program,
          isInitialized this = true -> video this = Some v ->
          shaderProgram this = Some program ->
          (readyState v < HAVE_CURRENT_DATA)%nat ->
          render this t
          = Normal
              [ viewport 0 0 (canvas_width this) (canvas_height this);
                clearColor 0 0 0 1;
                clear;
                useProgram program;
                bindArrayBuffer (vertexBuffer this);
                enableVertexAttribArray "a_position";
                vertexAttribPointer "a_position" 2 0;
                enableVertexAttribArray "a_texCoord";
                vertexAttribPointer "a_texCoord" 2
                  ((meshResolution this + 1) * (meshResolution this + 1) * 2 * 4);
                uniform2f "u_resolution" (IZR (canvas_width this))
                  (IZR (canvas_height this));
                uniform1f "u_time" (orZero t);
                uniform1f "u_globalStrength" (settings_strength (warpSettings this));
                uniform1f "u_quality" (qualityValue (quality (warpSettings this)));
                uniform1i "u_numControlPoints"
                  (Z.of_nat (Nat.min (List.length (controlPoints this)) 16));
                uniform2fv "u_controlPoints"
                  (points (fillPointArrays (controlPoints this)));
                uniform1fv "u_controlStrengths"
                  (strengths (fillPointArrays (controlPoints this)));
                uniform1fv "u_controlRadii"
                  (radii (fillPointArrays (controlPoints this)));
                activeTexture 0;
                bindTexture (texture this);
                uniform1i "u_texture" 0;
                bindElementArrayBuffer (indexBuffer this);
                drawElements (meshResolution this * meshResolution this * 6) ]
          /\ (forall v', (HAVE_CURRENT_DATA <= readyState v')%nat ->
                callsOf (render (withVideo this v') t)
                = bindTexture (texture this) :: texImage2D (currentFrame v')
                    :: callsOf (render this t))).
Proof.
  intros this t. split; [apply render_returns|].
  split; [apply renderBody_throws|].
  split; [apply render_not_ready|].
  intros v program Hinit Hvideo Hprogram Hready.
  assert (Hpending : (HAVE_CURRENT_DATA <=? readyState v)%nat = false)
    by (apply Nat.leb_gt; exact Hready).
  split.
  - unfold render, renderBody. rewrite Hinit, Hvideo, Hprogram, Hpending. reflexivity.
  - intros v' Hready'.
    assert (Hdecoded : (HAVE_CURRENT_DATA <=? readyState v')%nat = true)
      by (apply Nat.leb_le; exact Hready').
    unfold render, renderBody, withVideo.
    cbn [isInitialized video shaderProgram texture vertexBuffer indexBuffer
         controlPoints warpSettings meshResolution canvas_width canvas_height].
    rewrite Hinit, Hvideo, Hprogram, Hpending, Hdecoded. reflexivity.
Qed.

Lemma render_tick_without_frame_witness :
  callsOf (render (withVideo (processor 300 150 pendingVideo [edgePoint] defaultSettings)
                     readyVideo) None)
  = bindTexture (texture (processor 300 150 pendingVideo [edgePoint] defaultSettings))
      :: texImage2D (currentFrame readyVideo)
      :: callsOf (render (processor 300 150 pendingVideo [edgePoint] defaultSettings) None).
Proof.
  apply (proj2 (proj2 (proj2 (proj2 (render_tick_without_frame
                                       (processor 300 150 pendingVideo [edgePoint]
                                          defaultSettings)
                                       None)))
                  pendingVideo 1%nat eq_refl eq_refl eq_refl
                  ltac:(unfold HAVE_CURRENT_DATA; simpl; lia))
           readyVideo).
  unfold HAVE_CURRENT_DATA; simpl; lia.
Defined.

(** C9 as stated fails when the frame is not decoded yet: the tick is not
    a no-op, it issues GL calls that overwrite the canvas. *)
Lemma render_pending_frame_is_not_a_noop :
  (readyState pendingVideo < HAVE_CURRENT_DATA)%nat
  /\ render (processor 300 150 pendingVideo [edgePoint] defaultSettings) None
     <> Normal []
  /\ existsb writesCanvas
       (callsOf (render (processor 300 150 pendingVideo [edgePoint] defaultSettings) None))
     = true.
Proof.
  split; [unfold HAVE_CURRENT_DATA; simpl; lia|].
  split; [discriminate|reflexivity].
Qed.

(** [exportVideo], by contrast, always throws. *)
Lemma exportVideo_throws this : exists message, exportVideo this = Throw message.
Proof. unfold exportVideo. destruct (video this); eexists; reflexivity. Qed.

End RenderTick.

(** ** The control point store *)
Section StoreFacts.
Import Store Inputs.

Lemma init_inRange (uuid : nat) (p : CGPoint) :
  0 <= x p <= 1 -> 0 <= y p <= 1 -> inRange (ControlPoint_init uuid p).
Proof.
  intros Hx Hy. unfold inRange, ControlPoint_init; simpl. lra.
Qed.

Lemma clamp01 (a : R) : 0 <= Rmax 0 (Rmin 1 a) <= 1.
Proof.
  unfold Rmax, Rmin.
  destruct (Rle_dec 1 a); destruct (Rle_dec 0 _); lra.
Qed.

Lemma modifyAt_Forall (P : ControlPoint -> Prop) (f : ControlPoint -> ControlPoint)
    (l : list ControlPoint) (index : nat) :
  (forall c, P c -> P (f c)) -> Forall P l -> Forall P (modifyAt l index f).
Proof.
  intros Hf. revert index. induction l as [|c l IH]; intros index Hall; [constructor|].
  inversion Hall as [|? ? Hc Hl]; subst.
  destruct index as [|k]; simpl; constructor; auto.
Qed.

Lemma modifyAt_nth_error (f : ControlPoint -> ControlPoint) (l : list ControlPoint)
    (index : nat) (c : ControlPoint) :
  nth_error l index = Some c -> nth_error (modifyAt l index f) index = Some (f c).
Proof.
  revert index. induction l as [|c0 l IH]; intros [|k] Hnth; simpl in *;
    try discriminate.
  - injection Hnth as ->. reflexivity.
  - apply IH, Hnth.
Qed.

Lemma addControlPoint_invariant size uuid cps sel location :
  rangeInvariant cps -> rangeInvariant (fst (addControlPoint size uuid cps sel location)).
Proof.
  intros Hinv. unfold addControlPoint.
  destruct (negb (equalToZero size)); simpl; [|exact Hinv].
  apply Forall_app. split; [exact Hinv|].
  constructor; [|constructor].
  apply init_inRange; simpl; apply clamp01.
Qed.

Lemma updateControlPoint_invariant size cps pointId (s r : option R) :
  rangeInvariant cps ->
  (forall s', s = Some s' -> 0 <= s' <= 2) ->
  (forall r', r = Some r' -> 0 < r' <= 1) ->
  rangeInvariant (updateControlPoint size cps pointId None s r).
Proof.
  intros Hinv Hs Hr. unfold updateControlPoint.
  destruct (firstIndex cps pointId) as [index|]; [|exact Hinv].
  assert (Hinv2 : rangeInvariant
            match s with
            | Some strength => modifyAt cps index (setStrength strength)
            | None => cps
            end).
  { destruct s as [s'|]; [|exact Hinv].
    apply modifyAt_Forall; [|exact Hinv].
    intros c (Hp & _ & Hrad). unfold inRange; simpl.
    specialize (Hs s' eq_refl). tauto. }
  destruct r as [r'|]; [|exact Hinv2].
  apply modifyAt_Forall; [|exact Hinv2].
  intros c (Hp & Hstr & _). unfold inRange; simpl.
  specialize (Hr r' eq_refl). tauto.
Qed.

Lemma updateControlPoint_verbatim size cps pointId (s r : R) index c :
  firstIndex cps pointId = Some index ->
  nth_error cps index = Some c ->
  nth_error (updateControlPoint size cps pointId None (Some s) (Some r)) index
  = Some (setRadius r (setStrength s c)).
Proof.
  intros Hidx Hnth. unfold updateControlPoint. rewrite Hidx.
  apply modifyAt_nth_error, modifyAt_nth_error, Hnth.
Qed.

Lemma addControlPoint_creates size uuid cps sel location :
  equalToZero size = false ->
  exists p,
    addControlPoint size uuid cps sel location = (cps ++ [p], Some uuid)
    /\ id p = uuid
    /\ position p = mkCGPoint (Rmax 0 (Rmin 1 (x location / width size)))
                              (Rmax 0 (Rmin 1 (y location / height size)))
    /\ type p = stretch /\ strength p = 1.0 /\ radius p = 0.1 /\ isLocked p = false
    /\ inRange p.
Proof.
  intros Hsize. unfold addControlPoint. rewrite Hsize. cbn [negb].
  eexists. split; [reflexivity|]. cbn [ControlPoint_init id position type strength
                                      radius isLocked].
  repeat split; try reflexivity; try apply clamp01; simpl; lra.
Qed.

Lemma updateControlPoint_stores size cps pointId (s r : option R) index c :
  firstIndex cps pointId = Some index ->
  nth_error cps index = Some c ->
  nth_error (updateControlPoint size cps pointId None s r) index
  = Some (mkControlPoint (id c) (position c) (type c)
            (match s with Some s' => s' | None => strength c end)
            (match r with Some r' => r' | None => radius c end)
            (isLocked c)).
Proof.
  intros Hidx Hnth. unfold updateControlPoint. rewrite Hidx.
  destruct s as [s'|], r as [r'|].
  - rewrite (modifyAt_nth_error _ _ _ (setStrength s' c)); [reflexivity|].
    apply modifyAt_nth_error, Hnth.
  - rewrite (modifyAt_nth_error _ _ _ c Hnth). reflexivity.
  - rewrite (modifyAt_nth_error _ _ _ c Hnth). reflexivity.
  - rewrite Hnth. destruct c; reflexivity.
Qed.

Lemma onUpdate_invariant cps point updatedPoint :
  rangeInvariant cps -> inRange updatedPoint ->
  rangeInvariant (onUpdate cps point updatedPoint).
Proof.
  intros Hinv Hnew. unfold onUpdate.
  destruct (firstIndex cps (id point)) as [index|]; [|exact Hinv].
  apply modifyAt_Forall; [|exact Hinv]. intros _ _. exact Hnew.
Qed.

Lemma onUpdate_stores cps point updatedPoint index :
  firstIndex cps (id point) = Some index ->
  (index < List.length cps)%nat ->
  nth_error (onUpdate cps point updatedPoint) index = Some updatedPoint.
Proof.
  intros Hidx Hlt. unfold onUpdate. rewrite Hidx. clear Hidx.
  revert index Hlt. induction cps as [|c l IH]; intros index Hlt; simpl in Hlt; [lia|].
  destruct index as [|k]; simpl; [reflexivity|]. apply IH. lia.
Qed.

Lemma firstIndex_lt cps pointId index :
  firstIndex cps pointId = Some index -> (index < List.length cps)%nat.
Proof.
  revert index. induction cps as [|c l IH]; intros index Hidx; [discriminate Hidx|].
  simpl in Hidx. destruct (id c =? pointId)%nat.
  - injection Hidx as <-. simpl. lia.
  - destruct (firstIndex l pointId) as [k|]; [|discriminate Hidx].
    injection Hidx as <-. simpl. specialize (IH k eq_refl). lia.
Qed.

(** C10, as amended.  Creating a point through the editor
    ([VideoEditorView.addControlPoint]) appends one point, with its
    position clamped into the unit square, strength 1.0 and radius 0.1 (and
    does nothing for a view of size zero): creation keeps the range
    invariant.  [updateControlPoint] stores the strength and the radius it
    is given, unclamped: after an update of the strength, of the radius or
    of both, the first point with the id carries exactly the values given
    and keeps the others, and the invariant is kept when the values given
    are in range.  The ranges are those of the editing sliders: a value of
    the range of the strength slider ([0...2]) or of the radius slider
    ([0.05...0.5]), stored as it is through [onUpdate], keeps the
    invariant. *)
Theorem store_writes_and_ranges :
  (forall size uuid cps sel location,
     equalToZero size = false ->
     exists p,
       addControlPoint size uuid cps sel location = (cps ++ [p], Some uuid)
       /\ id p = uuid
       /\ position p = mkCGPoint (Rmax 0 (Rmin 1 (x location / width size)))
                                 (Rmax 0 (Rmin 1 (y location / height size)))
       /\ type p = stretch /\ strength p = 1.0 /\ radius p = 0.1 /\ isLocked p = false
       /\ inRange p)
  /\ (forall size uuid cps sel location,
        equalToZero size = true ->
        addControlPoint size uuid cps sel location = (cps, sel))
  /\ (forall size uuid cps sel location,
        rangeInvariant cps ->
        rangeInvariant (fst (addControlPoint size uuid cps sel location)))
  /\ (forall size cps pointId (s r : option R) index c,
        firstIndex cps pointId = Some index ->
        nth_error cps index = Some c ->
        nth_error (updateControlPoint size cps pointId None s r) index
        = Some (mkControlPoint (id c) (position c) (type c)
                  (match s with Some s' => s' | None => strength c end)
                  (match r with Some r' => r' | None => radius c end)
                  (isLocked c)))
  /\ (forall size cps pointId (s r : option R),
        rangeInvariant cps ->
        (forall s', s = Some s' -> 0 <= s' <= 2) ->
        (forall r', r = Some r' -> 0 < r' <= 1) ->
        rangeInvariant (updateControlPoint size cps pointId None s r))
  /\ (forall cps point newValue index,
        rangeInvariant cps -> In point cps ->
        contains strengthRange newValue ->
        firstIndex cps (id point) = Some index ->
        rangeInvariant (strengthSliderSet cps point newValue)
        /\ nth_error (strengthSliderSet cps point newValue) index
           = Some (setStrength newValue point))
  /\ (forall cps point newValue index,
        rangeInvariant cps -> In point cps ->
        contains radiusRange newValue ->
        firstIndex cps (id point) = Some index ->
        rangeInvariant (radiusSliderSet cps point newValue)
        /\ nth_error (radiusSliderSet cps point newValue) index
           = Some (setRadius newValue point)).
Proof.
  split; [apply addControlPoint_creates|].
  split.
  { intros size uuid cps sel location Hzero. unfold addControlPoint.
    rewrite Hzero. reflexivity. }
  split; [apply addControlPoint_invariant|].
  split; [apply updateControlPoint_stores|].
  split; [apply updateControlPoint_invariant|].
  split.
  - intros cps point v index Hinv Hin [Hlo Hhi] Hidx. cbn [lowerBound upperBound strengthRange] in *.
    assert (Hp : inRange point) by (unfold rangeInvariant in Hinv;
                                    rewrite Forall_forall in Hinv; apply Hinv, Hin).
    split.
    + apply onUpdate_invariant; [exact Hinv|].
      destruct Hp as (Hpos & _ & Hrad). unfold inRange; simpl. tauto.
    + apply onUpdate_stores; [exact Hidx|]. apply (firstIndex_lt _ _ _ Hidx).
  - intros cps point v index Hinv Hin [Hlo Hhi] Hidx. cbn [lowerBound upperBound radiusRange] in *.
    assert (Hp : inRange point) by (unfold rangeInvariant in Hinv;
                                    rewrite Forall_forall in Hinv; apply Hinv, Hin).
    split.
    + apply onUpdate_invariant; [exact Hinv|].
      destruct Hp as (Hpos & Hstr & _). unfold inRange; simpl.
      split; [exact Hpos|]. split; [exact Hstr|]. lra.
    + apply onUpdate_stores; [exact Hidx|]. apply (firstIndex_lt _ _ _ Hidx).
Qed.

Lemma storedPoint_inRange : rangeInvariant [storedPoint].
Proof.
  constructor; [|constructor].
  apply init_inRange; simpl; lra.
Qed.

Lemma store_writes_and_ranges_witness :
  rangeInvariant
    (fst (addControlPoint (mkCGSize 400 300) 2 [storedPoint] None (mkCGPoint 500 (-20))))
  /\ rangeInvariant (updateControlPoint hdSize [storedPoint] 1 None (Some 1.5) None)
  /\ rangeInvariant (radiusSliderSet [storedPoint] storedPoint 0.25).
Proof.
  split; [|split].
  - apply (proj1 (proj2 (proj2 store_writes_and_ranges))). exact storedPoint_inRange.
  - apply (proj1 (proj2 (proj2 (proj2 (proj2 store_writes_and_ranges))))).
    + exact storedPoint_inRange.
    + intros s' Hs. injection Hs as <-. lra.
    + intros r' Hr. discriminate Hr.
  - apply (proj2 (proj2 (proj2 (proj2 (proj2 (proj2 store_writes_and_ranges)))))
             [storedPoint] storedPoint 0.25 0%nat).
    + exact storedPoint_inRange.
    + left. reflexivity.
    + unfold contains, radiusRange; simpl; lra.
    + reflexivity.
Defined.

(** C10 as stated fails: [updateControlPoint] stores a strength of 5
    as it is, outside [0,2]. *)
Lemma update_stores_out_of_range_strength :
  rangeInvariant [storedPoint]
  /\ updateControlPoint hdSize [storedPoint] 1 None (Some 5) None
     = [setStrength 5 storedPoint]
  /\ ~ rangeInvariant (updateControlPoint hdSize [storedPoint] 1 None (Some 5) None).
Proof.
  split; [exact storedPoint_inRange|].
  split; [reflexivity|].
  intros Hinv. inversion Hinv as [|? ? Hc _]; subst.
  destruct Hc as (_ & Hstr & _). simpl in Hstr. lra.
Qed.

Lemma removeControlPoint_invariant cps pointId :
  rangeInvariant cps -> rangeInvariant (removeControlPoint cps pointId).
Proof.
  intros Hinv. unfold removeControlPoint, rangeInvariant in *.
  rewrite Forall_forall in *. intros c Hin.
  apply filter_In in Hin as [Hin _]. apply Hinv, Hin.
Qed.

(** [VideoProcessor.addControlPoint] normalises the position without
    clamping it: a tap at twice the video width is stored at x = 2. *)
Example processor_add_keeps_position_unclamped :
  x (position (ControlPoint_init 2 (fromViewCoordinates (mkCGPoint 3840 540) hdSize))) = 2
  /\ VideoProcessor_addControlPoint hdSize 2 [storedPoint] (mkCGPoint 3840 540)
     = [storedPoint; ControlPoint_init 2 (fromViewCoordinates (mkCGPoint 3840 540) hdSize)].
Proof. split; [simpl; lra | reflexivity]. Qed.

End StoreFacts.

(** ** The other stages of the Metal pipeline *)
Section MetalStagesFacts.
Import Shader Metal MetalHost MetalStages.

Lemma floor_bounds (x : R) : floor x <= x < floor x + 1.
Proof. unfold floor. pose proof (base_Int_part x). lra. Qed.

Lemma floor_IZR (n : Z) : floor (IZR n) = IZR n.
Proof.
  unfold floor. f_equal.
  pose proof (base_Int_part (IZR n)) as [H1 H2].
  apply le_IZR in H1.
  assert (H3 : (n < Int_part (IZR n) + 1)%Z).
  { apply lt_IZR. rewrite plus_IZR. lra. }
  lia.
Qed.

Lemma to_uint_INR (n : nat) : to_uint (INR n) = n.
Proof.
  unfold to_uint. rewrite INR_IZR_INZ.
  pose proof (floor_IZR (Z.of_nat n)) as H. unfold floor in H.
  apply eq_IZR in H. rewrite H. apply Nat2Z.id.
Qed.

(** The iteration adds to the accumulator a vector that does not depend
    on the accumulator. *)
Lemma warpIteration_adds u p w c :
  warpIteration u p w c = vadd w (contribution u p c).
Proof.
  unfold contribution, warpIteration.
  destruct (Rge_dec _ _); [apply float2_eq; simpl; ring|].
  destruct (Rlt_dec _ _); [apply float2_eq; simpl; ring|].
  destruct (type c =? 0)%Z; apply float2_eq; simpl; ring.
Qed.

Lemma skipn_nth {A : Type} (d : A) (l : list A) (i : nat) :
  (i < List.length l)%nat -> skipn i l = nth i l d :: skipn (S i) l.
Proof.
  revert i. induction l as [|a l IH]; intros i Hi; simpl in Hi; [lia|].
  destruct i as [|i]; [reflexivity|].
  simpl. apply IH. lia.
Qed.

(** The loop over a point list laid out in the buffer is a left fold over
    its first 16 points. *)
Lemma warpLoop_fold u (l : list ControlPoint) p (fuel i : nat) (w : float2) :
  numControlPoints u = Z.of_nat (List.length l) ->
  (fuel + i = 16)%nat ->
  warpLoop u (bufferOf l) p fuel i w
  = fold_left (warpIteration u p) (skipn i (firstn 16 l)) w.
Proof.
  intros Hn. revert i w. induction fuel as [|fuel IH]; intros i w Hsum.
  - assert (i = 16)%nat by lia. subst i. cbn [warpLoop].
    rewrite skipn_all2; [reflexivity|]. rewrite length_firstn. lia.
  - cbn [warpLoop]. rewrite Hn.
    destruct (Nat.lt_ge_cases i (List.length l)) as [Hin|Hout].
    + replace (Z.of_nat i <? Z.of_nat (List.length l))%Z with true
        by (symmetry; apply Z.ltb_lt; lia).
      replace (Z.of_nat i <? 16)%Z with true by (symmetry; apply Z.ltb_lt; lia).
      cbn [andb].
      rewrite (skipn_nth zeroPoint (firstn 16 l) i)
        by (rewrite length_firstn; lia).
      cbn [fold_left]. rewrite IH by lia.
      unfold bufferOf. rewrite nth_firstn.
      replace (i <? 16)%nat with true by (symmetry; apply Nat.ltb_lt; lia).
      reflexivity.
    + replace (Z.of_nat i <? Z.of_nat (List.length l))%Z with false
        by (symmetry; apply Z.ltb_ge; lia).
      cbn [andb].
      rewrite skipn_all2; [reflexivity|]. rewrite length_firstn. lia.
Qed.

Lemma vadd_assoc a b c : vadd (vadd a b) c = vadd a (vadd b c).
Proof. apply float2_eq; simpl; ring. Qed.

Lemma vadd_comm a b : vadd a b = vadd b a.
Proof. apply float2_eq; simpl; ring. Qed.

Lemma vadd_zero a : vadd a (splat 0) = a.
Proof. apply float2_eq; simpl; ring. Qed.

Lemma fold_left_adds u p (l : list ControlPoint) (w : float2) :
  fold_left (warpIteration u p) l w = vadd w (vsum (map (contribution u p) l)).
Proof.
  revert w. induction l as [|c l IH]; intros w; simpl.
  - symmetry. apply vadd_zero.
  - rewrite IH, warpIteration_adds. apply vadd_assoc.
Qed.

Lemma contribution_withCount u n p c :
  contribution (withCount u n) p c = contribution u p c.
Proof. unfold contribution. apply warpIteration_uniforms; reflexivity. Qed.

(** [displace] as a sum: the clamp of the vertex plus the contributions
    of the first 16 points. *)
Lemma displace_sum p (l : list ControlPoint) u :
  displace p l u
  = clamp2 (vadd p (vsum (map (contribution u p) (firstn 16 l))))
      (splat 0.0) (splat 1.0).
Proof.
  unfold displace, applyWarp, warpAccumulate.
  rewrite (warpLoop_fold _ l p 16 0 p) by reflexivity.
  cbn [skipn]. rewrite fold_left_adds. reflexivity.
Qed.

Lemma contribution_out_of_reach u p c :
  reaches p c = false -> contribution u p c = splat 0.
Proof.
  unfold reaches, contribution, warpIteration.
  destruct (Rge_dec _ _); [reflexivity|].
  destruct (Rlt_dec _ _); [reflexivity|]. intros H. discriminate H.
Qed.

Lemma vsum_filter_reaches u p (l : list ControlPoint) :
  vsum (map (contribution u p) (filter (reaches p) l))
  = vsum (map (contribution u p) l).
Proof.
  induction l as [|c l IH]; [reflexivity|].
  simpl. destruct (reaches p c) eqn:Hr; simpl.
  - rewrite IH. reflexivity.
  - rewrite IH, (contribution_out_of_reach u p c Hr).
    apply float2_eq; simpl; ring.
Qed.

End MetalStagesFacts.

Section MetalStagesClaims.
Import Shader Metal MetalHost MetalStages Inputs.

Lemma firstn_short {A : Type} (n : nat) (l : list A) :
  (List.length l <= n)%nat -> firstn n l = l.
Proof. intros H. apply firstn_all2, H. Qed.

Lemma filter_length_le {A : Type} (f : A -> bool) (l : list A) :
  (List.length (filter f l) <= List.length l)%nat.
Proof.
  induction l as [|a l IH]; simpl; [lia|]. destruct (f a); simpl; lia.
Qed.

Lemma fold_left_contributions u p (l : list ControlPoint) (w : float2) :
  fold_left (warpIteration u p) l w = fold_left vadd (map (contribution u p) l) w.
Proof.
  revert w. induction l as [|c l IH]; intros w; [reflexivity|].
  cbn [fold_left map]. rewrite warpIteration_adds. apply IH.
Qed.

(** X1.  The control points of the Metal [applyWarp] do not interact: the
    vector a point adds to the accumulator is computed from the original
    vertex position, not from the accumulator, so it is the same whatever
    points come before it.  The displaced vertex is the clamp of the
    vertex plus the contributions of the first 16 points, added one after
    the other in buffer order. *)
Theorem metal_points_contribute_independently :
  forall (p : float2) (l : list ControlPoint) (u : WarpUniforms),
    (forall (w : float2) (c : ControlPoint),
       warpIteration u p w c = vadd w (warpIteration u p (splat 0) c))
    /\ displace p l u
       = clamp2 (fold_left vadd
                   (map (fun c => warpIteration u p (splat 0) c) (firstn 16 l)) p)
           (splat 0.0) (splat 1.0).
Proof.
  intros p l u. split.
  - intros w c. apply warpIteration_adds.
  - unfold displace, applyWarp, warpAccumulate.
    rewrite (warpLoop_fold _ l p 16 0 p) by reflexivity.
    cbn [skipn]. rewrite fold_left_contributions. reflexivity.
Qed.

(** X2.  Only the points that reach the vertex count.  Points at a
    distance of at least their radius, or closer than 0.001, can be dropped
    from a list of at most 16 points without changing [displace]; and if
    none of the first 16 points reaches a vertex of the unit square, the
    vertex stays where it is. *)
Theorem metal_only_reaching_points_matter :
  (forall (p : float2) (l : list ControlPoint) (u : WarpUniforms),
     (List.length l <= 16)%nat ->
     displace p l u = displace p (filter (reaches p) l) u)
  /\ (forall (p : float2) (l : list ControlPoint) (u : WarpUniforms),
        inUnitSquare p ->
        (forall c, In c (firstn 16 l) -> reaches p c = false) ->
        displace p l u = p).
Proof.
  split.
  - intros p l u Hlen. rewrite !displace_sum.
    rewrite (firstn_short 16 l) by exact Hlen.
    rewrite (firstn_short 16 (filter (reaches p) l))
      by (pose proof (filter_length_le (reaches p) l); lia).
    rewrite vsum_filter_reaches. reflexivity.
  - intros p l u Hp Hout. rewrite displace_sum.
    replace (vsum (map (contribution u p) (firstn 16 l))) with (splat 0).
    + rewrite vadd_zero. apply clamp2_inside, Hp.
    + symmetry. induction (firstn 16 l) as [|c l0 IH]; [reflexivity|].
      simpl. rewrite IH by (intros c' Hc'; apply Hout; right; exact Hc').
      rewrite (contribution_out_of_reach u p c) by (apply Hout; left; reflexivity).
      apply float2_eq; simpl; ring.
Qed.

Lemma metal_only_reaching_points_matter_witness :
  displace (mkFloat2 0.75 0.5) [centerPoint; rightPoint] linearParams
  = displace (mkFloat2 0.75 0.5)
      (filter (reaches (mkFloat2 0.75 0.5)) [centerPoint; rightPoint]) linearParams.
Proof.
  apply (proj1 metal_only_reaching_points_matter). simpl. lia.
Defined.

Lemma contribution_scales u p c (k : R) :
  contribution (withGlobalStrength u (k * globalStrength u)) p c
  = vscale (contribution u p c) k.
Proof.
  unfold contribution, warpIteration.
  cbn [globalStrength interpolationType withGlobalStrength].
  destruct (Rge_dec _ _); [apply float2_eq; simpl; ring|].
  destruct (Rlt_dec _ _); [apply float2_eq; simpl; ring|].
  destruct (type c =? 0)%Z; apply float2_eq; simpl; ring.
Qed.

Lemma warpLoop_scales u buf p (k : R) (fuel i : nat) (w w' : float2) :
  vsub w' p = vscale (vsub w p) k ->
  vsub (warpLoop (withGlobalStrength u (k * globalStrength u)) buf p fuel i w') p
  = vscale (vsub (warpLoop u buf p fuel i w) p) k.
Proof.
  revert i w w'. induction fuel as [|fuel IH]; intros i w w' Hinv; [exact Hinv|].
  cbn [warpLoop numControlPoints withGlobalStrength].
  destruct (_ && _)%bool; [|exact Hinv].
  apply IH. rewrite !warpIteration_adds, contribution_scales.
  apply (f_equal vx) in Hinv as Hx. apply (f_equal vy) in Hinv as Hy.
  simpl in Hx, Hy. apply float2_eq; simpl; lra.
Qed.

(** X3.  The displacement [applyWarp] accumulates (before the final
    clamp) is linear in [globalStrength]: multiplying the global strength
    by [k] multiplies the displacement of every vertex by [k], for every
    buffer, count and kernel.  With [k = 0]: a global strength of zero
    leaves every vertex in place. *)
Theorem metal_displacement_scales_with_global_strength :
  forall (p : float2) (buf : nat -> ControlPoint) (u : WarpUniforms) (k : R),
    vsub (warpAccumulate p buf (withGlobalStrength u (k * globalStrength u))) p
    = vscale (vsub (warpAccumulate p buf u) p) k.
Proof.
  intros p buf u k. unfold warpAccumulate. apply warpLoop_scales.
  apply float2_eq; simpl; ring.
Qed.

(** X4.  [warpVertexShader] always emits a position inside the clip
    square [-1,1] x [-1,1], with z = 0 and w = 1, and hands the texture
    coordinates on unchanged.  With no control points a vertex (u, v) of
    the unit square goes to (2u - 1, 1 - 2v): the y axis is flipped. *)
Theorem warpVertexShader_stays_in_clip_space :
  forall (vin : VertexIn) (buf : nat -> ControlPoint) (u : WarpUniforms),
    (-1 <= cx (out_position (warpVertexShader vin buf u)) <= 1
     /\ -1 <= cy (out_position (warpVertexShader vin buf u)) <= 1
     /\ cz (out_position (warpVertexShader vin buf u)) = 0
     /\ cw (out_position (warpVertexShader vin buf u)) = 1
     /\ out_texCoords (warpVertexShader vin buf u) = texCoords vin)
    /\ ((numControlPoints u <= 0)%Z -> inUnitSquare (position vin) ->
        cx (out_position (warpVertexShader vin buf u)) = 2 * vx (position vin) - 1
        /\ cy (out_position (warpVertexShader vin buf u)) = 1 - 2 * vy (position vin)).
Proof.
  intros vin buf u. split.
  - pose proof (applyWarp_in_unit_square (position vin) buf u) as [Hx Hy].
    unfold warpVertexShader. set (wp := applyWarp _ _ _) in *. clearbody wp.
    simpl. repeat split; first [lra | reflexivity].
  - intros Hn Hin. unfold warpVertexShader, applyWarp.
    rewrite warpAccumulate_no_points by exact Hn.
    rewrite clamp2_inside by exact Hin. simpl. lra.
Qed.

Lemma warpVertexShader_stays_in_clip_space_witness :
  cx (out_position (warpVertexShader (mkVertexIn (mkFloat2 0.25 0.75) (mkFloat2 0.25 0.75))
                      (bufferOf []) (withCount linearParams 0)))
  = 2 * 0.25 - 1
  /\ cy (out_position (warpVertexShader (mkVertexIn (mkFloat2 0.25 0.75) (mkFloat2 0.25 0.75))
                         (bufferOf []) (withCount linearParams 0)))
     = 1 - 2 * 0.75.
Proof.
  apply (proj2 (warpVertexShader_stays_in_clip_space
                  (mkVertexIn (mkFloat2 0.25 0.75) (mkFloat2 0.25 0.75))
                  (bufferOf []) (withCount linearParams 0))).
  - simpl. lia.
  - unfold inUnitSquare; simpl; lra.
Defined.

Lemma floor_quotient_bounds (c n : R) :
  0 < n -> c - 1 / n < floor (c * n) / n <= c.
Proof.
  intros Hn. pose proof (floor_bounds (c * n)) as [Hlo Hhi].
  assert (Hinv : 0 < / n) by (apply Rinv_0_lt_compat; exact Hn).
  split.
  - apply (Rmult_lt_reg_r n); [exact Hn|].
    unfold Rdiv. rewrite Rmult_assoc, Rinv_l by lra.
    rewrite Rmult_minus_distr_r, Rmult_assoc, Rinv_l by lra. lra.
  - apply (Rmult_le_reg_r n); [exact Hn|].
    unfold Rdiv. rewrite Rmult_assoc, Rinv_l by lra. lra.
Qed.

(** X5.  [warpFragmentShader] never changes alpha.  For [time <= 0] it
    returns the sampled colour unchanged; for [time > 0] every colour
    channel is lowered by less than 0.1 / 64 and never raised. *)
Theorem warpFragmentShader_changes_little :
  forall (vin : VertexOut) (sample : float2 -> float4) (u : WarpUniforms),
    cw (warpFragmentShader vin sample u) = cw (sample (out_texCoords vin))
    /\ (time u <= 0 -> warpFragmentShader vin sample u = sample (out_texCoords vin))
    /\ (0 < time u ->
        cx (sample (out_texCoords vin)) - 0.1 / 64
          < cx (warpFragmentShader vin sample u) <= cx (sample (out_texCoords vin))
        /\ cy (sample (out_texCoords vin)) - 0.1 / 64
            < cy (warpFragmentShader vin sample u) <= cy (sample (out_texCoords vin))
        /\ cz (sample (out_texCoords vin)) - 0.1 / 64
            < cz (warpFragmentShader vin sample u) <= cz (sample (out_texCoords vin))).
Proof.
  intros vin sample u. unfold warpFragmentShader.
  set (color := sample (out_texCoords vin)).
  destruct (Rgt_dec (time u) 0.0) as [Hpos|Hneg].
  - split; [reflexivity|]. split; [intros H; unfold Rgt in Hpos; lra|].
    intros _. cbn [cx cy cz]. unfold mix.
    pose proof (floor_quotient_bounds (cx color) 64.0 ltac:(lra)).
    pose proof (floor_quotient_bounds (cy color) 64.0 ltac:(lra)).
    pose proof (floor_quotient_bounds (cz color) 64.0 ltac:(lra)).
    repeat split; lra.
  - split; [reflexivity|]. split; [reflexivity|].
    intros H. exfalso. apply Hneg. unfold Rgt. lra.
Qed.

Lemma warpFragmentShader_changes_little_witness :
  cx (mkFloat4 0.5 0.25 0.125 1) - 0.1 / 64
    < cx (warpFragmentShader (mkVertexOut (mkFloat4 0 0 0 1) origin)
            (fun _ => mkFloat4 0.5 0.25 0.125 1)
            (mkWarpUniforms origin 1 0 2 0))
    <= cx (mkFloat4 0.5 0.25 0.125 1).
Proof.
  apply (proj2 (proj2 (warpFragmentShader_changes_little
                         (mkVertexOut (mkFloat4 0 0 0 1) origin)
                         (fun _ => mkFloat4 0.5 0.25 0.125 1)
                         (mkWarpUniforms origin 1 0 2 0)))).
  simpl. lra.
Defined.

Lemma roundsWithin_nonneg fl eps tiny x :
  roundsWithin fl eps tiny -> tiny <= x -> 0 <= x ->
  x * (1 - eps) <= fl x <= x * (1 + eps).
Proof.
  intros (Heps & _ & Hfl) Htiny Hx. specialize (Hfl x).
  rewrite (Rabs_right x) in Hfl by lra. specialize (Hfl Htiny).
  unfold Rabs in Hfl. destruct (Rcase_abs (fl x - x)); lra.
Qed.

Lemma to_uint_between (p : R) (g : nat) :
  0 <= p -> INR g - 1 < p < INR g + 1 -> to_uint p = g \/ S (to_uint p) = g.
Proof.
  intros Hp [Hlo Hhi]. unfold to_uint.
  pose proof (base_Int_part p) as [H1 H2].
  set (z := Int_part p) in *.
  rewrite INR_IZR_INZ in Hlo, Hhi.
  assert (Hz0 : (0 <= z)%Z).
  { assert (Hz : (-1 < z)%Z) by (apply lt_IZR; lra). lia. }
  assert (Hzhi : (z < Z.of_nat g + 1)%Z) by (apply lt_IZR; rewrite plus_IZR; lra).
  assert (Hzlo : (Z.of_nat g - 2 < z)%Z) by (apply lt_IZR; rewrite minus_IZR; lra).
  lia.
Qed.

(** The texel column a thread addresses when there are no control points:
    its own or the one before. *)
Lemma rounded_column fl eps tiny (g w : nat) :
  roundsWithin fl eps tiny -> tiny * INR w <= 1 -> tiny <= 1 - eps ->
  INR g * (2 * eps + eps * eps) < 1 -> (g < w)%nat ->
  to_uint (fl (clamp (fl (INR g / INR w)) 0.0 1.0 * INR w)) = g
  \/ S (to_uint (fl (clamp (fl (INR g / INR w)) 0.0 1.0 * INR w))) = g.
Proof.
  intros Hfl HtinyW Htiny1 Hsmall Hlt.
  assert (Heps : 0 <= eps) by apply Hfl.
  assert (Hfl0 : fl 0 = 0) by apply Hfl.
  assert (HW : 0 < INR w) by (apply lt_0_INR; lia).
  destruct (Nat.eq_0_gt_0_cases g) as [Hg0|Hgpos].
  - (* the first column: every step is exact *)
    subst g. cbn [INR]. unfold Rdiv. rewrite Rmult_0_l, Hfl0.
    replace (clamp 0 0.0 1.0) with 0
      by (unfold clamp, Rmin, Rmax;
          destruct (Rle_dec 0 0.0); destruct (Rle_dec _ 1.0); lra).
    rewrite Rmult_0_l, Hfl0. left.
    change 0 with (INR 0). apply to_uint_INR.
  - assert (HG1 : 1 <= INR g)
      by (replace 1 with (INR 1) by reflexivity; apply le_INR; lia).
    set (G := INR g) in *. set (W := INR w) in *.
    assert (Heps1 : eps < 1) by nra.
    assert (HinvW : 0 < / W) by (apply Rinv_0_lt_compat, HW).
    assert (Hq : 0 <= G / W) by (apply Rmult_le_pos; lra).
    assert (HqW : G / W * W = G) by (field; lra).
    assert (Hq1 : G / W <= 1).
    { apply (Rmult_le_reg_r W); [exact HW|]. rewrite HqW.
      assert (G <= W) by (apply le_INR; lia). lra. }
    assert (Hqtiny : tiny <= G / W).
    { apply (Rmult_le_reg_r W); [exact HW|]. rewrite HqW. lra. }
    pose proof (roundsWithin_nonneg fl eps tiny (G / W) Hfl Hqtiny Hq) as [Hflo Hfhi].
    set (f := fl (G / W)) in *.
    assert (Hqe : G / W * (1 - eps) <= 1) by nra.
    assert (Hc : G / W * (1 - eps) <= clamp f 0.0 1.0 <= G / W * (1 + eps)
                 /\ 0 <= clamp f 0.0 1.0).
    { unfold clamp, Rmin, Rmax.
      destruct (Rle_dec f 0.0); destruct (Rle_dec _ 1.0); nra. }
    set (c := clamp f 0.0 1.0) in *. destruct Hc as [[Hclo Hchi] Hc0].
    assert (Hp : G * (1 - eps) <= c * W <= G * (1 + eps)).
    { assert (E1 : G / W * (1 - eps) * W = G * (1 - eps)) by (field; lra).
      assert (E2 : G / W * (1 + eps) * W = G * (1 + eps)) by (field; lra).
      rewrite <- E1, <- E2. split; apply Rmult_le_compat_r; lra. }
    destruct Hp as [Hplo Hphi].
    assert (Hp1 : 1 - eps <= c * W) by nra.
    pose proof (roundsWithin_nonneg fl eps tiny (c * W) Hfl ltac:(lra) ltac:(lra))
      as [Hrlo Hrhi].
    set (r := fl (c * W)) in *.
    apply to_uint_between; fold G.
    + nra.
    + split; nra.
Qed.

(** X6.  [advancedWarpCompute].  With no control points and an output
    texture of the size of the input, every thread copies its own texel or
    the one just before it in x or in y: the quotient and the product of
    the two coordinate conversions are rounded, and for a rounding of
    relative error [eps] the product lands within 1 of the thread's own
    coordinate as long as [gid (2 eps + eps^2) < 1].  A thread whose warped
    source coordinate is 1 in x or in y (the upper edge of the clamp)
    addresses a texel outside the input and writes [float4(0.0)]; the
    texture size is a number the format holds exactly.  A thread outside
    the output texture writes nothing. *)
Theorem advancedWarpCompute_copy_and_edge :
  (forall (fl : R -> R) (eps tiny : R) (tex : texture2d) (buf : nat -> ControlPoint)
          (u : WarpUniforms) (gx gy : nat),
     roundsWithin fl eps tiny ->
     tiny * INR (get_width tex) <= 1 -> tiny * INR (get_height tex) <= 1 ->
     tiny <= 1 - eps ->
     INR gx * (2 * eps + eps * eps) < 1 -> INR gy * (2 * eps + eps * eps) < 1 ->
     (numControlPoints u <= 0)%Z ->
     (gx < get_width tex)%nat -> (gy < get_height tex)%nat ->
     exists sx sy,
       (sx = gx \/ S sx = gx) /\ (sy = gy \/ S sy = gy)
       /\ advancedWarpCompute fl tex (get_width tex) (get_height tex) buf u gx gy
          = Some (read tex sx sy))
  /\ (forall (fl : R -> R) (tex : texture2d) (outWidth outHeight : nat)
             (buf : nat -> ControlPoint) (u : WarpUniforms) (gx gy : nat),
        (gx < outWidth)%nat -> (gy < outHeight)%nat ->
        (vx (applyWarp (mkFloat2 (fl (INR gx / INR outWidth))
                                 (fl (INR gy / INR outHeight))) buf u) = 1
         /\ fl (INR (get_width tex)) = INR (get_width tex))
        \/ (vy (applyWarp (mkFloat2 (fl (INR gx / INR outWidth))
                                    (fl (INR gy / INR outHeight))) buf u) = 1
            /\ fl (INR (get_height tex)) = INR (get_height tex)) ->
        advancedWarpCompute fl tex outWidth outHeight buf u gx gy
        = Some (mkFloat4 0.0 0.0 0.0 0.0))
  /\ (forall (fl : R -> R) (tex : texture2d) (outWidth outHeight : nat)
             (buf : nat -> ControlPoint) (u : WarpUniforms) (gx gy : nat),
        (outWidth <= gx)%nat \/ (outHeight <= gy)%nat ->
        advancedWarpCompute fl tex outWidth outHeight buf u gx gy = None).
Proof.
  split; [|split].
  - intros fl eps tiny tex buf u gx gy Hfl HtW HtH Ht1 Hsx Hsy Hn Hx Hy.
    unfold advancedWarpCompute.
    replace (get_width tex <=? gx)%nat with false by (symmetry; apply Nat.leb_gt; lia).
    replace (get_height tex <=? gy)%nat with false by (symmetry; apply Nat.leb_gt; lia).
    cbn [orb]. unfold applyWarp.
    rewrite warpAccumulate_no_points by exact Hn.
    unfold clamp2, splat. cbn [vx vy].
    pose proof (rounded_column fl eps tiny gx (get_width tex) Hfl HtW Ht1 Hsx Hx) as Hcx.
    pose proof (rounded_column fl eps tiny gy (get_height tex) Hfl HtH Ht1 Hsy Hy) as Hcy.
    match type of Hcx with ?a = _ \/ _ => set (sx := a) in * end.
    match type of Hcy with ?a = _ \/ _ => set (sy := a) in * end.
    exists sx, sy. split; [exact Hcx|]. split; [exact Hcy|].
    replace (sx <? get_width tex)%nat with true
      by (symmetry; apply Nat.ltb_lt; lia).
    replace (sy <? get_height tex)%nat with true
      by (symmetry; apply Nat.ltb_lt; lia).
    reflexivity.
  - intros fl tex ow oh buf u gx gy Hx Hy Hedge. unfold advancedWarpCompute.
    replace (ow <=? gx)%nat with false by (symmetry; apply Nat.leb_gt; lia).
    replace (oh <=? gy)%nat with false by (symmetry; apply Nat.leb_gt; lia).
    cbn [orb]. destruct Hedge as [[He Hfl]|[He Hfl]];
      rewrite He, Rmult_1_l, Hfl, to_uint_INR.
    + rewrite Nat.ltb_irrefl. reflexivity.
    + rewrite Nat.ltb_irrefl, andb_false_r. reflexivity.
  - intros fl tex ow oh buf u gx gy [H|H]; unfold advancedWarpCompute.
    + replace (ow <=? gx)%nat with true by (symmetry; apply Nat.leb_le; lia).
      reflexivity.
    + replace (oh <=? gy)%nat with true by (symmetry; apply Nat.leb_le; lia).
      rewrite orb_true_r. reflexivity.
Qed.

Lemma advancedWarpCompute_copy_and_edge_witness :
  exists sx sy,
    (sx = 7%nat \/ S sx = 7%nat) /\ (sy = 5%nat \/ S sy = 5%nat)
    /\ advancedWarpCompute (fun x => x * (1 - / 1024))
         (mkTexture 1920 1080 (fun x y => mkFloat4 (INR x) (INR y) 0 1)) 1920 1080
         (bufferOf []) (withCount Inputs.linearParams 0) 7 5
       = Some (read (mkTexture 1920 1080 (fun x y => mkFloat4 (INR x) (INR y) 0 1)) sx sy).
Proof.
  apply (proj1 advancedWarpCompute_copy_and_edge (fun x => x * (1 - / 1024)) (/ 1024) 0
           (mkTexture 1920 1080 (fun x y => mkFloat4 (INR x) (INR y) 0 1))
           (bufferOf []) (withCount Inputs.linearParams 0) 7%nat 5%nat).
  - split; [lra|]. split; [lra|]. intros x _.
    replace (x * (1 - / 1024) - x) with (- (/ 1024 * x)) by lra.
    rewrite Rabs_Ropp, Rabs_mult, (Rabs_right (/ 1024)) by lra. lra.
  - lra.
  - lra.
  - lra.
  - simpl. lra.
  - simpl. lra.
  - simpl. lia.
  - simpl. lia.
  - simpl. lia.
Defined.

End MetalStagesClaims.

(** ** The order of the mesh threads *)
Section MetalMeshOrderFacts.
Import MetalMesh MetalMeshOrder.
Local Open Scope nat_scope.

Lemma threadWrites_same_thread (R i j l : nat) :
  threadWrites R i l = true -> threadWrites R j l = true -> i = j.
Proof.
  intros Hi Hj.
  apply threadWrites_true in Hi as (Hli & Hxi & Hyi & Hlo_i & Hhi_i).
  apply threadWrites_true in Hj as (Hlj & Hxj & Hyj & Hlo_j & Hhi_j).
  destruct (cell_index_injective R (i mod (R + 1)) (i / (R + 1))
              (j mod (R + 1)) (j / (R + 1)) Hxi Hxj ltac:(lia)) as [Hx Hy].
  destruct (thread_cell R i Hli) as (_ & _ & Hi').
  destruct (thread_cell R j Hlj) as (_ & _ & Hj').
  rewrite Hi', Hj', Hx, Hy. reflexivity.
Qed.

Lemma generateMeshAt_same (R i : nat) (m m' : MeshBuffers) :
  sameBuffers m m' -> sameBuffers (generateMeshAt R i m) (generateMeshAt R i m').
Proof.
  intros Hsame k. rewrite !generateMeshAt_vertices, !generateMeshAt_indices.
  destruct (Hsame k) as [Hv Hi]. rewrite Hv, Hi. split; reflexivity.
Qed.

Lemma generateMeshAt_commute (R i j : nat) (m : MeshBuffers) :
  sameBuffers (generateMeshAt R i (generateMeshAt R j m))
              (generateMeshAt R j (generateMeshAt R i m)).
Proof.
  intros k. rewrite !generateMeshAt_vertices, !generateMeshAt_indices. split.
  - destruct ((i <? (R + 1) * (R + 1)) && (k =? i)) eqn:Hi;
      destruct ((j <? (R + 1) * (R + 1)) && (k =? j)) eqn:Hj; try reflexivity.
    apply andb_prop in Hi as [_ Hi]. apply andb_prop in Hj as [_ Hj].
    apply Nat.eqb_eq in Hi. apply Nat.eqb_eq in Hj. subst. reflexivity.
  - destruct (threadWrites R i k) eqn:Hi; destruct (threadWrites R j k) eqn:Hj;
      try reflexivity.
    rewrite (threadWrites_same_thread R i j k Hi Hj). reflexivity.
Qed.

Lemma dispatchIn_same (R : nat) (order : list nat) (m m' : MeshBuffers) :
  sameBuffers m m' -> sameBuffers (dispatchIn R order m) (dispatchIn R order m').
Proof.
  revert m m'. induction order as [|i order IH]; intros m m' Hsame; [exact Hsame|].
  simpl. apply IH, generateMeshAt_same, Hsame.
Qed.

Lemma sameBuffers_trans (a b c : MeshBuffers) :
  sameBuffers a b -> sameBuffers b c -> sameBuffers a c.
Proof.
  intros Hab Hbc k. destruct (Hab k), (Hbc k). split; congruence.
Qed.

(** X7.  The threads of [generateMesh] may run in any order: two
    dispatch orders that are permutations of each other leave the same
    vertex and index buffers, since two threads that write the same
    location are the same thread. *)
Theorem generateMesh_thread_order_is_immaterial :
  forall (R : nat) (order order' : list nat) (mem : MeshBuffers),
    Permutation order order' ->
    sameBuffers (dispatchIn R order mem) (dispatchIn R order' mem).
Proof.
  intros R order order' mem Hperm. revert mem.
  induction Hperm as [| i l l' _ IH | i j l | l l' l'' _ IH1 _ IH2]; intros mem.
  - intros k. split; reflexivity.
  - simpl. apply IH.
  - simpl. apply dispatchIn_same, generateMeshAt_commute.
  - eapply sameBuffers_trans; [apply IH1 | apply IH2].
Qed.

Lemma generateMesh_thread_order_is_immaterial_witness :
  sameBuffers (dispatchIn 1 [3; 0; 2; 1] noBuffers) (dispatch 1 4 noBuffers).
Proof.
  apply (generateMesh_thread_order_is_immaterial 1 [3; 0; 2; 1] (seq 0 4) noBuffers).
  change (seq 0 4) with [0; 1; 2; 3].
  apply Permutation_sym.
  apply (perm_trans (l' := [0; 3; 1; 2])).
  - apply perm_skip. apply (perm_trans (l' := [1; 3; 2])).
    + apply perm_skip. apply perm_swap.
    + apply perm_swap.
  - apply (perm_trans (l' := [3; 0; 1; 2])).
    + apply perm_swap.
    + apply perm_skip. apply perm_skip. apply perm_swap.
Defined.

End MetalMeshOrderFacts.

(** ** Construction, upload and teardown of the web renderer *)
Section WebStagesFacts.
Import Shader WebGL MetalStages WebStages.

Lemma store_length (a : list R) (i : nat) (v : R) :
  List.length (store a i v) = List.length a.
Proof.
  revert i. induction a as [|h a IH]; intros i; [reflexivity|].
  destruct i; simpl; [reflexivity|]. rewrite IH. reflexivity.
Qed.

Lemma load_store_same (a : list R) (i : nat) (v : R) :
  (i < List.length a)%nat -> load (store a i v) i = v.
Proof.
  unfold load. revert i. induction a as [|h a IH]; intros i Hi; simpl in Hi; [lia|].
  destruct i; simpl; [reflexivity|]. apply IH. lia.
Qed.

Lemma load_store_other (a : list R) (i j : nat) (v : R) :
  i <> j -> load (store a i v) j = load a j.
Proof.
  unfold load. revert i j. induction a as [|h a IH]; intros i j Hne.
  - reflexivity.
  - destruct i, j; simpl; try reflexivity; try lia. apply IH. lia.
Qed.

Lemma forEach_fill_lengths (l : list ControlPoint) (i0 : nat) (arrays : PointArrays) :
  List.length (points (forEach fill l i0 arrays)) = List.length (points arrays)
  /\ List.length (strengths (forEach fill l i0 arrays)) = List.length (strengths arrays)
  /\ List.length (radii (forEach fill l i0 arrays)) = List.length (radii arrays).
Proof.
  revert i0 arrays. induction l as [|c l IH]; intros i0 arrays; [auto|].
  simpl. destruct (IH (S i0) (fill arrays c i0)) as (Hp & Hs & Hr).
  rewrite Hp, Hs, Hr. unfold fill; simpl. rewrite !store_length. auto.
Qed.

(** Entries outside the slots of the points being written keep their
    value. *)
Lemma forEach_fill_outside (l : list ControlPoint) (i0 : nat) (arrays : PointArrays) :
  (forall j, (j < 2 * i0)%nat ->
     load (points (forEach fill l i0 arrays)) j = load (points arrays) j)
  /\ (forall j, (j < i0)%nat ->
        load (strengths (forEach fill l i0 arrays)) j = load (strengths arrays) j
        /\ load (radii (forEach fill l i0 arrays)) j = load (radii arrays) j).
Proof.
  revert i0 arrays. induction l as [|c l IH]; intros i0 arrays; [auto|].
  simpl. destruct (IH (S i0) (fill arrays c i0)) as (Hp & Hs). split.
  - intros j Hj. rewrite Hp by lia. unfold fill; simpl.
    rewrite !load_store_other by lia. reflexivity.
  - intros j Hj. destruct (Hs j ltac:(lia)) as [H1 H2]. rewrite H1, H2.
    unfold fill; simpl. rewrite !load_store_other by lia. auto.
Qed.

Lemma forEach_fill_inside (l : list ControlPoint) (i0 : nat) (arrays : PointArrays)
    (k : nat) (c : ControlPoint) :
  List.length (points arrays) = 32%nat ->
  List.length (strengths arrays) = 16%nat ->
  List.length (radii arrays) = 16%nat ->
  (i0 + List.length l <= 16)%nat ->
  nth_error l k = Some c ->
  load (points (forEach fill l i0 arrays)) (2 * (i0 + k)) = x c
  /\ load (points (forEach fill l i0 arrays)) (2 * (i0 + k) + 1) = y c
  /\ load (strengths (forEach fill l i0 arrays)) (i0 + k) = strength c
  /\ load (radii (forEach fill l i0 arrays)) (i0 + k) = radius c.
Proof.
  revert i0 arrays k. induction l as [|c0 l IH]; intros i0 arrays k Hp Hs Hr Hlen Hk.
  - destruct k; discriminate Hk.
  - simpl in Hlen. destruct k as [|k].
    + injection Hk as ->. simpl forEach.
      destruct (forEach_fill_outside l (S i0) (fill arrays c i0)) as (Hop & Hos).
      rewrite Nat.add_0_r.
      rewrite !Hop by lia.
      destruct (Hos i0 ltac:(lia)) as [H1 H2]. rewrite H1, H2.
      unfold fill; simpl.
      replace (i0 * 2)%nat with (2 * i0)%nat by lia.
      repeat split.
      * rewrite load_store_other by lia. apply load_store_same. lia.
      * apply load_store_same. rewrite store_length. lia.
      * apply load_store_same. lia.
      * apply load_store_same. lia.
    + simpl forEach. simpl in Hk.
      replace (i0 + S k)%nat with (S i0 + k)%nat by lia.
      apply IH; try assumption; try lia; unfold fill; simpl;
        rewrite ?store_length; assumption.
Qed.

Lemma forEach_fill_after (l : list ControlPoint) (i0 : nat) (arrays : PointArrays) :
  (forall j, (2 * (i0 + List.length l) <= j)%nat ->
     load (points (forEach fill l i0 arrays)) j = load (points arrays) j)
  /\ (forall j, (i0 + List.length l <= j)%nat ->
        load (strengths (forEach fill l i0 arrays)) j = load (strengths arrays) j
        /\ load (radii (forEach fill l i0 arrays)) j = load (radii arrays) j).
Proof.
  revert i0 arrays. induction l as [|c l IH]; intros i0 arrays; [auto|].
  simpl. destruct (IH (S i0) (fill arrays c i0)) as (Hp & Hs). split.
  - intros j Hj. rewrite Hp by lia. unfold fill; simpl.
    rewrite !load_store_other by lia. reflexivity.
  - intros j Hj. destruct (Hs j ltac:(lia)) as [H1 H2]. rewrite H1, H2.
    unfold fill; simpl. rewrite !load_store_other by lia. auto.
Qed.

Lemma load_Float32Array (n j : nat) : load (Float32Array n) j = 0.
Proof. unfold load, Float32Array. apply nth_repeat. Qed.

(** X8.  [render] uploads control point [i], for [i < 16], in slot [i] of
    the three uniform arrays (x and y interleaved in [u_controlPoints]),
    and leaves every slot from [min(length, 16)] on at zero. *)
Theorem render_uploads_the_first_sixteen_points :
  forall (this : VideoProcessor) (t : option R),
    (forall i c, (i < 16)%nat -> nth_error (controlPoints this) i = Some c ->
       u_controlPoints (renderUniforms this t) i = mkFloat2 (x c) (y c)
       /\ u_controlStrengths (renderUniforms this t) i = strength c
       /\ u_controlRadii (renderUniforms this t) i = radius c)
    /\ (forall i, (Nat.min (List.length (controlPoints this)) 16 <= i)%nat ->
          u_controlPoints (renderUniforms this t) i = mkFloat2 0 0
          /\ u_controlStrengths (renderUniforms this t) i = 0
          /\ u_controlRadii (renderUniforms this t) i = 0).
Proof.
  intros this t. split.
  - intros i c Hi Hnth.
    assert (Hnth16 : nth_error (slice0 16 (controlPoints this)) i = Some c).
    { unfold slice0. rewrite nth_error_firstn.
      replace (i <? 16)%nat with true by (symmetry; apply Nat.ltb_lt; exact Hi).
      exact Hnth. }
    assert (Hlen16 : (0 + List.length (slice0 16 (controlPoints this)) <= 16)%nat).
    { unfold slice0. rewrite length_firstn. lia. }
    destruct (forEach_fill_inside (slice0 16 (controlPoints this)) 0
                (mkPointArrays (Float32Array 32) (Float32Array 16) (Float32Array 16))
                i c eq_refl eq_refl eq_refl Hlen16 Hnth16) as (Hx & Hy & Hs & Hr).
    cbn [renderUniforms u_controlPoints u_controlStrengths u_controlRadii].
    repeat split.
    + apply float2_eq; cbn [vx vy]; [exact Hx | exact Hy].
    + exact Hs.
    + exact Hr.
  - intros i Hi.
    destruct (forEach_fill_after (slice0 16 (controlPoints this)) 0
                (mkPointArrays (Float32Array 32) (Float32Array 16) (Float32Array 16)))
      as (Hp & Hs).
    assert (Hlen : List.length (slice0 16 (controlPoints this))
                   = Nat.min (List.length (controlPoints this)) 16).
    { unfold slice0. rewrite length_firstn. lia. }
    cbn [renderUniforms u_controlPoints u_controlStrengths u_controlRadii].
    unfold fillPointArrays.
    repeat split.
    + apply float2_eq; cbn [vx vy].
      * transitivity (load (Float32Array 32) (2 * i)).
        -- apply Hp. rewrite Hlen. lia.
        -- apply load_Float32Array.
      * transitivity (load (Float32Array 32) (2 * i + 1)).
        -- apply Hp. rewrite Hlen. lia.
        -- apply load_Float32Array.
    + destruct (Hs i) as [H1 _]; [rewrite Hlen; lia|].
      transitivity (load (Float32Array 16) i); [exact H1 | apply load_Float32Array].
    + destruct (Hs i) as [_ H2]; [rewrite Hlen; lia|].
      transitivity (load (Float32Array 16) i); [exact H2 | apply load_Float32Array].
Qed.

Lemma render_uploads_the_first_sixteen_points_witness :
  u_controlPoints
    (renderUniforms
       (WebHost.processor 300 150 Inputs.readyVideo [Inputs.edgePoint; Inputs.widePoint]
          WebHost.defaultSettings) None) 1
  = mkFloat2 (x Inputs.widePoint) (y Inputs.widePoint)
  /\ u_controlStrengths
       (renderUniforms
          (WebHost.processor 300 150 Inputs.readyVideo [Inputs.edgePoint; Inputs.widePoint]
             WebHost.defaultSettings) None) 1
     = strength Inputs.widePoint
  /\ u_controlRadii
       (renderUniforms
          (WebHost.processor 300 150 Inputs.readyVideo [Inputs.edgePoint; Inputs.widePoint]
             WebHost.defaultSettings) None) 1
     = radius Inputs.widePoint.
Proof.
  apply (proj1 (render_uploads_the_first_sixteen_points
                  (WebHost.processor 300 150 Inputs.readyVideo
                     [Inputs.edgePoint; Inputs.widePoint] WebHost.defaultSettings)
                  None) 1%nat Inputs.widePoint).
  - lia.
  - reflexivity.
Defined.

(** X9.  When the processor is initialised, has a program and a video
    whose current frame is decoded, [render] begins by binding the texture
    and uploading the frame, uploads it once only, and draws as many
    indices as [createMesh] generated.  The byte offset it gives for
    [a_texCoord], four bytes for each position coordinate, is where the
    texture coordinates start in the vertex buffer [createMesh] filled. *)
Theorem render_with_frame_draws_the_whole_mesh :
  forall (this : VideoProcessor) (t : option R) (v : HTMLVideoElement) (prog : nat),
    isInitialized this = true -> video this = Some v ->
    shaderProgram this = Some prog ->
    (HAVE_CURRENT_DATA <= readyState v)%nat ->
    (exists rest,
       callsOf (render this t)
       = bindTexture (texture this) :: texImage2D (currentFrame v) :: rest
       /\ existsb uploadsFrame rest = false)
    /\ In (drawElements (List.length (indices (createMesh (meshResolution this)))))
         (callsOf (render this t))
    /\ In (vertexAttribPointer "a_texCoord" 2
             (4 * List.length (WebGL.vertices (createMesh (meshResolution this)))))
         (callsOf (render this t))
    /\ skipn (List.length (WebGL.vertices (createMesh (meshResolution this))))
         (vertexBufferData (createMesh (meshResolution this)))
       = WebGL.texCoords (createMesh (meshResolution this)).
Proof.
  intros this t v prog Hinit Hvideo Hprog Hready.
  unfold render, renderBody. rewrite Hinit, Hvideo, Hprog. cbn [negb orb isNull].
  replace (HAVE_CURRENT_DATA <=? readyState v)%nat with true
    by (symmetry; apply Nat.leb_le; exact Hready).
  cbn [callsOf app]. split; [|split; [|split]].
  - eexists. split; [reflexivity|reflexivity].
  - rewrite createMesh_indices_length.
    replace (6 * (meshResolution this * meshResolution this))%nat
      with (meshResolution this * meshResolution this * 6)%nat by lia.
    simpl. tauto.
  - rewrite createMesh_vertices_length.
    replace (4 * (2 * ((meshResolution this + 1) * (meshResolution this + 1))))%nat
      with ((meshResolution this + 1) * (meshResolution this + 1) * 2 * 4)%nat by lia.
    simpl. tauto.
  - unfold vertexBufferData. rewrite skipn_app, skipn_all, Nat.sub_diag. reflexivity.
Qed.

Lemma render_with_frame_draws_the_whole_mesh_witness :
  In (drawElements (List.length (indices (createMesh 32))))
    (callsOf (render (WebHost.processor 300 150 Inputs.readyVideo [Inputs.edgePoint]
                        WebHost.defaultSettings) None)).
Proof.
  apply (render_with_frame_draws_the_whole_mesh
           (WebHost.processor 300 150 Inputs.readyVideo [Inputs.edgePoint]
              WebHost.defaultSettings) None Inputs.readyVideo 1%nat);
    try reflexivity.
  unfold HAVE_CURRENT_DATA. simpl. lia.
Defined.

(** X10.  The 16-bit index buffer [createMesh] fills holds every index
    unchanged as long as the mesh resolution is at most 255 (the class
    uses 32).  At resolution 256 the last index, 66048, is stored as
    512. *)
Theorem Uint16Array_keeps_indices_up_to_255 :
  (forall R : nat, (R <= 255)%nat ->
     Uint16Array (indices (createMesh R)) = map Z.of_nat (indices (createMesh R)))
  /\ option_map Z.of_nat
       (nth_error (indices (createMesh 256)) (6 * (255 * 256 + 255) + 5)) = Some 66048%Z
  /\ nth_error (Uint16Array (indices (createMesh 256))) (6 * (255 * 256 + 255) + 5)
     = Some 512%Z.
Proof.
  split; [|split].
  - intros R HR. unfold Uint16Array. apply map_ext_in. intros i Hin.
    pose proof (createMesh_indices_bound R) as Hall.
    rewrite Forall_forall in Hall. specialize (Hall i Hin).
    apply Z.mod_small. split; [lia|].
    assert (((R + 1) * (R + 1) <= 256 * 256)%nat) by (apply Nat.mul_le_mono; lia).
    lia.
  - rewrite createMesh_cell by lia.
    unfold Spec.cellTriangles, Spec.vertexIndex. cbn [nth_error option_map].
    f_equal; try lia.
  - unfold Uint16Array. rewrite nth_error_map, createMesh_cell by lia.
    unfold Spec.cellTriangles, Spec.vertexIndex. cbn [nth_error option_map].
    replace (Z.of_nat ((255 + 1) * (256 + 1) + (255 + 1))) with 66048%Z by lia.
    reflexivity.
Qed.

Lemma Uint16Array_keeps_indices_up_to_255_witness :
  Uint16Array (indices (createMesh 3)) = map Z.of_nat (indices (createMesh 3)).
Proof. apply (proj1 Uint16Array_keeps_indices_up_to_255 3%nat). lia. Defined.

(** X11.  After [destroy] the processor is inert: [render] issues no GL
    call, [exportVideo] throws for want of a video, and a second [destroy]
    releases nothing.  [destroy] makes at most five calls, deletes the
    program and the texture the processor held, and keeps the control
    points. *)
Theorem destroy_releases_and_disables :
  forall (this : VideoProcessor) (t : option R),
    render (fst (destroy this)) t = Normal []
    /\ destroy (fst (destroy this)) = (fst (destroy this), [])
    /\ exportVideo (fst (destroy this)) = Throw "No video loaded"
    /\ controlPoints (fst (destroy this)) = controlPoints this
    /\ (List.length (snd (destroy this)) <= 5)%nat
    /\ (forall h, shaderProgram this = Some h -> In (deleteProgram h) (snd (destroy this)))
    /\ (forall h, texture this = Some h -> In (deleteTexture h) (snd (destroy this))).
Proof.
  intros this t. repeat split.
  - unfold destroy; simpl.
    destruct (video this), (texture this), (WebGL.vertexBuffer this),
      (WebGL.indexBuffer this), (shaderProgram this); simpl; lia.
  - intros h Hh. unfold destroy; simpl. rewrite Hh.
    rewrite !in_app_iff. simpl. tauto.
  - intros h Hh. unfold destroy; simpl. rewrite Hh.
    rewrite !in_app_iff. simpl. tauto.
Qed.

Lemma destroy_releases_and_disables_witness :
  In (deleteProgram 1)
    (snd (destroy (WebHost.processor 300 150 Inputs.readyVideo [Inputs.edgePoint]
                     WebHost.defaultSettings))).
Proof.
  apply (proj1 (proj2 (proj2 (proj2 (proj2 (proj2
           (destroy_releases_and_disables
              (WebHost.processor 300 150 Inputs.readyVideo [Inputs.edgePoint]
                 WebHost.defaultSettings) None))))))).
  reflexivity.
Defined.

Lemma compileShader_normal (shader : option nat) (status : bool) (log : string) (h : nat) :
  compileShader shader status log = Normal h <-> shader = Some h /\ status = true.
Proof.
  unfold compileShader. destruct shader as [s|]; [|split; [discriminate|intros [H _]; discriminate H]].
  destruct status; simpl.
  - split; [intros H; injection H as ->; auto | intros [H _]; injection H as ->; reflexivity].
  - split; [discriminate | intros [_ H]; discriminate H].
Qed.

(** X12.  The constructor returns a processor exactly when the canvas has
    a WebGL 2 context, both shaders are created and compile, and the
    program is created and links; otherwise it throws.  The processor it
    returns is initialised, holds the program, has no video and no control
    points, has mesh resolution 32, and its [render] does nothing (until a
    video is loaded). *)
Theorem construct_succeeds_only_fully_initialised :
  forall (width height : Z) (driver : Driver),
    (forall this, construct width height driver = Normal this ->
       isInitialized this = true
       /\ shaderProgram this = program driver
       /\ program driver <> None
       /\ video this = None
       /\ controlPoints this = []
       /\ meshResolution this = 32%nat
       /\ (forall t, render this t = Normal []))
    /\ ((exists this, construct width height driver = Normal this) <->
        webgl2 driver = true
        /\ vertexShader driver <> None /\ vertexCompiles driver = true
        /\ fragmentShader driver <> None /\ fragmentCompiles driver = true
        /\ program driver <> None /\ links driver = true).
Proof.
  intros width height driver. unfold construct, initializeWebGL, compileShader.
  destruct (webgl2 driver); simpl.
  2: { split; [discriminate|].
       split; [intros [this H]; discriminate H | intros [H _]; discriminate H]. }
  destruct (vertexShader driver) as [vs|].
  2: { split; [discriminate|].
       split; [intros [this H]; discriminate H | intros (_ & H & _); congruence]. }
  destruct (vertexCompiles driver); simpl.
  2: { split; [discriminate|].
       split; [intros [this H]; discriminate H | intros (_ & _ & H & _); discriminate H]. }
  destruct (fragmentShader driver) as [fs|].
  2: { split; [discriminate|].
       split; [intros [this H]; discriminate H | intros (_ & _ & _ & H & _); congruence]. }
  destruct (fragmentCompiles driver); simpl.
  2: { split; [discriminate|].
       split; [intros [this H]; discriminate H
              | intros (_ & _ & _ & _ & H & _); discriminate H]. }
  destruct (program driver) as [p|].
  2: { split; [discriminate|].
       split; [intros [this H]; discriminate H
              | intros (_ & _ & _ & _ & _ & H & _); congruence]. }
  destruct (links driver); simpl.
  2: { split; [discriminate|].
       split; [intros [this H]; discriminate H
              | intros (_ & _ & _ & _ & _ & _ & H); discriminate H]. }
  split.
  - intros this H. injection H as <-. simpl.
    repeat split; try reflexivity. discriminate.
  - split; [intros _; repeat split; discriminate | intros _; eexists; reflexivity].
Qed.

Lemma construct_succeeds_only_fully_initialised_witness :
  exists this,
    construct 300 150
      (mkDriver true (Some 3%nat) true "none" (Some 4%nat) true "none" (Some 5%nat)
         true "none" (Some 6%nat) (Some 7%nat) (Some 8%nat)) = Normal this.
Proof.
  apply (proj2 (proj2 (construct_succeeds_only_fully_initialised 300 150
                         (mkDriver true (Some 3%nat) true "none" (Some 4%nat) true "none"
                            (Some 5%nat) true "none" (Some 6%nat) (Some 7%nat)
                            (Some 8%nat))))).
  simpl. repeat split; discriminate.
Defined.

(** X13.  [main] of the vertex shader divides the mesh position by the
    canvas resolution, although [createMesh] already produces positions in
    [0,1]: with no control points a vertex [a] lands at the clip position
    (2 a.x / W - 1, 1 - 2 a.y / H).  For a canvas of at least 2 x 2 pixels
    the whole mesh is therefore drawn in the upper left quadrant of the
    clip square. *)
Theorem web_main_normalises_the_mesh_twice :
  forall (this : VideoProcessor) (t : option R) (a : float2),
    controlPoints this = [] ->
    (1 <= canvas_width this)%Z -> (1 <= canvas_height this)%Z ->
    mainPosition (renderUniforms this t) a
    = mkFloat2 (2 * (vx a / IZR (canvas_width this)) - 1)
               (1 - 2 * (vy a / IZR (canvas_height this)))
    /\ (inUnitSquare a ->
        (2 <= canvas_width this)%Z -> (2 <= canvas_height this)%Z ->
        vx (mainPosition (renderUniforms this t) a) <= 0
        /\ 0 <= vy (mainPosition (renderUniforms this t) a)).
Proof.
  intros this t a Hpts Hw Hh.
  assert (HW : 1 <= IZR (canvas_width this)) by (apply IZR_le in Hw; exact Hw).
  assert (HH : 1 <= IZR (canvas_height this)) by (apply IZR_le in Hh; exact Hh).
  assert (Hmain : mainPosition (renderUniforms this t) a
                  = mkFloat2 (2 * (vx a / IZR (canvas_width this)) - 1)
                             (1 - 2 * (vy a / IZR (canvas_height this)))).
  { unfold mainPosition, applyWarp, renderUniforms. rewrite Hpts.
    cbn [u_resolution u_numControlPoints List.length Nat.min Z.of_nat warpLoop
         Z.ltb Z.compare andb vx vy vdiv vsub vscale splat].
    apply float2_eq; cbn [vx vy].
    - replace (vx a / IZR (canvas_width this) * IZR (canvas_width this)
               / IZR (canvas_width this))
        with (vx a / IZR (canvas_width this)) by (field; lra).
      lra.
    - replace (vy a / IZR (canvas_height this) * IZR (canvas_height this)
               / IZR (canvas_height this))
        with (vy a / IZR (canvas_height this)) by (field; lra).
      lra. }
  split; [exact Hmain|].
  intros [Hx Hy] Hw2 Hh2. rewrite Hmain. cbn [vx vy].
  assert (HW2 : 2 <= IZR (canvas_width this)) by (apply IZR_le in Hw2; exact Hw2).
  assert (HH2 : 2 <= IZR (canvas_height this)) by (apply IZR_le in Hh2; exact Hh2).
  assert (Hqx : vx a / IZR (canvas_width this) <= 1 / 2).
  { apply (Rmult_le_reg_r (IZR (canvas_width this))); [lra|].
    unfold Rdiv. rewrite Rmult_assoc, Rinv_l by lra. lra. }
  assert (Hqy : vy a / IZR (canvas_height this) <= 1 / 2).
  { apply (Rmult_le_reg_r (IZR (canvas_height this))); [lra|].
    unfold Rdiv. rewrite Rmult_assoc, Rinv_l by lra. lra. }
  lra.
Qed.

Lemma web_main_normalises_the_mesh_twice_witness :
  mainPosition
    (renderUniforms (WebHost.processor 300 150 Inputs.readyVideo [] WebHost.defaultSettings)
       None) (mkFloat2 1 1)
  = mkFloat2 (2 * (1 / 300) - 1) (1 - 2 * (1 / 150)).
Proof.
  apply (proj1 (web_main_normalises_the_mesh_twice
                  (WebHost.processor 300 150 Inputs.readyVideo [] WebHost.defaultSettings)
                  None (mkFloat2 1 1) eq_refl ltac:(simpl; lia) ltac:(simpl; lia))).
Defined.

(** X14.  The fragment shader returns the sampled colour unchanged at
    quality [final].  At the qualities [preview] and [draft] it keeps
    alpha and rounds every colour channel down to a multiple of 1/32,
    lowering it by less than 1/32. *)
Theorem web_fragment_quantises_below_final :
  forall (sample : float2 -> float4) (tc : float2) (q : Quality),
    (q = final -> fragmentMain sample tc (qualityValue q) = sample tc)
    /\ (q <> final ->
        cw (fragmentMain sample tc (qualityValue q)) = cw (sample tc)
        /\ (cx (sample tc) - 1 / 32 < cx (fragmentMain sample tc (qualityValue q))
                <= cx (sample tc)
            /\ exists n : Z, cx (fragmentMain sample tc (qualityValue q)) = IZR n / 32)
        /\ (cy (sample tc) - 1 / 32 < cy (fragmentMain sample tc (qualityValue q))
                <= cy (sample tc)
            /\ exists n : Z, cy (fragmentMain sample tc (qualityValue q)) = IZR n / 32)
        /\ (cz (sample tc) - 1 / 32 < cz (fragmentMain sample tc (qualityValue q))
                <= cz (sample tc)
            /\ exists n : Z, cz (fragmentMain sample tc (qualityValue q)) = IZR n / 32)).
Proof.
  intros sample tc q. unfold fragmentMain. split.
  - intros ->. simpl qualityValue.
    destruct (Rlt_dec 1.0 1.0) as [H|_]; [lra|reflexivity].
  - intros Hq.
    assert (Hlt : qualityValue q < 1.0) by (destruct q; simpl; try lra; congruence).
    destruct (Rlt_dec (qualityValue q) 1.0) as [_|H]; [|contradiction].
    cbn [cx cy cz cw].
    pose proof (floor_quotient_bounds (cx (sample tc)) 32.0 ltac:(lra)).
    pose proof (floor_quotient_bounds (cy (sample tc)) 32.0 ltac:(lra)).
    pose proof (floor_quotient_bounds (cz (sample tc)) 32.0 ltac:(lra)).
    split; [reflexivity|].
    repeat split; try lra;
      (eexists; unfold floor; replace 32.0 with 32 by lra; reflexivity).
Qed.

Lemma web_fragment_quantises_below_final_witness :
  fragmentMain (fun _ => mkFloat4 0.5 0.25 0.125 1) Inputs.origin (qualityValue final)
  = mkFloat4 0.5 0.25 0.125 1.
Proof.
  apply (proj1 (web_fragment_quantises_below_final
                  (fun _ => mkFloat4 0.5 0.25 0.125 1) Inputs.origin final)).
  reflexivity.
Defined.

End WebStagesFacts.

(** ** The web editor *)
Section WebEditorFacts.
Import WebGL WebEditor.

Lemma clamp01_unit (a : R) : 0 <= Rmax 0 (Rmin 1 a) <= 1.
Proof.
  unfold Rmax, Rmin. destruct (Rle_dec 1 a); destruct (Rle_dec 0 _); lra.
Qed.

Lemma screenToVideoCoords_unit (e : Editor) (clientX clientY : R) :
  measured e ->
  0 <= fst (screenToVideoCoords e clientX clientY) <= 1
  /\ 0 <= snd (screenToVideoCoords e clientX clientY) <= 1.
Proof.
  intros _. unfold screenToVideoCoords. destruct (canvasRect e) as [rect|]; simpl.
  - split; apply clamp01_unit.
  - lra.
Qed.



(** X16.  [handleCanvasClick] never removes, reorders or edits a point:
    it appends at most one point, which carries the new id, lies in the
    unit square and is an unlocked stretch point of strength 1.0 and radius
    0.1.  During a drag it does nothing; a click near an existing point
    only selects that point.  The documented ranges are preserved. *)
Theorem handleCanvasClick_adds_at_most_one_point :
  forall (e : Editor) (now : string) (clientX clientY : R),
    measured e ->
    (exists added, controlPoints (handleCanvasClick e now clientX clientY)
                   = controlPoints e ++ added
                   /\ (List.length added <= 1)%nat
                   /\ Forall (fun c => inRange c /\ strength c = 1.0 /\ radius c = 0.1
                                       /\ type c = stretch /\ locked c = false
                                       /\ id c = now) added)
    /\ (isDragging e = true -> handleCanvasClick e now clientX clientY = e)
    /\ (forall c, isDragging e = false ->
          find (nearby e (screenToVideoCoords e clientX clientY)) (controlPoints e) = Some c ->
          controlPoints (handleCanvasClick e now clientX clientY) = controlPoints e
          /\ selectedPointId (handleCanvasClick e now clientX clientY) = Some (id c))
    /\ (Forall inRange (controlPoints e) ->
        Forall inRange (controlPoints (handleCanvasClick e now clientX clientY))).
Proof.
  intros e now cx cy Hrect.
  pose proof (screenToVideoCoords_unit e cx cy Hrect) as [Hx Hy].
  assert (Hshape : exists added,
             controlPoints (handleCanvasClick e now cx cy) = controlPoints e ++ added
             /\ (List.length added <= 1)%nat
             /\ Forall (fun c => inRange c /\ strength c = 1.0 /\ radius c = 0.1
                                 /\ type c = stretch /\ locked c = false
                                 /\ id c = now) added).
  { unfold handleCanvasClick. destruct (isDragging e).
    - exists []. rewrite app_nil_r. repeat split; [simpl; lia | constructor].
    - destruct (find _ _) as [c|].
      + exists []. simpl. rewrite app_nil_r. repeat split; [lia | constructor].
      + eexists. simpl. split; [reflexivity|]. split; [simpl; lia|].
        constructor; [|constructor].
        unfold inRange; simpl. repeat split; try lra. }
  split; [exact Hshape|]. split; [|split].
  - intros Hdrag. unfold handleCanvasClick. rewrite Hdrag. reflexivity.
  - intros c Hdrag Hfind. unfold handleCanvasClick. rewrite Hdrag, Hfind.
    split; reflexivity.
  - intros Hall. destruct Hshape as (added & -> & _ & Hadded).
    apply Forall_app. split; [exact Hall|].
    eapply Forall_impl; [|exact Hadded]. intros c Hc. apply Hc.
Qed.

Lemma handleCanvasClick_adds_at_most_one_point_witness :
  Forall inRange
    (controlPoints
       (handleCanvasClick
          (mkEditor [] None false (mkSize 300 150) (Some (mkDOMRect 10 20 300 150)))
          "point_1" 500 (-3))).
Proof.
  apply (proj2 (proj2 (proj2 (handleCanvasClick_adds_at_most_one_point
                                (mkEditor [] None false (mkSize 300 150)
                                   (Some (mkDOMRect 10 20 300 150)))
                                "point_1" 500 (-3)
                                ltac:(intros rect H; injection H as <-; simpl; lra))))).
  constructor.
Defined.

(** X17.  [handleMouseMove] keeps the number and the order of the points
    and the id, type, strength, radius and lock of every point.  A point
    that is locked, or is not the selection, is not changed at all, and
    nothing is changed when no drag is going on.  The documented ranges
    are preserved. *)
Theorem handleMouseMove_moves_only_the_unlocked_selection :
  forall (e : Editor) (clientX clientY : R),
    measured e ->
    List.length (controlPoints (handleMouseMove e clientX clientY))
    = List.length (controlPoints e)
    /\ (forall i c, nth_error (controlPoints e) i = Some c ->
          exists c', nth_error (controlPoints (handleMouseMove e clientX clientY)) i = Some c'
                     /\ id c' = id c /\ type c' = type c /\ strength c' = strength c
                     /\ radius c' = radius c /\ locked c' = locked c
                     /\ (locked c = true \/ Some (id c) <> selectedPointId e
                         \/ isDragging e = false -> c' = c))
    /\ (Forall inRange (controlPoints e) ->
        Forall inRange (controlPoints (handleMouseMove e clientX clientY))).
Proof.
  intros e cx cy Hrect.
  pose proof (screenToVideoCoords_unit e cx cy Hrect) as [Hx Hy].
  unfold handleMouseMove.
  destruct (negb (isDragging e) || noSelection (selectedPointId e)) eqn:Hguard.
  - split; [reflexivity|]. split; [|auto].
    intros i c Hnth. exists c. repeat split; auto.
  - apply orb_false_elim in Hguard as [Hdrag Hsel].
    apply negb_false_iff in Hdrag.
    destruct (selectedPointId e) as [sel|] eqn:Hs; [|discriminate Hsel].
    cbn [controlPoints withPoints]. split; [apply length_map|]. split.
    + intros i c Hnth. rewrite nth_error_map, Hnth. cbn [option_map].
      eexists. split; [reflexivity|].
      destruct (String.eqb_spec (id c) sel) as [Heq|Hne]; cbn [andb].
      * destruct (locked c) eqn:Hl; cbn [negb].
        -- repeat split; auto.
        -- simpl. repeat split; auto.
           intros [H|[H|H]]; [discriminate H | subst sel; contradiction H; reflexivity
                              | congruence].
      * repeat split; auto.
    + intros Hall. apply Forall_map. eapply Forall_impl; [|exact Hall].
      intros c Hc. destruct (_ && _); [|exact Hc].
      destruct Hc as (_ & Hstr & Hrad). unfold inRange; simpl. tauto.
Qed.

Lemma handleMouseMove_moves_only_the_unlocked_selection_witness :
  Forall inRange
    (controlPoints
       (handleMouseMove
          (mkEditor [Inputs.edgePoint] (Some "point_1"%string) true (mkSize 300 150)
             (Some (mkDOMRect 10 20 300 150)))
          160 95)).
Proof.
  apply (proj2 (proj2 (handleMouseMove_moves_only_the_unlocked_selection
                         (mkEditor [Inputs.edgePoint] (Some "point_1"%string) true
                            (mkSize 300 150) (Some (mkDOMRect 10 20 300 150)))
                         160 95
                         ltac:(intros rect H; injection H as <-; simpl; lra)))).
  constructor; [|constructor]. unfold inRange; simpl. lra.
Defined.



(** X19.  With a selection, the Delete / Backspace handler removes
    exactly the points that carry the selected id and clears the
    selection; afterwards a mouse move changes nothing and a second Delete
    changes nothing. *)
Theorem handleDeleteKey_removes_the_selection :
  forall (e : Editor) (sel : string),
    selectedPointId e = Some sel -> sel <> EmptyString ->
    selectedPointId (handleDeleteKey e) = None
    /\ (forall c, In c (controlPoints (handleDeleteKey e)) <->
                  In c (controlPoints e) /\ id c <> sel)
    /\ (forall clientX clientY,
          handleMouseMove (handleDeleteKey e) clientX clientY = handleDeleteKey e)
    /\ handleDeleteKey (handleDeleteKey e) = handleDeleteKey e.
Proof.
  intros e sel Hsel Hne.
  assert (Hno : noSelection (selectedPointId e) = false).
  { rewrite Hsel. simpl. apply String.eqb_neq, Hne. }
  unfold handleDeleteKey at 1 2. rewrite Hno, Hsel.
  cbn [selectedPointId controlPoints withSelection withPoints].
  split; [reflexivity|]. split; [|split].
  - intros c. rewrite filter_In, negb_true_iff, String.eqb_neq. tauto.
  - intros cx cy. unfold handleMouseMove, handleDeleteKey. rewrite Hno, Hsel.
    cbn [selectedPointId isDragging withSelection withPoints noSelection].
    rewrite orb_true_r. reflexivity.
  - unfold handleDeleteKey. rewrite Hno, Hsel.
    cbn [selectedPointId withSelection withPoints noSelection]. reflexivity.
Qed.

Lemma handleDeleteKey_removes_the_selection_witness :
  selectedPointId
    (handleDeleteKey
       (mkEditor [Inputs.edgePoint] (Some "point_1"%string) false (mkSize 300 150) None))
  = None.
Proof.
  apply (handleDeleteKey_removes_the_selection
           (mkEditor [Inputs.edgePoint] (Some "point_1"%string) false (mkSize 300 150) None)
           "point_1" eq_refl).
  discriminate.
Defined.

(** X20.  [handleMouseDown] never changes the point list.  It either
    leaves the state as it is, or starts a drag on a point of the list that
    is unlocked and within the click radius, selecting it.  If the first
    point within the click radius is locked nothing happens, whatever
    points follow it.  After [handleMouseUp] a mouse move changes
    nothing. *)
Theorem handleMouseDown_starts_a_drag_on_unlocked_points_only :
  forall (e : Editor) (clientX clientY : R),
    controlPoints (handleMouseDown e clientX clientY) = controlPoints e
    /\ (handleMouseDown e clientX clientY = e
        \/ exists c, In c (controlPoints e) /\ locked c = false
                     /\ nearby e (screenToVideoCoords e clientX clientY) c = true
                     /\ handleMouseDown e clientX clientY
                        = withDragging (withSelection e (Some (id c))) true)
    /\ (forall c, find (nearby e (screenToVideoCoords e clientX clientY)) (controlPoints e)
                  = Some c ->
                  locked c = true -> handleMouseDown e clientX clientY = e)
    /\ controlPoints (handleMouseUp e) = controlPoints e
    /\ (forall x y, handleMouseMove (handleMouseUp e) x y = handleMouseUp e).
Proof.
  intros e cx cy. split; [|split; [|split; [|split]]].
  - unfold handleMouseDown. destruct (find _ _) as [c|]; [|reflexivity].
    destruct (locked c); reflexivity.
  - unfold handleMouseDown. destruct (find _ _) as [c|] eqn:Hfind; [|left; reflexivity].
    apply find_some in Hfind as [Hin Hnear].
    destruct (locked c) eqn:Hl; cbn [negb]; [left; reflexivity|].
    right. exists c. repeat split; assumption.
  - intros c Hfind Hl. unfold handleMouseDown. rewrite Hfind, Hl. reflexivity.
  - reflexivity.
  - intros x y. reflexivity.
Qed.

Lemma handleMouseDown_starts_a_drag_on_unlocked_points_only_witness :
  handleMouseDown
    (mkEditor [mkControlPoint "point_1" 0.5 0.5 stretch 1.0 0.1 true;
               mkControlPoint "point_2" 0.5 0.5 stretch 1.0 0.1 false]
       None false (mkSize 300 150) (Some (mkDOMRect 10 20 300 150)))
    160 95
  = mkEditor [mkControlPoint "point_1" 0.5 0.5 stretch 1.0 0.1 true;
              mkControlPoint "point_2" 0.5 0.5 stretch 1.0 0.1 false]
      None false (mkSize 300 150) (Some (mkDOMRect 10 20 300 150)).
Proof.
  apply (proj1 (proj2 (proj2 (handleMouseDown_starts_a_drag_on_unlocked_points_only
                                (mkEditor [mkControlPoint "point_1" 0.5 0.5 stretch 1.0 0.1 true;
                                           mkControlPoint "point_2" 0.5 0.5 stretch 1.0 0.1 false]
                                   None false (mkSize 300 150)
                                   (Some (mkDOMRect 10 20 300 150)))
                                160 95)))
           (mkControlPoint "point_1" 0.5 0.5 stretch 1.0 0.1 true)).
  - assert (Hc : screenToVideoCoords
                   (mkEditor [mkControlPoint "point_1" 0.5 0.5 stretch 1.0 0.1 true;
                              mkControlPoint "point_2" 0.5 0.5 stretch 1.0 0.1 false]
                      None false (mkSize 300 150) (Some (mkDOMRect 10 20 300 150)))
                   160 95 = (0.5, 0.5)).
    { unfold screenToVideoCoords. cbn [canvasRect left top width height].
      rewrite !(Rmin_right 1) by lra. rewrite !Rmax_right by lra. f_equal; lra. }
    rewrite Hc. cbn [controlPoints find]. unfold nearby.
    cbn [canvasSize size_width size_height fst snd x y].
    replace ((0.5 - 0.5) * (0.5 - 0.5) + (0.5 - 0.5) * (0.5 - 0.5)) with 0 by lra.
    rewrite sqrt_0, (Rmin_right 300 150) by lra.
    destruct (Req_dec_T 150 0) as [H|_]; [lra|].
    destruct (Rlt_dec 0 (20 / 150)) as [_|H]; [reflexivity | lra].
  - reflexivity.
Defined.

End WebEditorFacts.

(** ** The Swift extensions and the drag gesture *)
Section SwiftFacts.
Import Store SwiftModel.

Lemma CGPoint_eq (a b : CGPoint) : x a = x b -> y a = y b -> a = b.
Proof. destruct a, b; simpl; intros -> ->; reflexivity. Qed.

(** X21.  The two coordinate conversions keep a point in its frame, for a
    size of positive width and height: [toViewCoordinates] takes the unit
    square into the rectangle of the view, corner to corner, and
    [fromViewCoordinates] takes the rectangle of the view into the unit
    square, corner to corner. *)
Theorem view_coordinates_keep_the_frame :
  forall (p : CGPoint) (size : CGSize),
    0 < width size -> 0 < height size ->
    (0 <= x p <= 1 -> 0 <= y p <= 1 ->
     0 <= x (toViewCoordinates p size) <= width size
     /\ 0 <= y (toViewCoordinates p size) <= height size)
    /\ (0 <= x p <= width size -> 0 <= y p <= height size ->
        0 <= x (fromViewCoordinates p size) <= 1
        /\ 0 <= y (fromViewCoordinates p size) <= 1)
    /\ toViewCoordinates (mkCGPoint 0 0) size = mkCGPoint 0 0
    /\ toViewCoordinates (mkCGPoint 1 1) size = mkCGPoint (width size) (height size)
    /\ fromViewCoordinates (mkCGPoint 0 0) size = mkCGPoint 0 0
    /\ fromViewCoordinates (mkCGPoint (width size) (height size)) size = mkCGPoint 1 1.
Proof.
  intros p size Hw Hh.
  assert (Hiw : 0 < / width size) by (apply Rinv_0_lt_compat, Hw).
  assert (Hih : 0 < / height size) by (apply Rinv_0_lt_compat, Hh).
  split; [|split; [|split; [|split; [|split]]]].
  - intros Hx Hy. unfold toViewCoordinates; cbn [x y]. split; split; nra.
  - intros Hx Hy. unfold fromViewCoordinates; cbn [x y]. split; split.
    + apply Rmult_le_pos; lra.
    + apply (Rmult_le_reg_r (width size)); [exact Hw|].
      unfold Rdiv. rewrite Rmult_assoc, Rinv_l by lra. lra.
    + apply Rmult_le_pos; lra.
    + apply (Rmult_le_reg_r (height size)); [exact Hh|].
      unfold Rdiv. rewrite Rmult_assoc, Rinv_l by lra. lra.
  - apply CGPoint_eq; simpl; ring.
  - apply CGPoint_eq; simpl; ring.
  - apply CGPoint_eq; simpl; field; lra.
  - apply CGPoint_eq; simpl; field; lra.
Qed.

Lemma view_coordinates_keep_the_frame_witness :
  0 <= x (fromViewCoordinates (mkCGPoint 1920 270) Inputs.hdSize) <= 1
  /\ 0 <= y (fromViewCoordinates (mkCGPoint 1920 270) Inputs.hdSize) <= 1.
Proof.
  apply (proj1 (proj2 (view_coordinates_keep_the_frame (mkCGPoint 1920 270) Inputs.hdSize
                         ltac:(simpl; lra) ltac:(simpl; lra))));
    simpl; lra.
Defined.

Lemma Rltb_true (a b : R) : Rltb a b = true -> a < b.
Proof. unfold Rltb. destruct (Rlt_dec a b); [auto|discriminate]. Qed.

Lemma Rltb_false (a b : R) : Rltb a b = false -> b <= a.
Proof. unfold Rltb. destruct (Rlt_dec a b); [discriminate|intros _; lra]. Qed.

Lemma minBy_spec {A : Type} (key : A -> R) (result : A) (rest : list A) :
  In (minBy (fun a b => Rltb (key a) (key b)) result rest) (result :: rest)
  /\ forall e, In e (result :: rest) ->
       key (minBy (fun a b => Rltb (key a) (key b)) result rest) <= key e.
Proof.
  revert result. induction rest as [|e rest IH]; intros result.
  - simpl. split; [auto|]. intros e [<-|[]]. lra.
  - cbn [minBy]. destruct (Rltb (key e) (key result)) eqn:Hlt.
    + apply Rltb_true in Hlt. destruct (IH e) as [Hin Hmin]. split.
      * destruct Hin as [<-|Hin]; [right; left; reflexivity | right; right; exact Hin].
      * intros e' [<-|[<-|Hin']].
        -- pose proof (Hmin e (or_introl eq_refl)). lra.
        -- apply Hmin. left. reflexivity.
        -- apply Hmin. right. exact Hin'.
    + apply Rltb_false in Hlt. destruct (IH result) as [Hin Hmin]. split.
      * destruct Hin as [<-|Hin]; [left; reflexivity | right; right; exact Hin].
      * intros e' [<-|[<-|Hin']].
        -- apply Hmin. left. reflexivity.
        -- pose proof (Hmin result (or_introl eq_refl)). lra.
        -- apply Hmin. right. exact Hin'.
Qed.

(** X22.  [nearest(to:within:)] returns a point of the array that lies
    within the threshold and is at least as close to the position as every
    point of the array; it returns [nil] exactly when every point is
    farther away than the threshold. *)
Theorem nearest_is_within_threshold_and_closest :
  forall (points : list ControlPoint) (position : CGPoint) (threshold : R),
    (forall c, nearest points position threshold = Some c ->
       In c points
       /\ distance (Store.position c) position <= threshold
       /\ forall c', In c' points ->
            distance (Store.position c) position <= distance (Store.position c') position)
    /\ (nearest points position threshold = None <->
        forall c', In c' points -> threshold < distance (Store.position c') position).
Proof.
  intros points position threshold. unfold nearest.
  set (close := fun c => Rleb (distance (Store.position c) position) threshold).
  assert (Hclose : forall c, close c = true
                             <-> distance (Store.position c) position <= threshold).
  { intros c. unfold close, Rleb. destruct (Rle_dec _ _); split; auto; discriminate. }
  split.
  - intros c Hc. destruct (filter close points) as [|first rest] eqn:Hf;
      [discriminate Hc|].
    simpl in Hc. injection Hc as <-.
    destruct (minBy_spec (fun c => distance (Store.position c) position) first rest)
      as [Hin Hmin].
    rewrite <- Hf in Hin. apply filter_In in Hin as [Hin Hcl].
    apply Hclose in Hcl. split; [exact Hin|]. split; [exact Hcl|].
    intros c' Hc'. destruct (Rle_dec (distance (Store.position c') position) threshold)
      as [Hle|Hgt].
    + apply Hmin. rewrite <- Hf. apply filter_In. split; [exact Hc'|].
      apply Hclose, Hle.
    + lra.
  - split.
    + intros Hnone c' Hc'.
      destruct (filter close points) as [|first rest] eqn:Hf; [|discriminate Hnone].
      destruct (Rle_dec (distance (Store.position c') position) threshold) as [Hle|Hgt];
        [|lra].
      assert (Hin : In c' (filter close points))
        by (apply filter_In; split; [exact Hc' | apply Hclose, Hle]).
      rewrite Hf in Hin. contradiction.
    + intros Hfar. destruct (filter close points) as [|first rest] eqn:Hf;
        [reflexivity|].
      assert (Hin : In first (filter close points)) by (rewrite Hf; left; reflexivity).
      apply filter_In in Hin as [Hin Hcl]. apply Hclose in Hcl.
      specialize (Hfar first Hin). lra.
Qed.

Lemma distance_self (p : CGPoint) : distance p p = 0.
Proof.
  unfold distance. replace ((x p - x p) * (x p - x p) + (y p - y p) * (y p - y p)) with 0
    by ring. apply sqrt_0.
Qed.

Lemma nearest_is_within_threshold_and_closest_witness :
  In Inputs.storedPoint
    [ControlPoint_init 2 (mkCGPoint 0.5 0.53); Inputs.storedPoint]
  /\ distance (position Inputs.storedPoint) (mkCGPoint 0.5 0.5) <= 0.05
  /\ forall c', In c' [ControlPoint_init 2 (mkCGPoint 0.5 0.53); Inputs.storedPoint] ->
       distance (position Inputs.storedPoint) (mkCGPoint 0.5 0.5)
       <= distance (position c') (mkCGPoint 0.5 0.5).
Proof.
  apply (proj1 (nearest_is_within_threshold_and_closest
                  [ControlPoint_init 2 (mkCGPoint 0.5 0.53); Inputs.storedPoint]
                  (mkCGPoint 0.5 0.5) 0.05) Inputs.storedPoint).
  assert (Hd1 : distance (position (ControlPoint_init 2 (mkCGPoint 0.5 0.53)))
                  (mkCGPoint 0.5 0.5) = 0.03).
  { unfold distance; cbn [position ControlPoint_init x y].
    replace ((0.5 - 0.5) * (0.5 - 0.5) + (0.53 - 0.5) * (0.53 - 0.5)) with (0.03 * 0.03)
      by lra.
    apply sqrt_square. lra. }
  assert (Hd2 : distance (position Inputs.storedPoint) (mkCGPoint 0.5 0.5) = 0)
    by apply distance_self.
  unfold nearest. cbn [filter]. rewrite Hd1, Hd2. unfold Rleb.
  destruct (Rle_dec 0.03 0.05) as [_|H]; [|lra].
  destruct (Rle_dec 0 0.05) as [_|H]; [|lra].
  cbn [min_by minBy]. rewrite Hd1, Hd2. unfold Rltb.
  destruct (Rlt_dec 0 0.03) as [_|H]; [reflexivity|lra].
Defined.

Lemma filter_partition_permutation {A : Type} (f g : A -> bool) (l : list A) :
  (forall a, g a = negb (f a)) -> Permutation (filter f l ++ filter g l) l.
Proof.
  intros Hg. induction l as [|a l IH]; [constructor|].
  simpl. rewrite Hg. destruct (f a); simpl.
  - constructor. exact IH.
  - apply Permutation_sym, Permutation_cons_app, Permutation_sym, IH.
Qed.

(** X23.  [stretchPoints] and [anchorPoints] split the array: together
    they hold every point exactly once.  [removeUnlocked] keeps exactly
    the unlocked points (the locked ones are removed), and applying it
    twice is applying it once. *)
Theorem stretch_and_anchor_points_partition :
  forall points : list ControlPoint,
    Permutation (stretchPoints points ++ anchorPoints points) points
    /\ (List.length (stretchPoints points) + List.length (anchorPoints points)
        = List.length points)%nat
    /\ (forall c, In c (removeUnlocked points) <-> In c points /\ isLocked c = false)
    /\ removeUnlocked (removeUnlocked points) = removeUnlocked points.
Proof.
  intros points.
  assert (Hperm : Permutation (stretchPoints points ++ anchorPoints points) points).
  { apply filter_partition_permutation. intros c. unfold isStretch, isAnchor.
    destruct (type c); reflexivity. }
  split; [exact Hperm|]. split; [|split].
  - rewrite <- length_app. apply Permutation_length, Hperm.
  - intros c. unfold removeUnlocked. rewrite filter_In, negb_true_iff. tauto.
  - clear Hperm. unfold removeUnlocked. induction points as [|c l IH]; [reflexivity|].
    simpl. destruct (isLocked c) eqn:Hl; simpl; [exact IH|].
    rewrite Hl. simpl. rewrite IH. reflexivity.
Qed.

Lemma firstIndex_spec (cps : list ControlPoint) (pointId index : nat) :
  firstIndex cps pointId = Some index ->
  exists c, nth_error cps index = Some c /\ id c = pointId
            /\ forall j c', (j < index)%nat -> nth_error cps j = Some c' -> id c' <> pointId.
Proof.
  revert index. induction cps as [|c0 cps IH]; intros index Hidx; [discriminate Hidx|].
  simpl in Hidx. destruct (Nat.eqb_spec (id c0) pointId) as [Heq|Hne].
  - injection Hidx as <-. exists c0. repeat split; auto. intros j c' Hj. lia.
  - destruct (firstIndex cps pointId) as [k|]; [|discriminate Hidx].
    injection Hidx as <-. destruct (IH k eq_refl) as (c & Hc & Hid & Hbefore).
    exists c. repeat split; auto.
    intros j c' Hj Hnth. destruct j as [|j]; simpl in Hnth.
    + injection Hnth as <-. exact Hne.
    + apply (Hbefore j c'); [lia | exact Hnth].
Qed.

Lemma firstIndex_None (cps : list ControlPoint) (pointId : nat) :
  firstIndex cps pointId = None <-> forall c, In c cps -> id c <> pointId.
Proof.
  induction cps as [|c0 cps IH]; simpl.
  - split; [intros _ c [] | reflexivity].
  - destruct (Nat.eqb_spec (id c0) pointId) as [Heq|Hne].
    + split; [discriminate|]. intros H. exfalso. apply (H c0); auto.
    + destruct (firstIndex cps pointId) as [k|]; simpl.
      * split; [discriminate|]. intros H.
        assert (Hk : Some k = None)
          by (apply IH; intros c Hc; apply H; right; exact Hc).
        discriminate Hk.
      * split; [|reflexivity]. intros _ c [<-|Hc]; [exact Hne|].
        apply (proj1 IH eq_refl c Hc).
Qed.

Lemma modifyAt_length (cps : list ControlPoint) (index : nat) f :
  List.length (modifyAt cps index f) = List.length cps.
Proof.
  revert index. induction cps as [|c cps IH]; intros [|k]; simpl; auto.
Qed.

Lemma modifyAt_other (cps : list ControlPoint) (index j : nat) f :
  j <> index -> nth_error (modifyAt cps index f) j = nth_error cps j.
Proof.
  revert index j. induction cps as [|c cps IH]; intros [|k] [|j] Hne; simpl; auto;
    try contradiction; try (apply IH; lia).
Qed.

Lemma modifyAt_ids (cps : list ControlPoint) (index : nat) f :
  (forall c, id (f c) = id c) -> map id (modifyAt cps index f) = map id cps.
Proof.
  intros Hf. revert index. induction cps as [|c cps IH]; intros [|k]; simpl; auto.
  - rewrite Hf. reflexivity.
  - rewrite IH. reflexivity.
Qed.

(** X24.  [updateControlPoint] never adds, removes or reorders points and
    never changes an id.  With an id no point carries it changes nothing;
    otherwise every point other than the first one carrying the id is left
    as it was. *)
Theorem updateControlPoint_touches_one_point :
  forall (videoSize : CGSize) (cps : list ControlPoint) (pointId : nat)
         (p : option CGPoint) (s r : option R),
    List.length (updateControlPoint videoSize cps pointId p s r) = List.length cps
    /\ map id (updateControlPoint videoSize cps pointId p s r) = map id cps
    /\ ((forall c, In c cps -> id c <> pointId) ->
        updateControlPoint videoSize cps pointId p s r = cps)
    /\ (forall index, firstIndex cps pointId = Some index ->
        forall j, j <> index ->
          nth_error (updateControlPoint videoSize cps pointId p s r) j = nth_error cps j).
Proof.
  intros videoSize cps pointId p s r. unfold updateControlPoint.
  destruct (firstIndex cps pointId) as [index|] eqn:Hidx.
  - split; [|split; [|split]].
    + destruct p, s, r; rewrite ?modifyAt_length; reflexivity.
    + destruct p, s, r; rewrite ?modifyAt_ids; reflexivity.
    + intros Hnone. apply firstIndex_None in Hnone. congruence.
    + intros index' Hi j Hj. injection Hi as <-.
      destruct p, s, r; rewrite ?modifyAt_other by exact Hj; reflexivity.
  - split; [reflexivity|]. split; [reflexivity|]. split; [reflexivity|].
    intros index H. discriminate H.
Qed.

Lemma updateControlPoint_touches_one_point_witness :
  updateControlPoint Inputs.hdSize [Inputs.storedPoint] 9 None (Some 0.5) (Some 0.2)
  = [Inputs.storedPoint].
Proof.
  apply (proj1 (proj2 (proj2 (updateControlPoint_touches_one_point Inputs.hdSize
                                [Inputs.storedPoint] 9 None (Some 0.5) (Some 0.2))))).
  intros c [<-|[]]. simpl. lia.
Defined.

(** X25.  After [removeControlPoint] the array holds exactly the points
    that carry another id, in no greater number; a later
    [updateControlPoint] for the removed id changes nothing; removing twice
    is removing once; removing an id no point carries changes nothing. *)
Theorem removeControlPoint_forgets_the_id :
  forall (videoSize : CGSize) (cps : list ControlPoint) (pointId : nat)
         (p : option CGPoint) (s r : option R),
    (forall c, In c (removeControlPoint cps pointId) <-> In c cps /\ id c <> pointId)
    /\ updateControlPoint videoSize (removeControlPoint cps pointId) pointId p s r
       = removeControlPoint cps pointId
    /\ removeControlPoint (removeControlPoint cps pointId) pointId
       = removeControlPoint cps pointId
    /\ (List.length (removeControlPoint cps pointId) <= List.length cps)%nat
    /\ ((forall c, In c cps -> id c <> pointId) -> removeControlPoint cps pointId = cps).
Proof.
  intros videoSize cps pointId p s r.
  assert (Hin : forall c, In c (removeControlPoint cps pointId)
                          <-> In c cps /\ id c <> pointId).
  { intros c. unfold removeControlPoint.
    rewrite filter_In, negb_true_iff, Nat.eqb_neq. tauto. }
  split; [exact Hin|]. split; [|split; [|split]].
  - unfold updateControlPoint.
    replace (firstIndex (removeControlPoint cps pointId) pointId) with (@None nat);
      [reflexivity|].
    symmetry. apply firstIndex_None. intros c Hc. apply Hin in Hc. apply Hc.
  - clear Hin. unfold removeControlPoint. induction cps as [|c l IH]; [reflexivity|].
    simpl. destruct (id c =? pointId)%nat eqn:He; simpl; [exact IH|].
    rewrite He. simpl. f_equal. exact IH.
  - clear Hin. unfold removeControlPoint. induction cps as [|c l IH]; simpl; [lia|].
    destruct (negb _); simpl; lia.
  - clear Hin. intros Hnone. unfold removeControlPoint.
    induction cps as [|c l IH]; [reflexivity|]. simpl.
    destruct (Nat.eqb_spec (id c) pointId) as [Heq|Hne]; simpl.
    + exfalso. apply (Hnone c); [left; reflexivity | exact Heq].
    + f_equal. apply IH. intros c' Hc'. apply Hnone. right. exact Hc'.
Qed.

Lemma removeControlPoint_forgets_the_id_witness :
  removeControlPoint [Inputs.storedPoint] 9 = [Inputs.storedPoint].
Proof.
  apply (proj2 (proj2 (proj2 (proj2 (removeControlPoint_forgets_the_id Inputs.hdSize
                                       [Inputs.storedPoint] 9 None None None))))).
  intros c [<-|[]]. simpl. lia.
Defined.

Lemma dragEnded_in_view (viewSize : CGSize) (point : ControlPoint) (translation : CGPoint) :
  0 <= width viewSize -> 0 <= height viewSize ->
  0 <= x (dragEnded viewSize point translation) <= width viewSize
  /\ 0 <= y (dragEnded viewSize point translation) <= height viewSize.
Proof.
  intros Hw Hh. unfold dragEnded; cbn [x y].
  split; unfold Rmax, Rmin;
    repeat (match goal with |- context [Rle_dec ?a ?b] => destruct (Rle_dec a b) end);
    lra.
Qed.

(** X26.  Ending a drag keeps the range invariant of the store, provided
    the size the control point view lays the point out with is not larger
    than the video size the processor normalises by, and the latter is
    positive: the dropped position is clamped into the view, so its
    normalised coordinates stay in [0,1]. *)
Theorem drag_keeps_the_point_in_frame :
  forall (viewSize videoSize : CGSize) (cps : list ControlPoint) (point : ControlPoint)
         (translation : CGPoint),
    0 <= width viewSize <= width videoSize ->
    0 <= height viewSize <= height videoSize ->
    0 < width videoSize -> 0 < height videoSize ->
    rangeInvariant cps ->
    rangeInvariant
      (onPositionChange videoSize cps point (dragEnded viewSize point translation)).
Proof.
  intros viewSize videoSize cps point translation Hvw Hvh Hw Hh Hinv.
  unfold onPositionChange, updateControlPoint.
  destruct (firstIndex cps (id point)) as [index|]; [|exact Hinv].
  apply modifyAt_Forall; [|exact Hinv].
  intros c (_ & Hs & Hr). unfold inRange. cbn [position strength radius setPosition].
  split; [|tauto].
  destruct (dragEnded_in_view viewSize point translation) as [Hx Hy]; try lra.
  unfold fromViewCoordinates; cbn [x y].
  assert (Hiw : 0 < / width videoSize) by (apply Rinv_0_lt_compat, Hw).
  assert (Hih : 0 < / height videoSize) by (apply Rinv_0_lt_compat, Hh).
  split; split.
  - apply Rmult_le_pos; lra.
  - apply (Rmult_le_reg_r (width videoSize)); [exact Hw|].
    unfold Rdiv. rewrite Rmult_assoc, Rinv_l by lra. lra.
  - apply Rmult_le_pos; lra.
  - apply (Rmult_le_reg_r (height videoSize)); [exact Hh|].
    unfold Rdiv. rewrite Rmult_assoc, Rinv_l by lra. lra.
Qed.

Lemma drag_keeps_the_point_in_frame_witness :
  rangeInvariant
    (onPositionChange Inputs.hdSize [Inputs.storedPoint] Inputs.storedPoint
       (dragEnded (mkCGSize 960 540) Inputs.storedPoint (mkCGPoint 5000 (-5000)))).
Proof.
  apply (drag_keeps_the_point_in_frame (mkCGSize 960 540) Inputs.hdSize
           [Inputs.storedPoint] Inputs.storedPoint (mkCGPoint 5000 (-5000))).
  - simpl. lra.
  - simpl. lra.
  - simpl. lra.
  - simpl. lra.
  - exact storedPoint_inRange.
Defined.

End SwiftFacts.

